(** * sccs32s: connected components by iterated label merging

    A shallow embedding of [sccs32s.cpp] (the command line, graph
    population, the iteration loop of [main], the two relabeling modes and
    the output stage) and of [sccs_compare.cpp], with the properties that
    the specification states and further ones read off the code. *)

From Stdlib Require Import Ascii String.
From stdpp Require Import gmap list fin_maps relations strings sorting.

Local Open Scope N_scope.

(** ** Data model *)

(** Node ids and component labels are [uint32_t]; they are only compared and
    copied, never computed with, so they are plain [N].  The two label maps
    ([sccs], [merge]) are [std::unordered_map<uint32_t,uint32_t>]. *)

Abbreviation uint32 := N (only parsing).
Abbreviation uint64 := N (only parsing).

(** The hash [ch32] of the maps, computed in [size_t] (64 bits).  It decides
    in which bucket an entry lies and thereby the order of iteration, which
    the loops below take as a parameter; no result depends on it. *)
Definition ch32 (x_ : uint32) : N :=
  let x := x_ in
  let x := (N.lxor (N.shiftr x 16) x * 0x45d9f3b) mod 2 ^ 64 in
  let x := (N.lxor (N.shiftr x 16) x * 0x45d9f3b) mod 2 ^ 64 in
  N.lxor (N.shiftr x 16) x.

(** [m[x]] on an [unordered_map]: a missing key is first inserted with the
    value-initialised label 0. *)
Definition at_default (m : gmap N N) (x : N) : N * gmap N N :=
  match m !! x with
  | Some l => (l, m)
  | None => (0, <[x := 0]> m)
  end.

(** The state of the edge scan: the two parallel edge arrays [u1], [u2], the
    number [n] of live edges, the label table and the merge set. *)
Record scan_state := ScanState {
  u1 : list N;
  u2 : list N;
  n : nat;
  sccs : gmap N N;
  merge : gmap N N
}.

(** The inner [while(i2 == i1 && i<n)] loop: the edge at [i] joins two nodes
    of one component, so the last live edge is copied over it and [n]
    shrinks.  Every round decrements [n]; the recursion is on [n]. *)
Fixpoint prune (i : nat) (n : nat) (u1 u2 : list N) (sccs : gmap N N)
    (i1 i2 : N) {struct n} : nat * list N * list N * gmap N N * N * N :=
  match n with
  | S n' =>
      if bool_decide (i2 = i1) && bool_decide (i < S n')%nat then
        let u1 := <[i := u1 !!! n']> u1 in
        let u2 := <[i := u2 !!! n']> u2 in
        let '(i1, sccs) := at_default sccs (u1 !!! i) in
        let '(i2, sccs) := at_default sccs (u2 !!! i) in
        prune i n' u1 u2 sccs i1 i2
      else (n, u1, u2, sccs, i1, i2)
  | O => (n, u1, u2, sccs, i1, i2)
  end.

(** [merge[i2] = min(merge[i2], i1)], inserting when [i2] is new. *)
Definition record_merge (merge : gmap N N) (i1 i2 : N) : gmap N N :=
  match merge !! i2 with
  | None => <[i2 := i1]> merge
  | Some old => if bool_decide (i1 < old) then <[i2 := i1]> merge else merge
  end.

(** The [for(i=0;i<n;i++)] loop over the live edges.  [d] bounds the number
    of remaining rounds: [n - i] drops by at least one per round, so the
    loop is entered with [d = n - i] (see [scan_rounds_enough]). *)
Fixpoint scan (d : nat) (i : nat) (st : scan_state) : scan_state :=
  match d with
  | O => st
  | S d' =>
      if bool_decide (i < n st)%nat then
        let '(i1, s) := at_default (sccs st) (u1 st !!! i) in
        let '(i2, s) := at_default s (u2 st !!! i) in
        let '(n', a1, a2, s, i1, i2) := prune i (n st) (u1 st) (u2 st) s i1 i2 in
        if bool_decide (i = n') then
          ScanState a1 a2 n' s (merge st)
        else
          let '(i1, i2) := if bool_decide (i2 < i1) then (i2, i1) else (i1, i2) in
          scan d' (S i) (ScanState a1 a2 n' s (record_merge (merge st) i1 i2))
      else st
  end.

Definition scan_edges (st : scan_state) : scan_state := scan (n st) 0 st.

(** ** Chain resolution *)

(** An iterator into [merge] is the entry it points at, a (key, value) pair.
    [chase] is the [while(it2 != merge.end())] loop: starting from [it1] it
    pushes the entries whose target is again a source on [updates] (last
    pushed first) and returns the stack with [idlast], the target of the
    last entry.  The source loop does not end on a cyclic map; a chain that
    is longer than the number of entries revisits one, so with the size of
    the map as [fuel] the result [None] stands for that divergence. *)
Fixpoint chase (fuel : nat) (m : gmap N N) (it1 : N * N) (updates : list N)
    : option (list N * N) :=
  match fuel with
  | O => None
  | S fuel =>
      match m !! it1.2 with
      | Some v => chase fuel m (it1.2, v) (it1.1 :: updates)
      | None => Some (updates, it1.2)
      end
  end.

(** [while(!updates.empty()) { updates.back()->second = idlast; ... }] *)
Definition write_back (idlast : N) (updates : list N) (m : gmap N N) : gmap N N :=
  foldl (λ m s, <[s := idlast]> m) m updates.

(** The body of the [for(auto it = merge.begin(); ...)] loop for the entry
    with key [s]. *)
Definition resolve_entry (m : gmap N N) (s : N) : option (gmap N N) :=
  match m !! s with
  | None => Some m
  | Some v =>
      '(updates, idlast) ← chase (size m) m (s, v) [];
      Some (write_back idlast updates m)
  end.

(** The whole pass; [ks] lists the keys in the order in which the iteration
    meets them (the pass changes values only, so that order is fixed). *)
Fixpoint resolve (ks : list N) (m : gmap N N) : option (gmap N N) :=
  match ks with
  | [] => Some m
  | s :: ks => m ← resolve_entry m s; resolve ks m
  end.

(** ** Relabeling *)

Inductive diag :=
  | NoBufferSize            (* Error: no buffer size specified! *)
  | OpenFailed              (* Error opening temporary file *)
  | TruncateFailed          (* Error setting file size on temporary file *)
  | MapFileFailed           (* Error creating buffers from file *)
  | AllocFailed             (* Error allocating memory for the buffers! *)
  | ReadFailed              (* r.write_error(stderr) *)
  | Inconsistent (scc : N)  (* Inconsistent scc mappings: scc has no users *)
  | ProcessingError.        (* Error encountered during processing! *)

(** [k] is a [uint64_t] counter. *)
Definition incr64 (k : N) : N := (k + 1) mod 2 ^ 64.
(** [j] is an [unsigned int] counter. *)
Definition incr32 (j : N) : N := (j + 1) mod 2 ^ 32.

(** First version: one round of the loop over all of [sccs], for the entry
    [e] = (user, sccid) under the iterator.  With [use_reverse_map] the
    reverse map [sccs2] (a multimap from sccid to user, here the list of its
    entries) receives the possibly new pair. *)
Definition relabel_step (use_reverse_map : bool) (merge : gmap N N)
    (acc : gmap N N * list (N * N) * N) (e : N * N) : gmap N N * list (N * N) * N :=
  let '(sccs, sccs2, k) := acc in
  let '(sccs, k, sccid) :=
    match merge !! e.2 with
    | Some t => (<[e.1 := t]> sccs, incr64 k, t)
    | None => (sccs, k, e.2)
    end in
  (sccs, if use_reverse_map then (sccid, e.1) :: sccs2 else sccs2, k).

Definition relabel_all (use_reverse_map : bool) (merge : gmap N N)
    (entries : list (N * N)) (sccs : gmap N N) (sccs2 : list (N * N)) (k : N)
    : gmap N N * list (N * N) * N :=
  foldl (relabel_step use_reverse_map merge) (sccs, sccs2, k) entries.

(** [sccs2.find(key)]: an iterator to an entry with that key, as its
    position and the entry.  Which of several entries it is, is left to the
    library; the model takes the first one of the list, and [insert] puts
    the new pair in front. *)
Definition mm_find (key : N) (sccs2 : list (N * N)) : option (nat * (N * N)) :=
  list_find (λ e, e.1 = key) sccs2.

(** Improved version, the [do { ... } while(it != sccs2.end())] loop for one
    merge entry (first, second): every user filed under [first] is refiled
    under [second].  For [first = second] the source loop never ends;
    [fuel] is the length of [sccs2] and [None] stands for that. *)
Fixpoint rehome (fuel : nat) (first second : N) (it : nat * (N * N))
    (sccs : gmap N N) (sccs2 : list (N * N)) (k : N)
    : option (gmap N N * list (N * N) * N) :=
  match fuel with
  | O => None
  | S fuel =>
      let x := it.2 in
      let sccs2 := delete it.1 sccs2 in
      let x := (second, x.2) in
      let sccs := <[x.2 := second]> sccs in
      let sccs2 := x :: sccs2 in
      let k := incr64 k in
      match mm_find first sccs2 with
      | Some it => rehome fuel first second it sccs sccs2 k
      | None => Some (sccs, sccs2, k)
      end
  end.

(** [for(const auto& sccedge : merge)] over the entries in iteration order;
    a source label without users sets [k = 0] and leaves the loop. *)
Fixpoint relabel_indexed (entries : list (N * N)) (sccs : gmap N N)
    (sccs2 : list (N * N)) (k : N) (err : list diag)
    : option (gmap N N * list (N * N) * N * list diag) :=
  match entries with
  | [] => Some (sccs, sccs2, k, err)
  | sccedge :: entries =>
      match mm_find sccedge.1 sccs2 with
      | None => Some (sccs, sccs2, 0, err ++ [Inconsistent sccedge.1])
      | Some it =>
          '(sccs, sccs2, k) ←
            rehome (length sccs2) sccedge.1 sccedge.2 it sccs sccs2 k;
          relabel_indexed entries sccs sccs2 k err
      end
  end.

(** ** The iteration loop *)

(** The locals of [main] that live across iterations; stderr keeps the error
    diagnostics only (the progress lines carry time stamps). *)
Record loop_state := LoopState {
  edges : scan_state;
  sccs2 : list (N * N);
  j : N;
  k : N;
  err : list diag
}.

(** How a round of [while(1)] ends: it goes on, it leaves at
    [merge.size() == 0], or it leaves at [k == 0]. *)
Inductive status := RUNNING | CONVERGED | ERROR.

(** ** Graph population *)

(** Modelled from the spec: the line reader [read_table2] of read_table.h,
    which is not among the sources.  The input is a sequence of lines; a
    line holds two integer fields or is malformed, and the stream ends at
    the end of the input or fails before it.  [read] parses the two fields
    with a range check for [uint32_t]: a field out of range, negative ones
    included, gives [T_OVERFLOW], any other failure another error; a
    failed [read] stores nothing (the edge is skipped). *)
Inductive line :=
  | Row (a b : Z)
  | Malformed.

Inductive read_error := T_EOF | T_OVERFLOW | T_FORMAT | T_READ_ERROR.

#[global] Instance read_error_eq_dec : EqDecision read_error.
Proof. solve_decision. Defined.

Record table := Table { lines : list line; clean_end : bool }.

Definition uint32_max : Z := 4294967295.

Definition read (l : line) : N * N + read_error :=
  match l with
  | Row a b =>
      if bool_decide (0 ≤ a ≤ uint32_max ∧ 0 ≤ b ≤ uint32_max)%Z
      then inl (Z.to_N a, Z.to_N b)
      else inr T_OVERFLOW
  | Malformed => inr T_FORMAT
  end.

(** [read_line] fails when the lines are used up; the last error is then
    [T_EOF] at the end of the input and [T_READ_ERROR] otherwise. *)
Definition end_error (clean_end : bool) : read_error :=
  if clean_end then T_EOF else T_READ_ERROR.

(** A store through [i1[i]] or [i2[i]] outside the array the pointer was
    given for has no defined result; the model ends there with [Fault i]. *)
Inductive access (A : Type) :=
  | Done (a : A)
  | Fault (i : nat).
Arguments Done {A} a.
Arguments Fault {A} i.

(** The [while(r.read_line())] loop of [read_graph], by recursion on the
    lines left; the result carries the arrays, [i] and the last error. *)
Fixpoint read_rows (ls : list line) (clean_end : bool) (i1 i2 : list N) (i : nat)
    : access (list N * list N * nat * read_error) :=
  match ls with
  | [] => Done (i1, i2, i, end_error clean_end)
  | l :: ls =>
      match read l with
      | inl (a, b) =>
          if bool_decide (i < length i1 ∧ i < length i2)%nat
          then read_rows ls clean_end (<[i := a]> i1) (<[i := b]> i2) (S i)
          else Fault i
      | inr T_OVERFLOW => read_rows ls clean_end i1 i2 i
      | inr e => Done (i1, i2, i, e)
      end
  end.

(** [read_graph(i1, i2, f, N)]: the arrays as left behind, what went to
    stderr and the returned number of edges.  The body never looks at [N]. *)
Definition read_graph (i1 i2 : list uint32) (f : table) (N : uint64)
    : access (list uint32 * list uint32 * list diag * nat) :=
  match read_rows (lines f) (clean_end f) i1 i2 0 with
  | Done (i1, i2, i, e) =>
      if bool_decide (e ≠ T_EOF) then Done (i1, i2, [ReadFailed], 0%nat)
      else Done (i1, i2, [], i)
  | Fault i => Fault i
  end.

(** ** The program *)

(** The settings read from the command line, and what the system calls
    [open] (with [O_EXCL]), [ftruncate] and [mmap] answer. *)
Record config := Config {
  n1 : N;
  tmpfn : option string;
  use_reverse_map : bool
}.

Record os := Os { open_ok : bool; ftruncate_ok : bool; mmap_ok : bool }.

(** How a run ends: [return status] with what was written to stdout and
    stderr, or a store outside the edge arrays. *)
Inductive outcome :=
  | Exit (status : Z) (out : list (N * N)) (err : list diag)
  | Crash (err : list diag) (i : nat).

(** [s = n1*2*sizeof(uint32_t)] in [uint64_t]; [u1 = buf], [u2 = u1 + n1].
    A mapping of [s] bytes holds [s/4] words, [u1] is given the first [n1]
    of them and [u2] the rest; after [MAP_FAILED] no word is valid. *)
Definition buffers (n1 : N) (mapped : bool) : list N * list N :=
  if mapped then
    let s := (n1 * 2 * 4) mod 2 ^ 64 in
    let buf := replicate (N.to_nat (s / 4)) 0 in
    (take (N.to_nat n1) buf, drop (N.to_nat n1) buf)
  else ([], []).

(** "1. just get all users": every endpoint not yet known becomes its own
    scc. *)
Definition add_user (sccs : gmap N N) (x : N) : gmap N N :=
  match sccs !! x with
  | None => <[x := x]> sccs
  | Some _ => sccs
  end.

Definition get_users (u1 u2 : list N) (n : nat) : gmap N N :=
  foldl (λ sccs i, add_user (add_user sccs (u1 !!! i)) (u2 !!! i)) ∅ (seq 0 n).

(** The part of [main] before [read_graph]: either the run is over, or the
    buffers are set up ([true]) or not ([false], after a failed [mmap] of
    the temporary file, which only prints). *)
Definition setup (cfg : config) (sys : os) : outcome + bool * list diag :=
  if bool_decide (n1 cfg = 0) then inl (Exit 1 [] [NoBufferSize])
  else
    match tmpfn cfg with
    | Some _ =>
        if negb (open_ok sys) then inl (Exit 2 [] [OpenFailed])
        else if negb (ftruncate_ok sys) then inl (Exit 3 [] [TruncateFailed])
        else if negb (mmap_ok sys) then inr (false, [MapFileFailed])
        else inr (true, [])
    | None =>
        if negb (mmap_ok sys) then inl (Exit 11 [] [AllocFailed])
        else inr (true, [])
    end.

(** The locals at the first entry of the loop, after "1. just get all
    users". *)
Definition initial (u1 u2 : list N) (n : nat) (err : list diag) : loop_state :=
  LoopState (ScanState u1 u2 n (get_users u1 u2 n) ∅) [] 0 0 err.

Section Driver.
(** The order in which a range-for or iterator loop meets the entries of
    an [unordered_map] is fixed by the library, not by the program. *)
Variable order : gmap N N → list (N * N).

Definition iteration (use_reverse_map : bool) (st : loop_state)
    : option (status * loop_state) :=
  let e := scan_edges (edges st) in
  if bool_decide (size (merge e) = 0%nat) then
    Some (CONVERGED, LoopState e (sccs2 st) (j st) (k st) (err st))
  else
    m ← resolve (order (merge e)).*1 (merge e);
    '(s, s2, k, err) ←
      (if bool_decide (length (sccs2 st) = 0%nat) then
         Some (relabel_all use_reverse_map m (order (sccs e)) (sccs e)
                 (sccs2 st) (k st), err st)
       else relabel_indexed (order m) (sccs e) (sccs2 st) (k st) (err st));
    if bool_decide (k = 0) then
      Some (ERROR, LoopState (ScanState (u1 e) (u2 e) (n e) s m) s2 0 k err)
    else
      Some (RUNNING,
            LoopState (ScanState (u1 e) (u2 e) (n e) s ∅) s2 (incr32 (j st)) 0 err).

(** [while(1)], at most [fuel] rounds; [None] when the loop is still
    running after them (or a round does not end). *)
Fixpoint main_loop (fuel : nat) (use_reverse_map : bool) (st : loop_state)
    : option (status * loop_state) :=
  match fuel with
  | O => None
  | S fuel =>
      match iteration use_reverse_map st with
      | Some (RUNNING, st) => main_loop fuel use_reverse_map st
      | r => r
      end
  end.

(** The locals at the head of the loop after [c] full rounds, when the
    loop runs that long. *)
Fixpoint rounds (c : nat) (use_reverse_map : bool) (st : loop_state)
    : option loop_state :=
  match c with
  | O => Some st
  | S c =>
      match iteration use_reverse_map st with
      | Some (RUNNING, st) => rounds c use_reverse_map st
      | _ => None
      end
  end.

(** The part of [main] after the loop: the error line or the table, then
    [return 0]. *)
Definition finish (st : loop_state) : outcome :=
  if bool_decide (j st = 0)
  then Exit 0 [] (err st ++ [ProcessingError])
  else Exit 0 (order (sccs (edges st))) (err st).

(** [main] from the parsed settings on, with at most [fuel] rounds of the
    iteration loop. *)
Definition main (fuel : nat) (cfg : config) (sys : os) (stdin : table)
    : option outcome :=
  match setup cfg sys with
  | inl o => Some o
  | inr (mapped, err) =>
      let '(u1, u2) := buffers (n1 cfg) mapped in
      match read_graph u1 u2 stdin (n1 cfg) with
      | Fault i => Some (Crash err i)
      | Done (u1, u2, err', n) =>
          if bool_decide (n = 0%nat) then Some (Exit 1 [] (err ++ err'))
          else
            '(_, st) ← main_loop fuel (use_reverse_map cfg)
                          (initial u1 u2 n (err ++ err'));
            Some (finish st)
      end
  end.
End Driver.

(** ** The command line *)

(** [argv[i][0] == '-'] and the character [argv[i][1]] the [switch] looks
    at; for the argument "-" that is the terminating NUL. *)
Definition flag (a : string) : option ascii :=
  match a with
  | String "-" EmptyString => Some "000"%char
  | String "-" (String c _) => Some c
  | _ => None
  end.

Section Arguments.
(** [strtoul(s, 0, 10)] of the C library. *)
Variable strtoul : string → N.

(** The [for(int i=1;i<argc;i++)] loop over the arguments [argv[1]], ...,
    [argv[argc-1]] that are left, with the settings so far and the
    arguments already reported as unknown.  [argv[argc]] is a null pointer:
    as the value of [-t] it leaves [tmpfn] at 0, as the value of [-N] it is
    handed to [strtoul], which has no defined result ([None]).  The value
    of an option is the next argument of the loop. *)
Fixpoint parse_args (args : list string) (cfg : config) (unknown : list string)
    : option (config * list string) :=
  match args with
  | [] => Some (cfg, unknown)
  | a :: args =>
      match flag a with
      | None => parse_args args cfg unknown
      | Some c =>
          if decide (c = "N"%char) then
            match args with
            | [] => None
            | v :: _ =>
                parse_args args
                  (Config (strtoul v) (tmpfn cfg) (use_reverse_map cfg)) unknown
            end
          else if decide (c = "t"%char) then
            parse_args args (Config (n1 cfg) (head args) (use_reverse_map cfg)) unknown
          else if decide (c = "r"%char) then
            parse_args args (Config (n1 cfg) (tmpfn cfg) true) unknown
          else parse_args args cfg (unknown ++ [a])
      end
  end.
End Arguments.

(** [n1 = 0], [tmpfn = 0], [use_reverse_map = false]. *)
Definition defaults : config := Config 0 None false.

(** ** sccs_compare: comparing two labelings *)

Module sccs_compare.

(** The lines written to stderr. *)
Inductive diag :=
  | NoInputFiles             (* No input files given! *)
  | CannotOpen (fn : string) (* Error opening file fn! *)
  | ReadError                (* Error reading input: ... *)
  | NotFound (id : N)        (* ID id not found in the first dataset! *)
  | Mismatch (id : N).       (* Mismatch for address id! *)

Section Program.
(** What [fopen(fn,"r")] finds under a name, the standard input, and
    [std::sort] with a comparison function, which is free in the order it
    gives to entries that compare equal. *)
Variable files : string → option table.
Variable stdin : table.
Variable sort : (N * N → N * N → bool) → list (N * N) → list (N * N).

(** The [while(rt.read_line())] loop of [read_sccs]: every failed [read]
    leaves the loop, an out of range field included. *)
Fixpoint read_pairs (ls : list line) (clean_end : bool) (sccs : list (N * N))
    : list (N * N) * read_error :=
  match ls with
  | [] => (sccs, end_error clean_end)
  | l :: ls =>
      match read l with
      | inl xy => read_pairs ls clean_end (sccs ++ [xy])
      | inr e => (sccs, e)
      end
  end.

(** [read_sccs(fn, sccs)]: the returned value, the vector and stderr; a
    null [fn] stands for the standard input. *)
Definition read_sccs (fn : option string) (sccs : list (N * N))
    : Z * list (N * N) * list diag :=
  match fn with
  | Some name =>
      match files name with
      | None => (1%Z, sccs, [CannotOpen name])
      | Some f =>
          let '(sccs, e) := read_pairs (lines f) (clean_end f) sccs in
          if bool_decide (e ≠ T_EOF) then (1%Z, sccs, [ReadError])
          else (0%Z, sccs, [])
      end
  | None =>
      let '(sccs, e) := read_pairs (lines stdin) (clean_end stdin) sccs in
      if bool_decide (e ≠ T_EOF) then (1%Z, sccs, [ReadError])
      else (0%Z, sccs, [])
  end.

(** [std::lower_bound(first, last, value, comp)] on a range that [comp]
    partitions: the first entry for which [comp(entry, value)] is false,
    or [last] ([None]). *)
Definition lower_bound (range : list (N * N)) (value : N)
    (comp : N * N → N → bool) : option (N * N) :=
  snd <$> list_find (λ a, comp a value = false) range.

(** The [for(const auto& x : sccs2)] loop over the entries left. *)
Fixpoint compare (sccs1 sccs2 : list (N * N)) (sccid1 sccid2 : N) : list diag :=
  match sccs2 with
  | [] => []
  | x :: sccs2 =>
      match lower_bound sccs1 x.1 (λ a b, bool_decide (a.1 < b)) with
      | None => [NotFound x.1]
      | Some y =>
          if bool_decide (y.1 ≠ x.1) then [NotFound x.1]
          else if bool_decide (x.2 ≠ sccid2) then compare sccs1 sccs2 y.2 x.2
          else if bool_decide (y.2 ≠ sccid1) then [Mismatch x.1]
          else compare sccs1 sccs2 sccid1 sccid2
      end
  end.

(** The [for(int i=1;i<argc;i++)] loop of [main] over the arguments that
    are left, with [i1], [i2] so far and the arguments already reported as
    unknown.  The argument behind [-1] or [-2] becomes the file name unless
    there is none ([argv[argc]] is null) or it is "-". *)
Fixpoint parse_inputs (args : list string) (i1 i2 : option string)
    (unknown : list string) : option string * option string * list string :=
  match args with
  | [] => (i1, i2, unknown)
  | a :: args =>
      match flag a with
      | None => parse_inputs args i1 i2 unknown
      | Some c =>
          if decide (c = "1"%char) then
            match args with
            | v :: _ =>
                if decide (v = "-"%string) then parse_inputs args i1 i2 unknown
                else parse_inputs args (Some v) i2 unknown
            | [] => parse_inputs args i1 i2 unknown
            end
          else if decide (c = "2"%char) then
            match args with
            | v :: _ =>
                if decide (v = "-"%string) then parse_inputs args i1 i2 unknown
                else parse_inputs args i1 (Some v) unknown
            | [] => parse_inputs args i1 i2 unknown
            end
          else parse_inputs args i1 i2 (unknown ++ [a])
      end
  end.

(** [main] from the two file names on: the returned value and stderr.
    [sccs2[0]] on an empty vector is an access outside it. *)
Definition main (i1 i2 : option string) : access (Z * list diag) :=
  if bool_decide (i1 = None ∧ i2 = None) then Done (1%Z, [NoInputFiles])
  else
    let '(r1, sccs1, e1) := read_sccs i1 [] in
    if bool_decide (r1 ≠ 0%Z) then Done (1%Z, e1)
    else
      let '(r2, sccs2, e2) := read_sccs i2 [] in
      if bool_decide (r2 ≠ 0%Z) then Done (1%Z, e1 ++ e2)
      else
        let sccs1 := sort (λ a b, bool_decide (a.1 < b.1)) sccs1 in
        let sccs2 := sort (λ a b, bool_decide (a.2 < b.2)) sccs2 in
        match sccs2 with
        | [] => Fault 0
        | x0 :: _ =>
            let sccid2 := (x0.2 + 1) mod 2 ^ 32 in
            let sccid1 := 0 in
            Done (0%Z, e1 ++ e2 ++ compare sccs1 sccs2 sccid1 sccid2)
        end.
End Program.
End sccs_compare.

(** ** Notions used to state the properties *)

(** [reaches m s r]: following the entries of [m] from the source [s] ends
    at [r], the first target that is not a source. *)
Inductive reaches (m : gmap N N) : N → N → Prop :=
  | reaches_last s t : m !! s = Some t → m !! t = None → reaches m s t
  | reaches_next s t r : m !! s = Some t → reaches m t r → reaches m s r.

(** Every entry points to a smaller label. *)
Definition downward (m : gmap N N) : Prop := ∀ s t, m !! s = Some t → t < s.

(** The number of sources of [m] that are at most [v]. *)
Definition below (m : gmap N N) (v : N) : nat :=
  length (filter (λ e, e.1 ≤ v) (map_to_list m)).

(** A stage of the resolution of [M]: the same sources, each entry still as
    it was or already set to the end of its chain. *)
Definition partly (M m : gmap N N) : Prop :=
  (∀ s, m !! s = None ↔ M !! s = None) ∧
  (∀ s t, m !! s = Some t → M !! s = Some t ∨ reaches M s t).

(** The entry of [s] points outside the sources. *)
Definition settled (m : gmap N N) (s : N) : Prop :=
  ∃ t, m !! s = Some t ∧ m !! t = None.

(** The label the scan reads for [x]: [sccs[x]], 0 for a missing key. *)
Definition lab (sccs : gmap N N) (x : N) : N := default 0 (sccs !! x).

(** The edge stored at position [p] of the arrays. *)
Definition edge_at (a1 a2 : list N) (p : nat) : N * N := (a1 !!! p, a2 !!! p).

(** The first [i] edges have been scanned into the merge set [M]: each of
    them joins two different labels and the larger one is a source whose
    target is at most the smaller one; and each entry of [M] comes from one
    of these edges. *)
Definition scanned (L : N → N) (a1 a2 : list N) (i : nat) (M : gmap N N) : Prop :=
  (∀ p, (p < i)%nat →
     L (a1 !!! p) ≠ L (a2 !!! p) ∧
     ∃ t, M !! (L (a1 !!! p) `max` L (a2 !!! p)) = Some t ∧
          t ≤ L (a1 !!! p) `min` L (a2 !!! p)) ∧
  (∀ s t, M !! s = Some t →
     t < s ∧ ∃ p, (p < i)%nat ∧
       ((L (a1 !!! p) = t ∧ L (a2 !!! p) = s) ∨
        (L (a1 !!! p) = s ∧ L (a2 !!! p) = t))).

(** The live edges [b1], [b2], [m] after pruning the live edges [a1], [a2],
    [n]: nothing new, and nothing lost but edges inside one component. *)
Definition kept (L : N → N) (a1 a2 : list N) (n : nat) (b1 b2 : list N) (m : nat) : Prop :=
  (∀ p, (p < m)%nat → ∃ q, (q < n)%nat ∧ edge_at b1 b2 p = edge_at a1 a2 q) ∧
  (∀ q, (q < n)%nat →
     (∃ p, (p < m)%nat ∧ edge_at a1 a2 q = edge_at b1 b2 p) ∨
     L (a1 !!! q) = L (a2 !!! q)).

(** Every endpoint of a live edge has an entry in the label table. *)
Definition closed (sccs : gmap N N) (a1 a2 : list N) (n : nat) : Prop :=
  ∀ p, (p < n)%nat → is_Some (sccs !! (a1 !!! p)) ∧ is_Some (sccs !! (a2 !!! p)).

(** What relabeling with the merge set [M] makes of a label. *)
Definition relabel (M : gmap N N) (l : N) : N := default l (M !! l).

(** The reverse map agrees with the label table: it files every user once,
    under its current label. *)
Definition indexed (sccs : gmap N N) (sccs2 : list (N * N)) : Prop :=
  NoDup sccs2 ∧ ∀ l x, (l, x) ∈ sccs2 ↔ sccs !! x = Some l.

(** The number of entries of the label table whose label is a source. *)
Definition hits (M : gmap N N) (es : list (N * N)) : nat :=
  length (filter (λ e, is_Some (M !! e.2)) es).

(** The state of the edges at the head of the loop: the live edges lie
    inside the arrays, their endpoints are in the label table, and the merge
    set is empty. *)
Definition ready (e : scan_state) : Prop :=
  (n e ≤ length (u1 e))%nat ∧ (n e ≤ length (u2 e))%nat ∧
  closed (sccs e) (u1 e) (u2 e) (n e) ∧ merge e = ∅.

(** The reverse map is not yet built, or it agrees with the label table. *)
Definition index_ok (st : loop_state) : Prop :=
  sccs2 st = [] ∨ indexed (sccs (edges st)) (sccs2 st).

(** At the head of the loop. *)
Definition head (st : loop_state) : Prop :=
  ready (edges st) ∧ index_ok st ∧ k st = 0.

(** The input graph: the edges at the first [m] positions of the arrays
    [a1], [a2] as [read_graph] left them. *)
Definition edge_of (a1 a2 : list N) (m : nat) (x y : N) : Prop :=
  ∃ p, (p < m)%nat ∧ edge_at a1 a2 p = (x, y).

Definition endpoint (a1 a2 : list N) (m : nat) (x : N) : Prop :=
  ∃ y, edge_of a1 a2 m x y ∨ edge_of a1 a2 m y x.

(** Connected by a path of input edges, taken in either direction. *)
Definition connected (a1 a2 : list N) (m : nat) : relation N :=
  rtsc (edge_of a1 a2 m).

(** What the loop keeps about the input graph: the live edges are input
    edges, an input edge that is not live any more joins two users of one
    label, every input endpoint has a label, and a label is a user of the
    same component with an id that is not larger. *)
Definition graph_inv (a1 a2 : list N) (m : nat) (st : loop_state) : Prop :=
  kept (lab (sccs (edges st))) a1 a2 m (u1 (edges st)) (u2 (edges st)) (n (edges st)) ∧
  closed (sccs (edges st)) a1 a2 m ∧
  (∀ x l, sccs (edges st) !! x = Some l → l ≤ x ∧ connected a1 a2 m x l).

(** The sum of all labels of the table. *)
Definition label_sum (sccs : gmap N N) : nat :=
  sum_list ((λ e, N.to_nat e.2) <$> map_to_list sccs).

(** Two states of the loop that differ in the reverse map at most. *)
Definition same_table (st st' : loop_state) : Prop :=
  edges st = edges st' ∧ j st = j st' ∧ k st = k st' ∧ err st = err st'.

(** Two results of the loop, or of the program, that differ in the reverse
    map and in the order of the output lines at most. *)
Definition same_result (r r' : option (status * loop_state)) : Prop :=
  match r, r' with
  | Some (s, st), Some (s', st') => s = s' ∧ same_table st st'
  | None, None => True
  | _, _ => False
  end.

Definition same_outcome (o o' : option outcome) : Prop :=
  match o, o' with
  | Some (Exit c out err), Some (Exit c' out' err') =>
      c = c' ∧ out ≡ₚ out' ∧ err = err'
  | Some (Crash err i), Some (Crash err' i') => err = err' ∧ i = i'
  | None, None => True
  | _, _ => False
  end.

(** Every user of the table is a [uint32_t] value. *)
Definition users_in_range (sccs : gmap N N) : Prop :=
  ∀ x, is_Some (sccs !! x) → x < 2 ^ 32.

(** The rows that the reading loop stores, in the order of the input: the
    rows in range, up to the first line on which the loop breaks. *)
Fixpoint stored_rows (ls : list line) : list (N * N) :=
  match ls with
  | [] => []
  | l :: ls =>
      match read l with
      | inl ab => ab :: stored_rows ls
      | inr T_OVERFLOW => stored_rows ls
      | inr _ => []
      end
  end.

(** The error the reader holds when the reading loop is left. *)
Fixpoint last_error (ls : list line) (clean_end : bool) : read_error :=
  match ls with
  | [] => end_error clean_end
  | l :: ls =>
      match read l with
      | inl _ | inr T_OVERFLOW => last_error ls clean_end
      | inr e => e
      end
  end.


(** The arguments that draw "Unknown parameter": those that begin with
    '-' and go on with a character other than N, t and r. *)
Definition unknown_parameter (a : string) : Prop :=
  match flag a with
  | Some c => c ≠ "N"%char ∧ c ≠ "t"%char ∧ c ≠ "r"%char
  | None => False
  end.

#[global] Instance unknown_parameter_dec a : Decision (unknown_parameter a).
Proof. unfold unknown_parameter. destruct (flag a); apply _. Defined.

(** ** Chain resolution: proofs *)

Section Resolve.
Implicit Types m M : gmap N N.

Lemma reaches_end m s r : reaches m s r → m !! r = None.
Proof. induction 1; auto. Qed.

Lemma reaches_lt m s r : downward m → reaches m s r → r < s.
Proof.
  intros Hd. induction 1 as [s t Hs _|s t r Hs _ IH].
  - by apply Hd.
  - apply Hd in Hs. lia.
Qed.

Lemma reaches_fun m s r r' : reaches m s r → reaches m s r' → r = r'.
Proof.
  intros H. revert r'. induction H as [s t Hs Ht|s t r Hs Hr IH]; intros r' H'.
  - inversion H' as [? ? Hs' _|? t' ? Hs' Hr']; subst.
    + congruence.
    + assert (t' = t) as -> by congruence.
      inversion Hr'; congruence.
  - inversion H' as [? ? Hs' Ht'|? t' ? Hs' Hr']; subst.
    + assert (r' = t) as -> by congruence.
      inversion Hr; congruence.
    + assert (t' = t) as -> by congruence. auto.
Qed.

Lemma partly_refl M : partly M M.
Proof. split; [done | auto]. Qed.

Lemma partly_downward M m : downward M → partly M m → downward m.
Proof.
  intros Hd [_ Hp] s t Hs. destruct (Hp _ _ Hs) as [?|?].
  - by apply Hd.
  - by eapply reaches_lt.
Qed.

Lemma partly_settled M m s t :
  partly M m → m !! s = Some t → m !! t = None → reaches M s t.
Proof.
  intros [Hdom Hp] Hs Ht. destruct (Hp _ _ Hs) as [?|?]; [|done].
  apply reaches_last; [done | by apply Hdom].
Qed.

Lemma partly_pending M m s t :
  partly M m → m !! s = Some t → is_Some (m !! t) → M !! s = Some t.
Proof.
  intros [Hdom Hp] Hs [w Ht]. destruct (Hp _ _ Hs) as [?|Hr]; [done|].
  apply reaches_end, Hdom in Hr. congruence.
Qed.

Lemma below_lt m v v' : is_Some (m !! v) → v' < v → (below m v' < below m v)%nat.
Proof.
  intros [w Hv] Hlt. unfold below.
  set (l := map_to_list m).
  assert (filter (λ e : N * N, e.1 ≤ v') l =
          filter (λ e : N * N, e.1 ≤ v') (filter (λ e : N * N, e.1 ≤ v) l)) as ->.
  { rewrite list_filter_filter. apply list_filter_iff. intros [a b]; simpl. lia. }
  apply (length_filter_lt _ _ (v, w)).
  - apply list_elem_of_filter. split; [simpl; lia|].
    by apply elem_of_map_to_list.
  - simpl. lia.
Qed.

Lemma below_lt_size m s v : is_Some (m !! s) → v < s → (below m v < size m)%nat.
Proof.
  intros [w Hs] Hlt. unfold below. rewrite <- length_map_to_list.
  apply (length_filter_lt _ _ (s, w)).
  - by apply elem_of_map_to_list.
  - simpl. lia.
Qed.

(** The chain loop ends when the fuel exceeds the number of sources below
    the current target, and it returns the end of the chain together with
    the entries met on the way, all of them still pending. *)
Lemma chase_spec M m : downward M → partly M m →
  ∀ fuel k1 v1 us, m !! k1 = Some v1 → (below m v1 < fuel)%nat →
  ∃ us' r, chase fuel m (k1, v1) us = Some (us' ++ us, r) ∧
    m !! r = None ∧ reaches M k1 r ∧
    (∀ c, c ∈ us' → reaches M c r ∧ ∃ c', m !! c = Some c' ∧ is_Some (m !! c')) ∧
    (is_Some (m !! v1) → k1 ∈ us') ∧
    (m !! v1 = None → us' = [] ∧ r = v1).
Proof.
  intros Hd Hp. pose proof (partly_downward _ _ Hd Hp) as Hdm.
  induction fuel as [|fuel IH]; intros k1 v1 us Hk Hf; [lia|].
  simpl. destruct (m !! v1) as [v2|] eqn:Hv.
  - destruct (IH v1 v2 (k1 :: us) Hv) as (us' & r & Hc & Hr & Hreach & Hall & _ & _).
    { assert (below m v2 < below m v1)%nat; [|lia].
      apply below_lt; [by eexists | by apply Hdm]. }
    assert (reaches M k1 r) as Hk1.
    { eapply reaches_next; [|done]. eapply partly_pending; eauto. }
    exists (us' ++ [k1]), r. rewrite <- app_assoc. simpl.
    split_and!; [done..| | |done].
    + intros c [Hc'| ->%list_elem_of_singleton]%elem_of_app; [by apply Hall|].
      split; [done|]. exists v1. split; [done | by eexists].
    + intros _. apply elem_of_app. right. by apply list_elem_of_singleton.
  - exists [], v1. split_and!; try done.
    + by eapply partly_settled.
    + intros c Hc. by apply elem_of_nil in Hc.
Qed.

Lemma write_back_lookup r us m x :
  write_back r us m !! x = if decide (x ∈ us) then Some r else m !! x.
Proof.
  unfold write_back. revert m. induction us as [|c us IH]; intros m; simpl.
  - destruct (decide (x ∈ [])) as [H|H]; [by apply elem_of_nil in H | done].
  - rewrite IH. destruct (decide (x ∈ us)) as [Hin|Hnin].
    + rewrite decide_True; [done | by right].
    + destruct (decide (x = c)) as [->|Hne].
      * rewrite decide_True by left. by rewrite lookup_insert_eq.
      * rewrite decide_False.
        -- by rewrite lookup_insert_ne.
        -- by intros [?|?]%elem_of_cons.
Qed.

(** One round of the pass keeps the stage, keeps what is settled, and
    settles the entry it started from. *)
Lemma resolve_entry_spec M m s : downward M → partly M m →
  ∃ m', resolve_entry m s = Some m' ∧ partly M m' ∧
    (∀ c, settled m c → settled m' c) ∧
    (is_Some (m !! s) → settled m' s).
Proof.
  intros Hd Hp. pose proof (partly_downward _ _ Hd Hp) as Hdm.
  unfold resolve_entry. destruct (m !! s) as [v|] eqn:Hs.
  2:{ exists m. by split_and!. }
  destruct (chase_spec M m Hd Hp (size m) s v [] Hs)
    as (us & r & Hc & Hr & Hreach & Hall & Hin & Hnone).
  { apply (below_lt_size _ s); [by eexists | by apply Hdm]. }
  rewrite app_nil_r in Hc. rewrite Hc. simpl.
  exists (write_back r us m).
  assert (∀ x, write_back r us m !! x = None ↔ m !! x = None) as Hdom.
  { intros x. rewrite write_back_lookup. case_decide as Hx; [|done].
    destruct (Hall _ Hx) as (_ & c' & Hxc & _). rewrite Hxc. by split. }
  split_and!; [done| | |].
  - destruct Hp as [Hpd Hpe]. split.
    + intros x. rewrite Hdom. apply Hpd.
    + intros x t. rewrite write_back_lookup. case_decide as Hx.
      * intros [= <-]. right. by apply Hall.
      * apply Hpe.
  - intros c (t & Hct & Ht). exists t. split; [|by apply Hdom].
    rewrite write_back_lookup. case_decide as Hx; [|done].
    destruct (Hall _ Hx) as (_ & c' & Hcc & [w Hw]). congruence.
  - intros _. destruct (m !! v) as [w|] eqn:Hv.
    + exists r. split; [|by apply Hdom].
      rewrite write_back_lookup, decide_True; [done|]. apply Hin. by eexists.
    + destruct (Hnone eq_refl) as [-> ->].
      exists v. split; [|by apply Hdom].
      rewrite write_back_lookup. by case_decide as Hx; [apply elem_of_nil in Hx|].
Qed.

Lemma resolve_spec M : downward M →
  ∀ ks m, partly M m →
  ∃ m', resolve ks m = Some m' ∧ partly M m' ∧
    (∀ c, settled m c → settled m' c) ∧
    (∀ c, c ∈ ks → is_Some (m !! c) → settled m' c).
Proof.
  intros Hd. induction ks as [|s ks IH]; intros m Hp.
  - exists m. split_and!; try done. intros c Hc. by apply elem_of_nil in Hc.
  - simpl. destruct (resolve_entry_spec M m s Hd Hp) as (m1 & -> & Hp1 & Hkeep & Hs).
    simpl. destruct (IH m1 Hp1) as (m' & -> & Hp' & Hkeep' & Hks).
    exists m'. split_and!; [done..|auto|].
    intros c [->|Hc]%elem_of_cons Hsome; [auto|].
    apply Hks; [done|]. destruct Hp as [Hpd _], Hp1 as [Hpd1 _].
    apply not_eq_None_Some. rewrite Hpd1, <- Hpd. by apply not_eq_None_Some.
Qed.

(** The pass over a map with downward entries, in any order that meets
    every source: it ends, keeps the sources, and leaves every source
    with the end of its chain as target. *)
Lemma resolve_correct M ks : downward M →
  (∀ s, is_Some (M !! s) → s ∈ ks) →
  ∃ m', resolve ks M = Some m' ∧
    (∀ s, m' !! s = None ↔ M !! s = None) ∧
    (∀ s t, m' !! s = Some t → m' !! t = None ∧ reaches M s t).
Proof.
  intros Hd Hks.
  destruct (resolve_spec M Hd ks M (partly_refl M)) as (m' & Hr & Hp & _ & Hset).
  exists m'. split_and!; [done | apply Hp |].
  intros s t Hs.
  assert (is_Some (M !! s)) as HM.
  { apply not_eq_None_Some. rewrite <- (proj1 Hp). by rewrite Hs. }
  destruct (Hset s (Hks _ HM) HM) as (t' & Hs' & Ht').
  assert (t' = t) as -> by congruence.
  split; [done|]. by eapply partly_settled.
Qed.
End Resolve.

(** ** The edge scan: proofs *)

Section Scan.
Implicit Types (M : gmap N N) (L : N → N).

Lemma at_default_lab (s : gmap N N) x : (at_default s x).1 = lab s x.
Proof. unfold at_default, lab. by destruct (s !! x). Qed.

Lemma at_default_keeps_lab (s : gmap N N) x y : lab (at_default s x).2 y = lab s y.
Proof.
  unfold at_default, lab. destruct (s !! x) eqn:Hx; [done|]. simpl.
  destruct (decide (x = y)) as [->|Hne].
  - by rewrite lookup_insert_eq, Hx.
  - by rewrite lookup_insert_ne.
Qed.

Lemma at_default_known (s : gmap N N) x : is_Some (s !! x) → (at_default s x).2 = s.
Proof. intros [l Hl]. unfold at_default. by rewrite Hl. Qed.

Lemma kept_refl L (a1 a2 : list N) n : kept L a1 a2 n a1 a2 n.
Proof. split; intros p Hp; [|left]; by exists p. Qed.

Lemma kept_trans L (a1 a2 : list N) n (b1 b2 : list N) m (c1 c2 : list N) o :
  kept L a1 a2 n b1 b2 m → kept L b1 b2 m c1 c2 o → kept L a1 a2 n c1 c2 o.
Proof.
  intros [Ha Hb] [Ha' Hb']. split.
  - intros p Hp. destruct (Ha' p Hp) as (q & Hq & ->). by apply Ha.
  - intros q Hq. destruct (Hb q Hq) as [(p & Hp & Hpq)|?]; [|by right].
    destruct (Hb' p Hp) as [(r & Hr & Hpr)|Heq].
    + left. exists r. split; [done | congruence].
    + right. unfold edge_at in Hpq. by injection Hpq as -> ->.
Qed.

Lemma kept_ext L L' (a1 a2 : list N) n (b1 b2 : list N) m :
  (∀ x, L x = L' x) → kept L a1 a2 n b1 b2 m → kept L' a1 a2 n b1 b2 m.
Proof.
  intros HL [Ha Hb]. split; [done|].
  intros q Hq. destruct (Hb q Hq) as [?|?]; [by left | right; by rewrite <- !HL].
Qed.

(** One swap-remove of the edge at [i], whose endpoints share a label. *)
Lemma kept_swap_remove L (a1 a2 : list N) n i :
  (i ≤ n)%nat → (n < length a1)%nat → (n < length a2)%nat →
  L (a1 !!! i) = L (a2 !!! i) →
  kept L a1 a2 (S n) (<[i := a1 !!! n]> a1) (<[i := a2 !!! n]> a2) n.
Proof.
  intros Hi H1 H2 Heq. unfold kept, edge_at. split.
  - intros p Hp. destruct (decide (p = i)) as [->|Hne].
    + exists n. split; [lia|].
      by rewrite !list_lookup_total_insert_eq by lia.
    + exists p. split; [lia|].
      by rewrite !list_lookup_total_insert_ne.
  - intros q Hq. destruct (decide (q = i)) as [->|Hne]; [by right|].
    destruct (decide (q = n)) as [->|Hne'].
    + left. exists i. split; [lia|].
      by rewrite !list_lookup_total_insert_eq by lia.
    + left. exists q. split; [lia|].
      by rewrite !list_lookup_total_insert_ne.
Qed.

Lemma prune_stop i n (a1 a2 : list N) (s : gmap N N) i1 i2 :
  ¬ (i < n)%nat ∨ i1 ≠ i2 → prune i n a1 a2 s i1 i2 = (n, a1, a2, s, i1, i2).
Proof.
  intros H. destruct n as [|n]; [done|]. simpl.
  destruct H as [H|H].
  - by rewrite (bool_decide_eq_false_2 _ H), andb_false_r.
  - rewrite bool_decide_eq_false_2; [done | congruence].
Qed.

(** The pruning loop entered at a live position [i] with the labels of
    its edge. *)
Lemma prune_spec i : ∀ n (a1 a2 : list N) (s : gmap N N) i1 i2,
  (i < n)%nat → (n ≤ length a1)%nat → (n ≤ length a2)%nat →
  i1 = lab s (a1 !!! i) → i2 = lab s (a2 !!! i) →
  ∃ m b1 b2 s' j1 j2,
    prune i n a1 a2 s i1 i2 = (m, b1, b2, s', j1, j2) ∧
    (i ≤ m ≤ n)%nat ∧ length b1 = length a1 ∧ length b2 = length a2 ∧
    (∀ x, lab s' x = lab s x) ∧
    (∀ p, p ≠ i → b1 !!! p = a1 !!! p ∧ b2 !!! p = a2 !!! p) ∧
    ((i < m)%nat → j1 = lab s (b1 !!! i) ∧ j2 = lab s (b2 !!! i) ∧ j1 ≠ j2) ∧
    kept (lab s) a1 a2 n b1 b2 m ∧
    (closed s a1 a2 n → s' = s).
Proof.
  intros n. induction n as [|n IH]; intros a1 a2 s i1 i2 Hi H1 H2 E1 E2; [lia|].
  destruct (decide (i2 = i1)) as [Heq|Hne].
  2:{ rewrite prune_stop by (right; congruence).
      eexists _, _, _, _, _, _. split; [done|].
      split_and!; try done; try lia; apply kept_refl. }
  simpl. rewrite (bool_decide_eq_true_2 _ Heq), (bool_decide_eq_true_2 _ Hi). simpl.
  set (b1 := <[i := a1 !!! n]> a1). set (b2 := <[i := a2 !!! n]> a2).
  destruct (at_default s (b1 !!! i)) as [k1 s1] eqn:Hd1.
  destruct (at_default s1 (b2 !!! i)) as [k2 s2] eqn:Hd2.
  assert (k1 = lab s (b1 !!! i)) as Hk1.
  { by rewrite <- at_default_lab, Hd1. }
  assert (s1 = (at_default s (b1 !!! i)).2) as Hs1 by by rewrite Hd1.
  assert (s2 = (at_default s1 (b2 !!! i)).2) as Hs2 by by rewrite Hd2.
  assert (∀ x, lab s1 x = lab s x) as Hl1.
  { intros x. rewrite Hs1. apply at_default_keeps_lab. }
  assert (∀ x, lab s2 x = lab s x) as Hl2.
  { intros x. rewrite Hs2, at_default_keeps_lab. apply Hl1. }
  assert (k2 = lab s (b2 !!! i)) as Hk2.
  { by rewrite <- Hl1, <- at_default_lab, Hd2. }
  assert (length b1 = length a1) as Hb1 by apply length_insert.
  assert (length b2 = length a2) as Hb2 by apply length_insert.
  assert (kept (lab s) a1 a2 (S n) b1 b2 n) as Hkept.
  { apply kept_swap_remove; [lia..|congruence]. }
  assert (b1 !!! i = a1 !!! n ∧ b2 !!! i = a2 !!! n) as [Hbi1 Hbi2].
  { unfold b1, b2. by rewrite !list_lookup_total_insert_eq by lia. }
  assert (∀ p, p ≠ i → b1 !!! p = a1 !!! p ∧ b2 !!! p = a2 !!! p) as Hoff.
  { intros p Hp. unfold b1, b2. by rewrite !list_lookup_total_insert_ne. }
  assert (closed s a1 a2 (S n) → s2 = s) as Hclosed.
  { intros Hc. destruct (Hc n) as [Hc1 Hc2]; [lia|].
    assert (s1 = s) as ->.
    { rewrite Hs1, Hbi1. by apply at_default_known. }
    rewrite Hs2, Hbi2. by apply at_default_known. }
  destruct (decide (i < n)%nat) as [Hlt|Hge].
  - destruct (IH b1 b2 s2 k1 k2) as
      (m & c1 & c2 & s' & j1 & j2 & Hpr & Hm & Hc1 & Hc2 & Hl' & Hoff' & Hj & Hk' & Hcl');
      [lia.. | by rewrite Hl2 | by rewrite Hl2 |].
    exists m, c1, c2, s', j1, j2. split; [done|].
    split_and!; try lia.
    + intros x. by rewrite Hl', Hl2.
    + intros p Hp. destruct (Hoff' p Hp) as [-> ->]. by apply Hoff.
    + intros Hm'. destruct (Hj Hm') as (-> & -> & Hne). by rewrite !Hl2 in Hne |- *.
    + eapply kept_trans; [done|]. eapply kept_ext; [|done]. apply Hl2.
    + intros Hc. rewrite Hcl'; [by apply Hclosed|].
      rewrite (Hclosed Hc). intros p Hp.
      destruct (proj1 Hkept p Hp) as (q & Hq & Hpq).
      unfold edge_at in Hpq. injection Hpq as -> ->. by apply Hc.
  - rewrite prune_stop by (left; lia).
    exists n, b1, b2, s2, k1, k2. split; [done|].
    split_and!; try done; lia.
Qed.
Lemma closed_kept (s : gmap N N) L (a1 a2 : list N) n (b1 b2 : list N) m :
  kept L a1 a2 n b1 b2 m → closed s a1 a2 n → closed s b1 b2 m.
Proof.
  intros [Ha _] Hc p Hp. destruct (Ha p Hp) as (q & Hq & Hpq).
  unfold edge_at in Hpq. injection Hpq as -> ->. by apply Hc.
Qed.

Lemma scanned_ext L L' (a1 a2 : list N) i M :
  (∀ x, L x = L' x) → scanned L a1 a2 i M → scanned L' a1 a2 i M.
Proof.
  intros HL [Ha Hb]. split.
  - intros p Hp. rewrite <- !HL. by apply Ha.
  - intros s t Hs. destruct (Hb s t Hs) as (? & p & ? & Hp).
    split; [done|]. exists p. by rewrite <- !HL.
Qed.

Lemma record_merge_spec M lo hi :
  (∃ t, record_merge M lo hi !! hi = Some t ∧ t ≤ lo) ∧
  (∀ s t, M !! s = Some t → ∃ t', record_merge M lo hi !! s = Some t' ∧ t' ≤ t) ∧
  (∀ s t, record_merge M lo hi !! s = Some t → M !! s = Some t ∨ (s = hi ∧ t = lo)).
Proof.
  unfold record_merge. destruct (M !! hi) as [old|] eqn:Hhi.
  - case_bool_decide as Hlt.
    + split_and!.
      * exists lo. by rewrite lookup_insert_eq.
      * intros s t Hs. destruct (decide (s = hi)) as [->|Hne].
        -- exists lo. rewrite lookup_insert_eq. split; [done|].
           assert (t = old) as -> by congruence. lia.
        -- exists t. by rewrite lookup_insert_ne.
      * intros s t. destruct (decide (s = hi)) as [->|Hne].
        -- rewrite lookup_insert_eq. intros [= <-]. by right.
        -- rewrite lookup_insert_ne by done. by left.
    + split_and!.
      * exists old. split; [done | lia].
      * intros s t Hs. by exists t.
      * intros s t Hs. by left.
  - split_and!.
    + exists lo. by rewrite lookup_insert_eq.
    + intros s t Hs. exists t. split; [|done].
      rewrite lookup_insert_ne; [done | congruence].
    + intros s t. destruct (decide (s = hi)) as [->|Hne].
      * rewrite lookup_insert_eq. intros [= <-]. by right.
      * rewrite lookup_insert_ne by done. by left.
Qed.

(** Recording the edge at position [i], which joins the labels
    [lo < hi], extends what has been scanned by that position. *)
Lemma scanned_record L (a1 a2 : list N) i M lo hi :
  scanned L a1 a2 i M → lo < hi →
  (L (a1 !!! i) = lo ∧ L (a2 !!! i) = hi) ∨ (L (a1 !!! i) = hi ∧ L (a2 !!! i) = lo) →
  scanned L a1 a2 (S i) (record_merge M lo hi).
Proof.
  intros [Ha Hb] Hlt Hi.
  destruct (record_merge_spec M lo hi) as ((t0 & Ht0 & Hle0) & Hmono & Hinv).
  split.
  - intros p Hp. destruct (decide (p = i)) as [->|Hne].
    + assert (L (a1 !!! i) `max` L (a2 !!! i) = hi ∧
              L (a1 !!! i) `min` L (a2 !!! i) = lo) as [-> ->] by lia.
      split; [lia|]. by exists t0.
    + destruct (Ha p) as (Hd & t & Ht & Hle); [lia|].
      split; [done|]. destruct (Hmono _ _ Ht) as (t' & Ht' & Hle').
      exists t'. split; [done | lia].
  - intros s t Hs. destruct (Hinv _ _ Hs) as [Hold|[-> ->]].
    + destruct (Hb _ _ Hold) as (? & p & ? & ?). split; [done|].
      exists p. split; [lia | done].
    + split; [done|]. exists i. split; [lia|]. tauto.
Qed.

(** The scan loop from position [i] on. *)
Lemma scan_spec : ∀ d i st,
  (n st - i ≤ d)%nat → (i ≤ n st)%nat →
  (n st ≤ length (u1 st))%nat → (n st ≤ length (u2 st))%nat →
  scanned (lab (sccs st)) (u1 st) (u2 st) i (merge st) →
  (n (scan d i st) ≤ n st)%nat ∧
  length (u1 (scan d i st)) = length (u1 st) ∧
  length (u2 (scan d i st)) = length (u2 st) ∧
  (∀ x, lab (sccs (scan d i st)) x = lab (sccs st) x) ∧
  kept (lab (sccs st)) (u1 st) (u2 st) (n st)
    (u1 (scan d i st)) (u2 (scan d i st)) (n (scan d i st)) ∧
  scanned (lab (sccs st)) (u1 (scan d i st)) (u2 (scan d i st))
    (n (scan d i st)) (merge (scan d i st)) ∧
  (closed (sccs st) (u1 st) (u2 st) (n st) → sccs (scan d i st) = sccs st).
Proof.
  induction d as [|d IH]; intros i st Hd Hi H1 H2 Hsc.
  { simpl. assert (i = n st) as -> by lia.
    split_and!; try done. apply kept_refl. }
  simpl. case_bool_decide as Hlt.
  2:{ assert (i = n st) as -> by lia.
      split_and!; try done. apply kept_refl. }
  destruct st as [a1 a2 m s M]; simpl in *.
  destruct (at_default s (a1 !!! i)) as [i1 s1] eqn:Hd1.
  destruct (at_default s1 (a2 !!! i)) as [i2 s2] eqn:Hd2.
  assert (i1 = lab s (a1 !!! i)) as Hi1 by by rewrite <- at_default_lab, Hd1.
  assert (s1 = (at_default s (a1 !!! i)).2) as Hs1 by by rewrite Hd1.
  assert (s2 = (at_default s1 (a2 !!! i)).2) as Hs2 by by rewrite Hd2.
  assert (∀ x, lab s1 x = lab s x) as Hl1.
  { intros x. rewrite Hs1. apply at_default_keeps_lab. }
  assert (∀ x, lab s2 x = lab s x) as Hl2.
  { intros x. rewrite Hs2, at_default_keeps_lab. apply Hl1. }
  assert (i2 = lab s (a2 !!! i)) as Hi2 by by rewrite <- Hl1, <- at_default_lab, Hd2.
  assert (closed s a1 a2 m → s2 = s) as Hcl2.
  { intros Hc. destruct (Hc i Hlt) as [Hc1 Hc2].
    assert (s1 = s) as -> by (rewrite Hs1; by apply at_default_known).
    rewrite Hs2. by apply at_default_known. }
  destruct (prune_spec i m a1 a2 s2 i1 i2) as
    (m' & b1 & b2 & s' & j1 & j2 & -> & Hm & Hb1 & Hb2 & Hl' & Hoff & Hj & Hk & Hcl');
    [done.. | by rewrite Hl2 | by rewrite Hl2 |].
  assert (∀ x, lab s' x = lab s x) as Hls'.
  { intros x. by rewrite Hl', Hl2. }
  assert (kept (lab s) a1 a2 m b1 b2 m') as Hkept.
  { eapply kept_ext; [|done]. apply Hl2. }
  assert (closed s a1 a2 m → s' = s) as Hcls.
  { intros Hc. rewrite Hcl'; [by apply Hcl2|]. by rewrite (Hcl2 Hc). }
  assert (scanned (lab s) b1 b2 i M) as Hsc'.
  { destruct Hsc as [Ha Hb]. split.
    - intros p Hp. destruct (Hoff p) as [-> ->]; [lia|]. by apply Ha.
    - intros x t Hx. destruct (Hb x t Hx) as (? & p & Hp & Hpp).
      split; [done|]. exists p. split; [done|].
      destruct (Hoff p) as [-> ->]; [lia | done]. }
  case_bool_decide as Hbrk.
  { subst m'. simpl. split_and!; try done; lia. }
  destruct Hj as (Hj1 & Hj2 & Hne); [lia|]. rewrite !Hl2 in Hj1, Hj2.
  set (o := if bool_decide (j2 < j1) then (j2, j1) else (j1, j2)).
  assert (o.1 < o.2 ∧
          ((lab s (b1 !!! i) = o.1 ∧ lab s (b2 !!! i) = o.2) ∨
           (lab s (b1 !!! i) = o.2 ∧ lab s (b2 !!! i) = o.1))) as [Hlo Hor].
  { unfold o. case_bool_decide; simpl; (split; [lia|]); rewrite <- Hj1, <- Hj2; tauto. }
  destruct o as [lo hi]; simpl in Hlo, Hor.
  specialize (IH (S i) (ScanState b1 b2 m' s' (record_merge M lo hi))).
  simpl in IH.
  destruct IH as (Hn & Hlen1 & Hlen2 & Hlab & Hkept' & Hscan & Hclosed); try lia.
  { eapply scanned_ext; [intros x; symmetry; apply Hls'|].
    by apply scanned_record. }
  split_and!; try lia.
  - intros x. by rewrite Hlab.
  - eapply kept_trans; [done|]. eapply kept_ext; [|done]. apply Hls'.
  - eapply scanned_ext; [|done]. apply Hls'.
  - intros Hc. rewrite Hclosed; [by apply Hcls|].
    rewrite (Hcls Hc). by eapply closed_kept.
Qed.
Lemma prune_le i : ∀ n (a1 a2 : list N) (s : gmap N N) i1 i2,
  ((prune i n a1 a2 s i1 i2).1.1.1.1.1 ≤ n)%nat.
Proof.
  intros n. induction n as [|n IH]; intros a1 a2 s i1 i2; [done|].
  simpl. destruct (bool_decide (i2 = i1) && bool_decide (i < S n)%nat); [|done].
  destruct (at_default s _) as [k1 s1]. destruct (at_default s1 _) as [k2 s2].
  specialize (IH (<[i:=a1 !!! n]> a1) (<[i:=a2 !!! n]> a2) s2 k1 k2). lia.
Qed.

(** Any bound [d ≥ n - i] on the rounds gives the same scan: the loop
    has ended before the bound is used up. *)
Lemma scan_rounds_enough : ∀ d d' i st,
  (n st - i ≤ d)%nat → (n st - i ≤ d')%nat → scan d i st = scan d' i st.
Proof.
  induction d as [|d IH]; intros d' i st Hd Hd'.
  { destruct d' as [|d']; [done|]. simpl.
    rewrite bool_decide_eq_false_2; [done | lia]. }
  destruct d' as [|d'].
  { simpl. rewrite bool_decide_eq_false_2; [done | lia]. }
  simpl. case_bool_decide as Hlt; [|done].
  destruct (at_default (sccs st) _) as [i1 s1].
  destruct (at_default s1 _) as [i2 s2].
  pose proof (prune_le i (n st) (u1 st) (u2 st) s2 i1 i2) as Hle.
  destruct (prune i (n st) (u1 st) (u2 st) s2 i1 i2) as [[[[[m b1] b2] s'] j1] j2].
  simpl in Hle. case_bool_decide; [done|].
  destruct (if bool_decide (j2 < j1) then (j2, j1) else (j1, j2)) as [lo hi].
  apply IH; simpl; lia.
Qed.

Lemma known_lab (s : gmap N N) x : is_Some (s !! x) → s !! x = Some (lab s x).
Proof. intros [l Hl]. unfold lab. by rewrite Hl. Qed.

(** The scan of one iteration, from a ready state. *)
Lemma scan_edges_spec e : ready e →
  ready (ScanState (u1 (scan_edges e)) (u2 (scan_edges e)) (n (scan_edges e))
           (sccs (scan_edges e)) ∅) ∧
  sccs (scan_edges e) = sccs e ∧
  (n (scan_edges e) ≤ n e)%nat ∧
  length (u1 (scan_edges e)) = length (u1 e) ∧
  length (u2 (scan_edges e)) = length (u2 e) ∧
  kept (lab (sccs e)) (u1 e) (u2 e) (n e)
    (u1 (scan_edges e)) (u2 (scan_edges e)) (n (scan_edges e)) ∧
  scanned (lab (sccs e)) (u1 (scan_edges e)) (u2 (scan_edges e))
    (n (scan_edges e)) (merge (scan_edges e)).
Proof.
  intros (H1 & H2 & Hc & HM). unfold scan_edges.
  destruct (scan_spec (n e) 0 e) as (Hn & Hl1 & Hl2 & Hlab & Hkept & Hsc & Hcl);
    [lia..| |].
  { rewrite HM. split; [intros p Hp; lia|]. intros s t Hs.
    by rewrite lookup_empty in Hs. }
  specialize (Hcl Hc). split_and!; try done.
  unfold ready. simpl. rewrite Hcl. split_and!; try done; try lia.
  by eapply closed_kept.
Qed.

Lemma scanned_downward L (a1 a2 : list N) i M : scanned L a1 a2 i M → downward M.
Proof. intros [_ Hb] s t Hs. by destruct (Hb s t Hs). Qed.

(** Every source of the scanned merge set is the label of a user. *)
Lemma scanned_member (s : gmap N N) (a1 a2 : list N) i M c t :
  scanned (lab s) a1 a2 i M → closed s a1 a2 i → M !! c = Some t →
  ∃ x, s !! x = Some c.
Proof.
  intros [_ Hb] Hc Hs. destruct (Hb c t Hs) as (_ & p & Hp & Hor).
  destruct (Hc p Hp) as [H1 H2]. apply known_lab in H1, H2.
  destruct Hor as [[_ <-]|[<- _]]; eauto.
Qed.
End Scan.

(** ** Relabeling: proofs *)

Section Relabel.
Implicit Types (M : gmap N N) (es : list (N * N)).

(** The first version, over a list of entries with distinct users that
    are all in the table with the label listed. *)
Lemma relabel_all_spec urm M : ∀ es (sccs : gmap N N) (s2 : list (N * N)) k,
  NoDup es.*1 → (∀ x l, (x, l) ∈ es → sccs !! x = Some l) →
  ∃ sccs',
    relabel_all urm M es sccs s2 k =
      (sccs',
       if urm then reverse ((λ e, (relabel M e.2, e.1)) <$> es) ++ s2 else s2,
       Nat.iter (hits M es) incr64 k) ∧
    ∀ x, sccs' !! x =
         if decide (x ∈ es.*1) then relabel M <$> sccs !! x else sccs !! x.
Proof.
  unfold relabel_all. induction es as [|[x l] es IH]; intros sccs s2 k Hnd Hin.
  { exists sccs. simpl. split; [by destruct urm|].
    intros y. destruct (decide (y ∈ [])) as [H|H]; [by apply elem_of_nil in H | done]. }
  rewrite fmap_cons in Hnd. apply NoDup_cons in Hnd as [Hx Hnd].
  assert (sccs !! x = Some l) as Hxl by (apply Hin; left).
  simpl. unfold hits. rewrite filter_cons. simpl.
  destruct (M !! l) as [t|] eqn:Hl.
  - assert (relabel M l = t) as Hrl by (unfold relabel; by rewrite Hl).
    destruct (IH (<[x := t]> sccs)
                (if urm then (t, x) :: s2 else s2) (incr64 k) Hnd)
      as (sccs' & -> & Hlook).
    { intros y l' Hy. rewrite lookup_insert_ne; [apply Hin; by right|].
      intros ->. apply Hx. apply list_elem_of_fmap. by exists (y, l'). }
    exists sccs'. split.
    + rewrite decide_True by by eexists. cbn [length].
      rewrite Nat.iter_succ_r. unfold hits.
      f_equal. f_equal. destruct urm; [|done].
      rewrite reverse_cons, <- app_assoc. simpl. by rewrite Hrl.
    + intros y. rewrite Hlook. destruct (decide (y = x)) as [->|Hne].
      * rewrite decide_False by done. rewrite decide_True by left.
        rewrite lookup_insert_eq, Hxl. simpl. by rewrite Hrl.
      * rewrite lookup_insert_ne by done.
        destruct (decide (y ∈ es.*1)) as [Hy|Hy].
        -- rewrite decide_True; [done | by right].
        -- rewrite decide_False; [done|]. by intros [?|?]%elem_of_cons.
  - assert (relabel M l = l) as Hrl by (unfold relabel; by rewrite Hl).
    destruct (IH sccs (if urm then (l, x) :: s2 else s2) k Hnd)
      as (sccs' & -> & Hlook).
    { intros y l' Hy. apply Hin. by right. }
    exists sccs'. split.
    + rewrite decide_False by by intros [? ?]. unfold hits. f_equal. f_equal.
      destruct urm; [|done].
      rewrite reverse_cons, <- app_assoc. simpl. by rewrite Hrl.
    + intros y. rewrite Hlook. destruct (decide (y = x)) as [->|Hne].
      * rewrite decide_False by done. rewrite decide_True by left.
        rewrite Hxl. simpl. by rewrite Hrl.
      * destruct (decide (y ∈ es.*1)) as [Hy|Hy].
        -- rewrite decide_True; [done | by right].
        -- rewrite decide_False; [done|]. by intros [?|?]%elem_of_cons.
Qed.
Lemma hits_perm M es es' : es ≡ₚ es' → hits M es = hits M es'.
Proof. intros H. unfold hits. by rewrite H. Qed.

(** The first version over the whole table, in any order, with an empty
    reverse map: every label is relabeled, the hits are counted, and with
    [use_reverse_map] the reverse map is built for the new table. *)
Lemma relabel_all_table urm M es (sccs : gmap N N) k :
  es ≡ₚ map_to_list sccs →
  ∃ s2', relabel_all urm M es sccs [] k =
           (relabel M <$> sccs, s2', Nat.iter (hits M (map_to_list sccs)) incr64 k) ∧
         (if urm then indexed (relabel M <$> sccs) s2' else s2' = []).
Proof.
  intros Hp.
  assert (NoDup es.*1) as Hnd by (rewrite Hp; apply NoDup_fst_map_to_list).
  assert (∀ x l, (x, l) ∈ es ↔ sccs !! x = Some l) as Hin.
  { intros x l. rewrite Hp. apply elem_of_map_to_list. }
  destruct (relabel_all_spec urm M es sccs [] k Hnd) as (sccs' & Hr & Hlook).
  { intros x l. apply Hin. }
  assert (sccs' = relabel M <$> sccs) as ->.
  { apply map_eq. intros x. rewrite Hlook, lookup_fmap.
    case_decide as Hx; [done|].
    destruct (sccs !! x) as [l|] eqn:Hl; [|done].
    exfalso. apply Hx. apply list_elem_of_fmap. exists (x, l).
    split; [done | by apply Hin]. }
  rewrite Hr, (hits_perm _ _ _ Hp). eexists. split; [done|].
  destruct urm; [|done]. rewrite app_nil_r. split.
  - rewrite reverse_Permutation. apply (NoDup_fmap_1 snd).
    rewrite <- list_fmap_compose. exact Hnd.
  - intros l x. rewrite elem_of_reverse, list_elem_of_fmap, lookup_fmap. split.
    + intros ([x' l'] & [= -> ->] & He). apply Hin in He. by rewrite He.
    + destruct (sccs !! x) as [l'|] eqn:Hl; [|done]. intros [= <-].
      exists (x, l'). split; [done | by apply Hin].
Qed.

Lemma indexed_perm (sccs : gmap N N) (l l' : list (N * N)) :
  l ≡ₚ l' → indexed sccs l → indexed sccs l'.
Proof.
  intros Hp [Hnd Hin]. split; [by rewrite <- Hp|].
  intros c x. rewrite <- Hp. apply Hin.
Qed.

(** One round of the [do]-[while] loop keeps the reverse map in step with
    the table and takes one entry from under [first]. *)
Lemma indexed_move (sccs : gmap N N) (l : list (N * N)) i s t x :
  indexed sccs l → l !! i = Some (s, x) → s ≠ t →
  indexed (<[x := t]> sccs) ((t, x) :: delete i l) ∧
  length (filter (λ e, e.1 = s) l) =
    S (length (filter (λ e, e.1 = s) ((t, x) :: delete i l))) ∧
  length ((t, x) :: delete i l) = length l.
Proof.
  intros Hidx Hi Hne.
  pose proof (delete_Permutation l i (s, x) Hi) as Hp.
  apply (indexed_perm _ _ _ Hp) in Hidx as Hidx'.
  destruct Hidx' as [[Hnotin Hnd]%NoDup_cons Hin].
  split_and!.
  - split.
    + apply NoDup_cons. split; [|done].
      intros Ht. assert ((t, x) ∈ (s, x) :: delete i l) as Ht' by by right.
      apply Hin in Ht'. assert ((s, x) ∈ (s, x) :: delete i l) as Hs' by left.
      apply Hin in Hs'. congruence.
    + intros c y. rewrite elem_of_cons. destruct (decide (y = x)) as [->|Hy].
      * rewrite lookup_insert_eq. split.
        -- intros [[= -> ]|Hc]; [done|].
           assert ((c, x) ∈ (s, x) :: delete i l) as Hc' by by right.
           apply Hin in Hc'. assert ((s, x) ∈ (s, x) :: delete i l) as Hs' by left.
           apply Hin in Hs'. assert (c = s) as -> by congruence. done.
        -- intros [= ->]. by left.
      * rewrite lookup_insert_ne by done. rewrite <- Hin, elem_of_cons.
        split; intros [[=]|?]; try done; by right.
  - assert (length (filter (λ e : N * N, e.1 = s) ((s, x) :: delete i l)) =
            length (filter (λ e : N * N, e.1 = s) l)) as <- by by rewrite <- Hp.
    rewrite !filter_cons. simpl.
    rewrite decide_True by done. rewrite decide_False by done. done.
  - assert (length ((s, x) :: delete i l) = length l) as <- by by rewrite <- Hp.
    done.
Qed.

Lemma mm_find_Some (l : list (N * N)) s it :
  mm_find s l = Some it → l !! it.1 = Some (s, it.2.2) ∧ it.2.1 = s.
Proof.
  destruct it as [i [c x]]. unfold mm_find.
  intros (Hi & Hc & _)%list_find_Some. simpl in *. by subst.
Qed.

Lemma mm_find_None (l : list (N * N)) s :
  mm_find s l = None → length (filter (λ e, e.1 = s) l) = 0%nat.
Proof.
  unfold mm_find. intros H%list_find_None.
  induction l as [|e l IH]; [done|].
  apply Forall_cons in H as [He H]. rewrite filter_cons.
  rewrite decide_False by done. auto.
Qed.

Lemma rehome_unfold fuel s t it (sccs : gmap N N) (l : list (N * N)) k :
  rehome (S fuel) s t it sccs l k =
  match mm_find s ((t, it.2.2) :: delete it.1 l) with
  | Some it' =>
      rehome fuel s t it' (<[it.2.2 := t]> sccs) ((t, it.2.2) :: delete it.1 l) (incr64 k)
  | None => Some (<[it.2.2 := t]> sccs, (t, it.2.2) :: delete it.1 l, incr64 k)
  end.
Proof. done. Qed.

(** The improved version for one merge entry. *)
Lemma rehome_spec s t : s ≠ t →
  ∀ fuel it (sccs : gmap N N) (l : list (N * N)) k,
  indexed sccs l → mm_find s l = Some it →
  (length (filter (λ e, e.1 = s) l) ≤ fuel)%nat →
  ∃ sccs' l',
    rehome fuel s t it sccs l k =
      Some (sccs', l', Nat.iter (length (filter (λ e, e.1 = s) l)) incr64 k) ∧
    indexed sccs' l' ∧ length l' = length l ∧
    ∀ y, sccs' !! y = (λ c, if decide (c = s) then t else c) <$> sccs !! y.
Proof.
  intros Hne. induction fuel as [|fuel IH]; intros it sccs l k Hidx Hit Hfuel.
  { apply mm_find_Some in Hit as [Hit _].
    assert ((s, it.2.2) ∈ filter (λ e : N * N, e.1 = s) l) as Hin.
    { apply list_elem_of_filter. split; [done|]. by eapply list_elem_of_lookup_2. }
    destruct (filter (λ e : N * N, e.1 = s) l); [by apply elem_of_nil in Hin|].
    simpl in Hfuel. lia. }
  apply mm_find_Some in Hit as [Hit _].
  destruct (indexed_move sccs l it.1 s t it.2.2 Hidx Hit Hne) as (Hidx1 & Hcnt & Hlen).
  assert (sccs !! it.2.2 = Some s) as Hx.
  { apply Hidx. by eapply list_elem_of_lookup_2. }
  rewrite rehome_unfold, Hcnt, Nat.iter_succ_r.
  destruct (mm_find s ((t, it.2.2) :: delete it.1 l)) as [it'|] eqn:Hfind.
  - destruct (IH it' _ _ (incr64 k) Hidx1 Hfind) as (sccs' & l' & -> & Hidx' & Hlen' & Hlook);
      [lia|].
    exists sccs', l'. split_and!; [done | done | lia |].
    intros y. rewrite Hlook. destruct (decide (y = it.2.2)) as [->|Hy].
    + rewrite lookup_insert_eq, Hx. simpl.
      rewrite decide_False by done. by rewrite decide_True.
    + by rewrite lookup_insert_ne.
  - rewrite (mm_find_None _ _ Hfind). simpl.
    eexists _, _. split_and!; [done | done | done |].
    intros y. destruct (decide (y = it.2.2)) as [->|Hy].
    + rewrite lookup_insert_eq, Hx. simpl. by rewrite decide_True.
    + rewrite lookup_insert_ne by done.
      destruct (sccs !! y) as [c|] eqn:Hc; [|done]. simpl.
      case_decide as Hcs; [|done]. subst c. exfalso.
      assert ((s, y) ∈ (t, it.2.2) :: delete it.1 l) as Hin.
      { apply Hidx1. by rewrite lookup_insert_ne. }
      apply mm_find_None in Hfind.
      assert ((s, y) ∈ filter (λ e : N * N, e.1 = s) ((t, it.2.2) :: delete it.1 l)) as Hin'.
      { by apply list_elem_of_filter. }
      apply nil_length_inv in Hfind. rewrite Hfind in Hin'.
      by apply elem_of_nil in Hin'.
Qed.
Lemma filter_keys_nil (l : list (N * N)) :
  length (filter (λ e, e.1 ∈ ([] : list N)) l) = 0%nat.
Proof.
  induction l as [|e l IH]; [done|]. rewrite filter_cons.
  rewrite decide_False; [done|]. apply not_elem_of_nil.
Qed.

Lemma filter_keys_cons (l : list (N * N)) s ks : s ∉ ks →
  length (filter (λ e, e.1 ∈ s :: ks) l) =
  (length (filter (λ e, e.1 = s) l) + length (filter (λ e, e.1 ∈ ks) l))%nat.
Proof.
  intros Hs. induction l as [|e l IH]; [done|]. rewrite !filter_cons.
  destruct (decide (e.1 = s)) as [He|He].
  - rewrite decide_True by (rewrite He; left).
    rewrite decide_False by by rewrite He. simpl. by rewrite IH.
  - destruct (decide (e.1 ∈ ks)) as [Hk|Hk].
    + rewrite decide_True by by right. simpl. rewrite IH. lia.
    + rewrite decide_False; [done|]. by intros [?|?]%elem_of_cons.
Qed.

Lemma relabel_indexed_cons s t es (sccs : gmap N N) (l : list (N * N)) k err :
  relabel_indexed ((s, t) :: es) sccs l k err =
  match mm_find s l with
  | None => Some (sccs, l, 0, err ++ [Inconsistent s])
  | Some it =>
      '(sccs, l, k) ← rehome (length l) s t it sccs l k;
      relabel_indexed es sccs l k err
  end.
Proof. done. Qed.

(** The improved version over a list of merge entries with distinct
    sources, targets that are no sources, and a user under every source:
    no source is found empty, and table and reverse map change as by the
    first version. *)
Lemma relabel_indexed_spec : ∀ es (sccs : gmap N N) (l : list (N * N)) k err,
  NoDup es.*1 →
  (∀ s t, (s, t) ∈ es → s ≠ t ∧ (t ∉ es.*1) ∧ ∃ x, sccs !! x = Some s) →
  indexed sccs l →
  ∃ sccs' l',
    relabel_indexed es sccs l k err =
      Some (sccs', l',
            Nat.iter (length (filter (λ e, e.1 ∈ es.*1) l)) incr64 k, err) ∧
    indexed sccs' l' ∧ length l' = length l ∧
    ∀ y, sccs' !! y = relabel (list_to_map es) <$> sccs !! y.
Proof.
  induction es as [|[s t] es IH]; intros sccs l k err Hnd Hes Hidx.
  { exists sccs, l. simpl. rewrite filter_keys_nil. simpl.
    split_and!; try done. intros y. by destruct (sccs !! y). }
  rewrite fmap_cons in Hnd. apply NoDup_cons in Hnd as [Hs Hnd]. simpl in Hs.
  destruct (Hes s t) as (Hne & Ht & x & Hx); [left|].
  rewrite fmap_cons in Ht. simpl in Ht.
  rewrite relabel_indexed_cons.
  destruct (mm_find s l) as [it|] eqn:Hfind.
  2:{ exfalso. apply mm_find_None in Hfind. apply nil_length_inv in Hfind.
      assert ((s, x) ∈ filter (λ e : N * N, e.1 = s) l) as Hin.
      { apply list_elem_of_filter. split; [done | by apply Hidx]. }
      rewrite Hfind in Hin. by apply elem_of_nil in Hin. }
  destruct (rehome_spec s t Hne (length l) it sccs l k Hidx Hfind)
    as (sccs1 & l1 & -> & Hidx1 & Hlen1 & Hlook1); [apply length_filter|].
  simpl.
  destruct (IH sccs1 l1 (Nat.iter (length (filter (λ e : N * N, e.1 = s) l)) incr64 k)
              err Hnd) as (sccs' & l' & -> & Hidx' & Hlen' & Hlook'); [|done|].
  { intros s' t' Hin. destruct (Hes s' t') as (? & Ht' & y & Hy); [by right|].
    split_and!; [done| |].
    - intros ?. apply Ht'. simpl. by right.
    - exists y. rewrite Hlook1, Hy. simpl. rewrite decide_False; [done|].
      intros ->. apply Hs. apply list_elem_of_fmap. by exists (s, t'). }
  exists sccs', l'. split_and!; [|done|lia|].
  - f_equal. f_equal.
    rewrite (filter_keys_cons _ _ _ Hs), Nat.add_comm, Nat.iter_add.
    assert (length (filter (λ e : N * N, e.1 ∈ es.*1) l1) =
            length (filter (λ e : N * N, e.1 ∈ es.*1) l)) as ->; [|done].
    apply Permutation_length, NoDup_Permutation.
    + apply NoDup_filter, Hidx1.
    + apply NoDup_filter, Hidx.
    + intros [c y]. rewrite !list_elem_of_filter. simpl.
      destruct Hidx1 as [_ ->], Hidx as [_ ->]. rewrite Hlook1.
      split; intros [Hc Hy]; (split; [done|]).
      * destruct (sccs !! y) as [c'|]; [|done]. simpl in Hy.
        case_decide; [|done]. injection Hy as <-. exfalso. apply Ht. by right.
      * rewrite Hy. simpl. rewrite decide_False; [done|]. by intros ->.
  - intros y. rewrite Hlook', Hlook1. destruct (sccs !! y) as [c|]; [|done].
    simpl. f_equal. unfold relabel. case_decide as Hc.
    + subst c. rewrite lookup_insert_eq. simpl.
      rewrite (not_elem_of_list_to_map_1 _ t); [done|].
      intros ?. apply Ht. by right.
    + by rewrite lookup_insert_ne.
Qed.
(** The entries of the reverse map under a source are as many as the
    entries of the table with a source as label. *)
Lemma hits_indexed M (ks : list N) (sccs : gmap N N) (l : list (N * N)) :
  indexed sccs l → (∀ c, c ∈ ks ↔ is_Some (M !! c)) →
  length (filter (λ e, e.1 ∈ ks) l) = hits M (map_to_list sccs).
Proof.
  intros [Hnd Hin] Hks. unfold hits.
  rewrite <- (length_fmap (λ e : N * N, (e.2, e.1))
                (filter (λ e : N * N, is_Some (M !! e.2)) (map_to_list sccs))).
  apply Permutation_length, NoDup_Permutation.
  - by apply NoDup_filter.
  - apply NoDup_fmap_2_strong.
    + intros [x c] [x' c'] _ _ [= -> ->]. done.
    + apply NoDup_filter, NoDup_map_to_list.
  - intros [c y]. rewrite list_elem_of_filter, list_elem_of_fmap, Hin, Hks. simpl.
    split.
    + intros [Hc Hy]. exists (y, c). split; [done|].
      apply list_elem_of_filter. split; [done | by apply elem_of_map_to_list].
    + intros ([y' c'] & [= -> ->] & [Hc Hy]%list_elem_of_filter).
      split; [done | by apply elem_of_map_to_list].
Qed.

(** The improved version over a resolved merge set, in any order. *)
Lemma relabel_indexed_table M es (sccs : gmap N N) (l : list (N * N)) k err :
  es ≡ₚ map_to_list M →
  (∀ s t, M !! s = Some t → s ≠ t ∧ M !! t = None ∧ ∃ x, sccs !! x = Some s) →
  indexed sccs l →
  ∃ l', relabel_indexed es sccs l k err =
          Some (relabel M <$> sccs, l',
                Nat.iter (hits M (map_to_list sccs)) incr64 k, err) ∧
        indexed (relabel M <$> sccs) l' ∧ length l' = length l.
Proof.
  intros Hp HM Hidx.
  assert (NoDup es.*1) as Hnd by (rewrite Hp; apply NoDup_fst_map_to_list).
  assert (∀ s t, (s, t) ∈ es ↔ M !! s = Some t) as Hin.
  { intros s t. rewrite Hp. apply elem_of_map_to_list. }
  assert (∀ c, c ∈ es.*1 ↔ is_Some (M !! c)) as Hks.
  { intros c. rewrite list_elem_of_fmap. split.
    - intros ([c' t] & -> & He). apply Hin in He. by eexists.
    - intros [t Ht]. exists (c, t). split; [done | by apply Hin]. }
  assert (list_to_map es = M) as HMes.
  { rewrite (list_to_map_proper es (map_to_list M)) by done.
    apply list_to_map_to_list. }
  destruct (relabel_indexed_spec es sccs l k err Hnd) as (sccs' & l' & Hr & Hidx' & Hlen & Hlook);
    [|done|].
  { intros s t Hst%Hin. destruct (HM s t Hst) as (? & Ht & ?).
    split_and!; [done| |done]. rewrite Hks, Ht. by intros [? ?]. }
  assert (sccs' = relabel M <$> sccs) as ->.
  { apply map_eq. intros y. by rewrite Hlook, HMes, lookup_fmap. }
  exists l'. rewrite Hr, (hits_indexed M es.*1 sccs l) by done. done.
Qed.
End Relabel.

(** ** One iteration *)

Section Iteration.
Variable order : gmap N N → list (N * N).
Hypothesis order_perm : ∀ m, order m ≡ₚ map_to_list m.

Lemma order_keys (M : gmap N N) s : is_Some (M !! s) → s ∈ (order M).*1.
Proof.
  intros [t Ht]. apply list_elem_of_fmap. exists (s, t). split; [done|].
  rewrite order_perm. by apply elem_of_map_to_list.
Qed.

Lemma iteration_converged urm st :
  merge (scan_edges (edges st)) = ∅ →
  iteration order urm st =
    Some (CONVERGED, LoopState (scan_edges (edges st)) (sccs2 st) (j st) (k st) (err st)).
Proof.
  intros HM. unfold iteration. rewrite HM, map_size_empty.
  by rewrite bool_decide_eq_true_2.
Qed.

(** A round with a merge set that is not empty: the chains resolve, the
    table is relabeled through the resolved set in either version, and
    the round ends at [k == 0] or goes on. *)
Lemma iteration_running urm st :
  ready (edges st) → index_ok st →
  merge (scan_edges (edges st)) ≠ ∅ →
  ∃ m s2',
    resolve (order (merge (scan_edges (edges st)))).*1
      (merge (scan_edges (edges st))) = Some m ∧
    (∀ s, m !! s = None ↔ merge (scan_edges (edges st)) !! s = None) ∧
    (∀ s t, m !! s = Some t →
       m !! t = None ∧ reaches (merge (scan_edges (edges st))) s t) ∧
    iteration order urm st =
      Some (if bool_decide
                 (Nat.iter (hits m (map_to_list (sccs (edges st)))) incr64 (k st) = 0)
            then (ERROR,
                  LoopState
                    (ScanState (u1 (scan_edges (edges st))) (u2 (scan_edges (edges st)))
                       (n (scan_edges (edges st)))
                       (relabel m <$> sccs (edges st)) m)
                    s2' 0
                    (Nat.iter (hits m (map_to_list (sccs (edges st)))) incr64 (k st))
                    (err st))
            else (RUNNING,
                  LoopState
                    (ScanState (u1 (scan_edges (edges st))) (u2 (scan_edges (edges st)))
                       (n (scan_edges (edges st)))
                       (relabel m <$> sccs (edges st)) ∅)
                    s2' (incr32 (j st)) 0 (err st))) ∧
    (s2' = [] ∨ indexed (relabel m <$> sccs (edges st)) s2') ∧
    (sccs2 st = [] → urm = false → s2' = []).
Proof.
  intros Hready Hidx HM.
  destruct (scan_edges_spec _ Hready) as (Hready' & Hsccs & _ & _ & _ & Hkept & Hsc).
  pose proof (scanned_downward _ _ _ _ _ Hsc) as Hdown.
  destruct (resolve_correct _ (order (merge (scan_edges (edges st)))).*1 Hdown)
    as (m & Hres & Hdom & Hm); [apply order_keys|].
  unfold iteration. rewrite bool_decide_eq_false_2 by by rewrite map_size_empty_iff.
  rewrite Hres, Hsccs. simpl.
  case_bool_decide as Hlen.
  - apply nil_length_inv in Hlen.
    destruct (relabel_all_table urm m (order (sccs (edges st))) (sccs (edges st)) (k st))
      as (s2' & Hr & Hs2'); [apply order_perm|].
    rewrite Hlen, Hr. simpl. exists m, s2'.
    split_and!; [done..| | |].
    + by case_bool_decide.
    + destruct urm; [by right | by left].
    + intros _ ->. done.
  - destruct Hidx as [Hnil|Hidx]; [by rewrite Hnil in Hlen|].
    destruct (relabel_indexed_table m (order m) (sccs (edges st)) (sccs2 st) (k st) (err st))
      as (s2' & Hr & Hidx' & Hlen'); [apply order_perm| |done|].
    { intros s t Hst. destruct (Hm s t Hst) as [Ht Hreach].
      split_and!; [|done|].
      - apply (reaches_lt _ _ _ Hdown) in Hreach. lia.
      - destruct (merge (scan_edges (edges st)) !! s) as [t0|] eqn:Hs.
        2:{ apply Hdom in Hs. congruence. }
        destruct Hready' as (_ & _ & Hcl & _). simpl in Hcl. rewrite Hsccs in Hcl.
        by eapply scanned_member. }
    rewrite Hr. simpl. exists m, s2'.
    split_and!; [done..| | |].
    + by case_bool_decide.
    + by right.
    + intros Hnil. by rewrite Hnil in Hlen.
Qed.
End Iteration.

(** ** The loop *)

Section Loop.
Variable order : gmap N N → list (N * N).
Hypothesis order_perm : ∀ m, order m ≡ₚ map_to_list m.

Lemma add_user_lookup (s : gmap N N) x y :
  (∀ z l, s !! z = Some l → l = z) →
  add_user s x !! y = if decide (y = x) then Some x else s !! y.
Proof.
  intros Hself. unfold add_user.
  destruct (s !! x) as [l|] eqn:Hx; case_decide as Hy; subst; simpl.
  - by rewrite Hx, (Hself _ _ Hx).
  - done.
  - by rewrite lookup_insert_eq.
  - by rewrite lookup_insert_ne.
Qed.

(** "1. just get all users": exactly the endpoints, each its own scc. *)
Lemma get_users_spec (a1 a2 : list N) m :
  closed (get_users a1 a2 m) a1 a2 m ∧
  ∀ x l, get_users a1 a2 m !! x = Some l →
    l = x ∧ ∃ p, (p < m)%nat ∧ (x = a1 !!! p ∨ x = a2 !!! p).
Proof.
  unfold get_users. induction m as [|m [IHc IHl]].
  { split; [intros p Hp; lia|]. intros x l. simpl. by rewrite lookup_empty. }
  rewrite seq_S, foldl_app. simpl.
  set (s := foldl _ ∅ (seq 0 m)) in *.
  assert (∀ y l, s !! y = Some l → l = y) as Hself by (intros y l Hy; by apply IHl).
  assert (∀ y l, add_user s (a1 !!! m) !! y = Some l → l = y) as Hself'.
  { intros y l. rewrite add_user_lookup by done. case_decide; [congruence | apply Hself]. }
  assert (∀ y, add_user (add_user s (a1 !!! m)) (a2 !!! m) !! y =
    if decide (y = a2 !!! m) then Some y
    else if decide (y = a1 !!! m) then Some y else s !! y) as Hlook.
  { intros y. rewrite add_user_lookup by done.
    case_decide as Hy2; [by subst|]. rewrite add_user_lookup by done.
    case_decide; by subst. }
  split.
  - intros p Hp. rewrite !Hlook.
    destruct (decide (p = m)) as [->|Hne].
    + split; repeat case_decide; by eauto.
    + destruct (IHc p) as [H1 H2]; [lia|].
      split; repeat case_decide; by eauto.
  - intros x l. rewrite Hlook. repeat case_decide.
    + intros [= <-]. split; [done|]. exists m. split; [lia | by right].
    + intros [= <-]. split; [done|]. exists m. split; [lia | by left].
    + intros Hx. destruct (IHl x l Hx) as (? & p & ? & ?).
      split; [done|]. exists p. split; [lia | done].
Qed.

Lemma initial_head (a1 a2 : list N) m err :
  (m ≤ length a1)%nat → (m ≤ length a2)%nat → head (initial a1 a2 m err).
Proof.
  intros H1 H2. split_and!; [|by left|done].
  split_and!; [done..| |done]. apply get_users_spec.
Qed.

Lemma closed_fmap f (s : gmap N N) (a1 a2 : list N) m :
  closed s a1 a2 m → closed (f <$> s) a1 a2 m.
Proof.
  intros Hc p Hp. destruct (Hc p Hp) as [[l1 H1] [l2 H2]].
  rewrite !lookup_fmap, H1, H2. by eauto.
Qed.

(** A round that goes on leads to the head of the loop again. *)
Lemma head_step urm st st' :
  head st → iteration order urm st = Some (RUNNING, st') → head st'.
Proof.
  intros (Hready & Hidx & Hk) Hit.
  destruct (decide (merge (scan_edges (edges st)) = ∅)) as [HM|HM].
  { rewrite iteration_converged in Hit by done. by simplify_eq. }
  destruct (iteration_running order order_perm urm st Hready Hidx HM)
    as (m & s2' & _ & _ & _ & Hit' & Hidx' & _).
  rewrite Hit' in Hit. case_bool_decide; simplify_eq.
  destruct (scan_edges_spec _ Hready) as ((H1 & H2 & Hc & _) & Hsccs & _).
  simpl in *. rewrite Hsccs in Hc.
  split_and!; [|done..]. split_and!; try done. simpl. by apply closed_fmap.
Qed.
Lemma sum_fmap_lt {A} (f g : A → nat) (l : list A) :
  (∀ e, e ∈ l → (f e ≤ g e)%nat) → (∃ e, e ∈ l ∧ (f e < g e)%nat) →
  (sum_list (f <$> l) < sum_list (g <$> l))%nat.
Proof.
  induction l as [|a l IH]; intros Hle (e & He & Hlt).
  { by apply elem_of_nil in He. }
  change (f a + sum_list (f <$> l) < g a + sum_list (g <$> l))%nat.
  assert (sum_list (f <$> l) ≤ sum_list (g <$> l))%nat as Hrest.
  { clear -Hle. induction l as [|b l IH]; [done|].
    change (f b + sum_list (f <$> l) ≤ g b + sum_list (g <$> l))%nat.
    assert (f b ≤ g b)%nat by (apply Hle; right; left).
    assert (sum_list (f <$> l) ≤ sum_list (g <$> l))%nat; [|lia].
    apply IH. intros e He. apply elem_of_cons in He as [->|He].
    - apply Hle. left.
    - apply Hle. right. by right. }
  apply elem_of_cons in He as [->|He]; [lia|].
  assert (f a ≤ g a)%nat by (apply Hle; left).
  assert (sum_list (f <$> l) < sum_list (g <$> l))%nat; [|lia].
  apply IH; [|by eauto]. intros b Hb. apply Hle. by right.
Qed.

Lemma relabel_le (m : gmap N N) l : downward m → relabel m l ≤ l.
Proof.
  intros Hd. unfold relabel. destruct (m !! l) as [t|] eqn:Hl; simpl; [|lia].
  apply Hd in Hl. lia.
Qed.

Lemma relabel_lt (m : gmap N N) l : downward m → is_Some (m !! l) → relabel m l < l.
Proof. intros Hd [t Hl]. unfold relabel. rewrite Hl. simpl. by apply Hd. Qed.

(** Relabeling through downward entries lowers the sum of the labels
    when it hits at least one entry. *)
Lemma label_sum_relabel (m sccs : gmap N N) :
  downward m → hits m (map_to_list sccs) ≠ 0%nat →
  (label_sum (relabel m <$> sccs) < label_sum sccs)%nat.
Proof.
  intros Hd Hhits. unfold label_sum.
  rewrite map_to_list_fmap, <- list_fmap_compose.
  apply sum_fmap_lt.
  - intros [x l] _. simpl. pose proof (relabel_le m l Hd). lia.
  - unfold hits in Hhits.
    destruct (filter (λ e : N * N, is_Some (m !! e.2)) (map_to_list sccs))
      as [|[x l] r] eqn:Hf; [done|].
    assert ((x, l) ∈ filter (λ e : N * N, is_Some (m !! e.2)) (map_to_list sccs)) as Hin
      by (rewrite Hf; left).
    apply list_elem_of_filter in Hin as [Hl Hin]. exists (x, l). split; [done|].
    simpl in *. pose proof (relabel_lt m l Hd Hl). lia.
Qed.

Lemma resolved_downward (M m : gmap N N) :
  downward M → (∀ s t, m !! s = Some t → m !! t = None ∧ reaches M s t) → downward m.
Proof. intros Hd Hm s t Hs. eapply reaches_lt; [done|]. by apply Hm. Qed.

Lemma main_loop_more urm : ∀ fuel fuel' st r,
  main_loop order fuel urm st = Some r → (fuel ≤ fuel')%nat →
  main_loop order fuel' urm st = Some r.
Proof.
  induction fuel as [|fuel IH]; intros fuel' st r Hr Hle; [done|].
  destruct fuel' as [|fuel']; [lia|]. simpl in *.
  destruct (iteration order urm st) as [[[] st']|]; try done.
  apply (IH fuel'); [done | lia].
Qed.

(** The loop ends within as many rounds as the sum of the labels allows,
    at [merge.size() == 0] or at [k == 0]. *)
Lemma loop_ends urm : ∀ fuel st,
  head st → (label_sum (sccs (edges st)) < fuel)%nat →
  ∃ s st', main_loop order fuel urm st = Some (s, st') ∧ s ≠ RUNNING.
Proof.
  induction fuel as [|fuel IH]; intros st Hhead Hfuel; [lia|].
  pose proof Hhead as (Hready & Hidx & Hk). simpl.
  destruct (decide (merge (scan_edges (edges st)) = ∅)) as [HM|HM].
  { rewrite iteration_converged by done. by eexists _, _. }
  destruct (iteration_running order order_perm urm st Hready Hidx HM)
    as (m & s2' & _ & _ & Hm & Hit & _).
  pose proof (head_step urm st) as Hstep. rewrite Hit in *.
  case_bool_decide as Hk'; [by eexists _, _|].
  apply IH; [by eapply Hstep|]. simpl.
  assert (label_sum (relabel m <$> sccs (edges st)) < label_sum (sccs (edges st)))%nat;
    [|lia].
  apply label_sum_relabel.
  - destruct (scan_edges_spec _ Hready) as (_ & _ & _ & _ & _ & _ & Hsc).
    eapply resolved_downward; [|done]. by eapply scanned_downward.
  - intros Hz. apply Hk'. by rewrite Hz, Hk.
Qed.
(** *** The labels and the input graph *)

Lemma connected_refl (a1 a2 : list N) m x : connected a1 a2 m x x.
Proof. unfold connected. reflexivity. Qed.

Lemma connected_sym (a1 a2 : list N) m x y :
  connected a1 a2 m x y → connected a1 a2 m y x.
Proof. unfold connected. by intros ->. Qed.

Lemma connected_trans (a1 a2 : list N) m x y z :
  connected a1 a2 m x y → connected a1 a2 m y z → connected a1 a2 m x z.
Proof. unfold connected. by intros -> ->. Qed.

Lemma connected_edge (a1 a2 : list N) m p :
  (p < m)%nat → connected a1 a2 m (a1 !!! p) (a2 !!! p).
Proof. intros Hp. apply rtsc_lr. by exists p. Qed.

(** Labels that agree along every input edge agree along every path. *)
Lemma connected_lab (L : N → N) (a1 a2 : list N) m x y :
  (∀ q, (q < m)%nat → L (a1 !!! q) = L (a2 !!! q)) →
  connected a1 a2 m x y → L x = L y.
Proof.
  intros Hedges. unfold connected, rtsc.
  induction 1 as [|x y z [Hxy|Hyx] _ IH]; [done|..]; rewrite <- IH.
  - destruct Hxy as (q & Hq & [= <- <-]). by apply Hedges.
  - destruct Hyx as (q & Hq & [= <- <-]). symmetry. by apply Hedges.
Qed.

Lemma connected_known (s : gmap N N) (a1 a2 : list N) m x y :
  closed s a1 a2 m → connected a1 a2 m x y → is_Some (s !! x) → is_Some (s !! y).
Proof.
  intros Hc. unfold connected, rtsc.
  induction 1 as [|x y z [Hxy|Hyx] _ IH]; [done|..]; intros _; apply IH.
  - destruct Hxy as (q & Hq & [= <- <-]). by apply Hc.
  - destruct Hyx as (q & Hq & [= <- <-]). by apply Hc.
Qed.

Lemma endpoint_known (s : gmap N N) (a1 a2 : list N) m x :
  closed s a1 a2 m → endpoint a1 a2 m x → is_Some (s !! x).
Proof.
  intros Hc [y [(q & Hq & [= <- <-])|(q & Hq & [= <- <-])]]; by apply Hc.
Qed.

Lemma lab_relabel (M s : gmap N N) x :
  downward M → lab (relabel M <$> s) x = relabel M (lab s x).
Proof.
  intros Hd. unfold lab. rewrite lookup_fmap.
  destruct (s !! x) as [l|]; [done|]. simpl.
  unfold relabel. destruct (M !! 0) as [t|] eqn:H0; [|done].
  apply Hd in H0. lia.
Qed.

Lemma kept_mono (L L' : N → N) (a1 a2 : list N) n (b1 b2 : list N) m :
  (∀ x y, L x = L y → L' x = L' y) →
  kept L a1 a2 n b1 b2 m → kept L' a1 a2 n b1 b2 m.
Proof.
  intros HL [Ha Hb]. split; [done|].
  intros q Hq. destruct (Hb q Hq) as [?|?]; [by left | right; by apply HL].
Qed.

Lemma reaches_connected (a1 a2 : list N) m (M : gmap N N) s r :
  (∀ c t, M !! c = Some t → connected a1 a2 m c t) →
  reaches M s r → connected a1 a2 m s r.
Proof.
  intros HM. induction 1 as [s t Hs _|s t r Hs _ IH]; [by apply HM|].
  eapply connected_trans; [by apply HM | done].
Qed.

Lemma graph_inv_initial (a1 a2 : list N) m err :
  graph_inv a1 a2 m (initial a1 a2 m err).
Proof.
  destruct (get_users_spec a1 a2 m) as [Hc Hl].
  split_and!; simpl; [apply kept_refl | done |].
  intros x l Hx. destruct (Hl x l Hx) as [-> _].
  split; [lia | apply connected_refl].
Qed.

(** The two labels joined by a scanned live edge are connected. *)
Lemma scanned_connected (a1 a2 : list N) m st (b1 b2 : list N) i M c t :
  graph_inv a1 a2 m st →
  kept (lab (sccs (edges st))) a1 a2 m b1 b2 i →
  scanned (lab (sccs (edges st))) b1 b2 i M →
  M !! c = Some t → connected a1 a2 m c t.
Proof.
  intros (_ & Hc & Hl) [Ha _] [_ Hb] Hct.
  destruct (Hb c t Hct) as (_ & p & Hp & Hor).
  destruct (Ha p Hp) as (q & Hq & [= H1 H2]). rewrite H1, H2 in Hor.
  destruct (Hc q Hq) as [Hk1%known_lab Hk2%known_lab].
  apply Hl in Hk1 as [_ Hk1]. apply Hl in Hk2 as [_ Hk2].
  pose proof (connected_edge a1 a2 m q Hq) as He.
  destruct Hor as [[<- <-]|[<- <-]].
  - eapply connected_trans; [apply connected_sym, Hk2|].
    eapply connected_trans; [apply connected_sym, He | done].
  - eapply connected_trans; [apply connected_sym, Hk1|].
    eapply connected_trans; [apply He | done].
Qed.

Lemma graph_inv_step (a1 a2 : list N) m urm st st' :
  head st → graph_inv a1 a2 m st →
  iteration order urm st = Some (RUNNING, st') → graph_inv a1 a2 m st'.
Proof.
  intros (Hready & Hidx & Hk) Hg Hit.
  destruct (decide (merge (scan_edges (edges st)) = ∅)) as [HM|HM].
  { rewrite iteration_converged in Hit by done. by simplify_eq. }
  destruct (iteration_running order order_perm urm st Hready Hidx HM)
    as (M & s2' & _ & _ & HMres & Hit' & _).
  rewrite Hit' in Hit. case_bool_decide; simplify_eq.
  destruct (scan_edges_spec _ Hready) as (_ & _ & _ & _ & _ & Hkept & Hsc).
  pose proof Hg as (Hk0 & Hc & Hl).
  pose proof (kept_trans _ _ _ _ _ _ _ _ _ _ Hk0 Hkept) as Hk1.
  assert (downward M) as Hd.
  { eapply resolved_downward; [|done]. by eapply scanned_downward. }
  split_and!; simpl.
  - eapply kept_mono; [|done]. intros x y Hxy. by rewrite !lab_relabel, Hxy.
  - by apply closed_fmap.
  - intros x l'. rewrite lookup_fmap.
    destruct (sccs (edges st) !! x) as [l|] eqn:Hx; [|done]. intros [= <-].
    destruct (Hl x l Hx) as [Hle Hconn]. pose proof (relabel_le M l Hd).
    split; [lia|]. eapply connected_trans; [done|].
    unfold relabel. destruct (M !! l) as [t|] eqn:Hlt; [|apply connected_refl].
    simpl. eapply reaches_connected; [|by apply HMres].
    intros c t'. by eapply scanned_connected.
Qed.

(** When the scan leaves the merge set empty, every user is labeled with
    the smallest id of its component. *)
Lemma converged_minimal (a1 a2 : list N) m st :
  head st → graph_inv a1 a2 m st → merge (scan_edges (edges st)) = ∅ →
  ∀ x, endpoint a1 a2 m x →
    ∃ l, sccs (scan_edges (edges st)) !! x = Some l ∧
         connected a1 a2 m x l ∧ ∀ y, connected a1 a2 m x y → l ≤ y.
Proof.
  intros (Hready & _) (Hk0 & Hc & Hl) HM x Hx.
  destruct (scan_edges_spec _ Hready) as (_ & -> & _ & _ & _ & Hkept & Hsc).
  assert (n (scan_edges (edges st)) = 0%nat) as Hn.
  { destruct (n (scan_edges (edges st))) as [|i] eqn:Hi; [done|].
    destruct Hsc as [Ha _]. destruct (Ha 0%nat) as (_ & t & Ht & _); [lia|].
    by rewrite HM, lookup_empty in Ht. }
  pose proof (kept_trans _ _ _ _ _ _ _ _ _ _ Hk0 Hkept) as [_ Hb].
  assert (∀ q, (q < m)%nat →
    lab (sccs (edges st)) (a1 !!! q) = lab (sccs (edges st)) (a2 !!! q)) as Hedges.
  { intros q Hq. destruct (Hb q Hq) as [(p & Hp & _)|?]; [lia | done]. }
  pose proof (endpoint_known _ _ _ _ _ Hc Hx) as Hkx.
  apply known_lab in Hkx as Hlx. exists (lab (sccs (edges st)) x).
  destruct (Hl _ _ Hlx) as [Hle Hconn]. split_and!; [done..|].
  intros y Hy. rewrite (connected_lab _ _ _ _ _ _ Hedges Hy).
  pose proof (connected_known _ _ _ _ _ _ Hc Hy Hkx) as Hly%known_lab.
  by apply Hl in Hly as [? _].
Qed.

(** The state in which the loop leaves at [merge.size() == 0]. *)
Lemma main_loop_converged (a1 a2 : list N) m urm : ∀ fuel st st',
  head st → graph_inv a1 a2 m st →
  main_loop order fuel urm st = Some (CONVERGED, st') →
  ∃ st0, head st0 ∧ graph_inv a1 a2 m st0 ∧
    merge (scan_edges (edges st0)) = ∅ ∧
    st' = LoopState (scan_edges (edges st0)) (sccs2 st0) (j st0) (k st0) (err st0).
Proof.
  induction fuel as [|fuel IH]; intros st st' Hhead Hg Hrun; [done|].
  simpl in Hrun.
  destruct (iteration order urm st) as [[[] st1]|] eqn:Hit; try done.
  - apply (IH st1); [by eapply head_step | by eapply graph_inv_step | done].
  - exists st. destruct (decide (merge (scan_edges (edges st)) = ∅)) as [HM|HM].
    + rewrite iteration_converged in Hit by done. by simplify_eq.
    + destruct Hhead as (Hready & Hidx & Hk).
      destruct (iteration_running order order_perm urm st Hready Hidx HM)
        as (M & s2' & _ & _ & _ & Hit' & _).
      rewrite Hit' in Hit. by case_bool_decide; simplify_eq.
Qed.
End Loop.

(** ** Graph population: proofs *)

Section Read.
(** What the reading loop leaves behind: arrays of the same lengths,
    unchanged below the position it started from, and a count within the
    arrays. *)
Lemma read_rows_spec : ∀ ls ce (i1 i2 : list N) i (b1 b2 : list N) c e,
  read_rows ls ce i1 i2 i = Done (b1, b2, c, e) →
  length b1 = length i1 ∧ length b2 = length i2 ∧ (i ≤ c)%nat ∧
  ((i ≤ length i1)%nat → (i ≤ length i2)%nat →
     (c ≤ length b1)%nat ∧ (c ≤ length b2)%nat) ∧
  (∀ p, (p < i)%nat → b1 !!! p = i1 !!! p ∧ b2 !!! p = i2 !!! p).
Proof.
  induction ls as [|l ls IH]; intros ce i1 i2 i b1 b2 c e Hr; simpl in Hr.
  { simplify_eq. split_and!; try done. }
  destruct (read l) as [[a b]|[]] eqn:Hl; simplify_eq; try by split_and!.
  - case_bool_decide as Hi; [|done].
    apply IH in Hr as (H1 & H2 & Hc & Hb & Hp).
    rewrite !length_insert in *. split_and!; try done; try lia.
    intros p Hp'. destruct (Hp p) as [-> ->]; [lia|].
    by rewrite !list_lookup_total_insert_ne by lia.
  - by apply IH in Hr.
Qed.

Lemma read_graph_bound (i1 i2 : list N) f cap (b1 b2 : list N) err c :
  read_graph i1 i2 f cap = Done (b1, b2, err, c) →
  (c ≤ length b1)%nat ∧ (c ≤ length b2)%nat.
Proof.
  unfold read_graph.
  destruct (read_rows _ _ _ _ _) as [[[[a1 a2] i] e]|] eqn:Hr; [|done].
  apply read_rows_spec in Hr as (_ & _ & _ & Hb & _).
  case_bool_decide; intros [= <- <- <- <-]; [lia|].
  apply Hb; simpl; lia.
Qed.

Lemma read_not_eof l : read l ≠ inr T_EOF.
Proof. destruct l; simpl; [by case_bool_decide | done]. Qed.

(** Reading a sequence of lines is reading its first part and, unless
    that ended in an error, the rest from where the first part stopped. *)
Lemma read_rows_app : ∀ pre post ce (i1 i2 : list N) i,
  read_rows (pre ++ post) ce i1 i2 i =
  match read_rows pre true i1 i2 i with
  | Done (b1, b2, c, T_EOF) => read_rows post ce b1 b2 c
  | r => r
  end.
Proof.
  induction pre as [|l pre IH]; intros post ce i1 i2 i; [done|].
  simpl. pose proof (read_not_eof l) as Hl.
  destruct (read l) as [[a b]|[]]; try done.
  by case_bool_decide.
Qed.
End Read.

(** ** Independence of the iteration order and of the relabeling version *)

Section Independence.
Variables order1 order2 : gmap N N → list (N * N).
Hypothesis order1_perm : ∀ m, order1 m ≡ₚ map_to_list m.
Hypothesis order2_perm : ∀ m, order2 m ≡ₚ map_to_list m.

(** The resolved merge set is determined by the merge set. *)
Lemma resolved_unique (M m m' : gmap N N) :
  (∀ s, m !! s = None ↔ M !! s = None) →
  (∀ s t, m !! s = Some t → m !! t = None ∧ reaches M s t) →
  (∀ s, m' !! s = None ↔ M !! s = None) →
  (∀ s t, m' !! s = Some t → m' !! t = None ∧ reaches M s t) →
  m = m'.
Proof.
  intros Hd Hm Hd' Hm'. apply map_eq. intros s.
  destruct (m !! s) as [t|] eqn:Hs, (m' !! s) as [t'|] eqn:Hs'; try done.
  - f_equal. eapply reaches_fun; [by apply Hm | by apply Hm'].
  - apply Hd' in Hs'. apply Hd in Hs'. congruence.
  - apply Hd in Hs. apply Hd' in Hs. congruence.
Qed.

Lemma iteration_sim urm1 urm2 st1 st2 :
  head st1 → head st2 → same_table st1 st2 →
  same_result (iteration order1 urm1 st1) (iteration order2 urm2 st2).
Proof.
  intros (Hready1 & Hidx1 & Hk1) (Hready2 & Hidx2 & Hk2) (He & Hj & Hk & Herr).
  destruct (decide (merge (scan_edges (edges st1)) = ∅)) as [HM|HM].
  { rewrite (iteration_converged order1) by done.
    rewrite (iteration_converged order2) by by rewrite <- He.
    simpl. rewrite He. by split_and!. }
  destruct (iteration_running order1 order1_perm urm1 st1 Hready1 Hidx1 HM)
    as (m & s2' & _ & Hd & Hm & -> & _).
  rewrite He in HM.
  destruct (iteration_running order2 order2_perm urm2 st2 Hready2 Hidx2 HM)
    as (m' & s2'' & _ & Hd' & Hm' & -> & _).
  rewrite <- He in Hd', Hm'.
  rewrite <- (resolved_unique _ _ _ Hd Hm Hd' Hm'), <- He, <- Hk, <- Hj, <- Herr.
  case_bool_decide; simpl; by split_and!.
Qed.

Lemma main_loop_sim urm1 urm2 : ∀ fuel st1 st2,
  head st1 → head st2 → same_table st1 st2 →
  same_result (main_loop order1 fuel urm1 st1) (main_loop order2 fuel urm2 st2).
Proof.
  induction fuel as [|fuel IH]; intros st1 st2 H1 H2 Hsame; [done|].
  simpl. pose proof (iteration_sim urm1 urm2 st1 st2 H1 H2 Hsame) as Hit.
  pose proof (head_step order1 order1_perm urm1 st1) as Hs1.
  pose proof (head_step order2 order2_perm urm2 st2) as Hs2.
  destruct (iteration order1 urm1 st1) as [[s1 a]|],
           (iteration order2 urm2 st2) as [[s2 b]|]; try done.
  destruct Hit as [<- Hab].
  destruct s1; [|done..]. apply IH; auto.
Qed.

Lemma finish_sim st1 st2 :
  same_table st1 st2 →
  same_outcome (Some (finish order1 st1)) (Some (finish order2 st2)).
Proof.
  intros (He & Hj & _ & Herr). unfold finish. rewrite Hj, Herr, He.
  case_bool_decide; simpl; split_and!; try done.
  by rewrite order1_perm, order2_perm.
Qed.

(** The program gives the same result, up to the order of the output
    lines, whatever the iteration order of the maps and whether or not
    the reverse map is used. *)
Lemma main_sim fuel cap tmp urm1 urm2 sys stdin :
  same_outcome (main order1 fuel (Config cap tmp urm1) sys stdin)
               (main order2 fuel (Config cap tmp urm2) sys stdin).
Proof.
  unfold main.
  assert (setup (Config cap tmp urm1) sys = setup (Config cap tmp urm2) sys) as ->
    by done.
  destruct (setup _ sys) as [[c out e|e i]|[mapped e]]; simpl; try done.
  destruct (buffers cap mapped) as [a1 a2].
  destruct (read_graph a1 a2 stdin cap) as [[[[b1 b2] e'] c]|i] eqn:Hr; [|done].
  case_bool_decide; [done|].
  apply read_graph_bound in Hr as [Hb1 Hb2].
  pose proof (main_loop_sim urm1 urm2 fuel (initial b1 b2 c (e ++ e'))
                (initial b1 b2 c (e ++ e'))) as Hsim.
  destruct (main_loop order1 _ _ _) as [[s1 st1]|],
           (main_loop order2 _ _ _) as [[s2 st2]|]; simpl in *.
  - apply finish_sim, Hsim; by auto using initial_head.
  - exfalso. apply Hsim; by auto using initial_head.
  - exfalso. apply Hsim; by auto using initial_head.
  - done.
Qed.
End Independence.

(** ** The properties of the iteration *)

Section Properties.
Variable order : gmap N N → list (N * N).
Hypothesis order_perm : ∀ m, order m ≡ₚ map_to_list m.

Lemma rounds_head urm : ∀ c st st',
  head st → rounds order c urm st = Some st' → head st'.
Proof.
  induction c as [|c IH]; intros st st' Hhead Hr; simpl in Hr; [by simplify_eq|].
  destruct (iteration order urm st) as [[[] st1]|] eqn:Hit; try done.
  apply (IH st1); [|done]. by eapply head_step.
Qed.

(** What one round does to the label table: it maps it through a merge
    set with downward entries. *)
Lemma iteration_relabels urm st s st' :
  head st → iteration order urm st = Some (s, st') →
  ∃ M, downward M ∧ sccs (edges st') = relabel M <$> sccs (edges st).
Proof.
  intros (Hready & Hidx & Hk) Hit.
  destruct (scan_edges_spec _ Hready) as (_ & Hsccs & _ & _ & _ & _ & Hsc).
  destruct (decide (merge (scan_edges (edges st)) = ∅)) as [HM|HM].
  { rewrite iteration_converged in Hit by done. simplify_eq. simpl.
    exists ∅. split; [intros c t; by rewrite lookup_empty|].
    rewrite Hsccs. apply map_eq. intros x. rewrite lookup_fmap.
    by destruct (sccs (edges st) !! x). }
  destruct (iteration_running order order_perm urm st Hready Hidx HM)
    as (M & s2' & _ & _ & HMres & Hit' & _).
  assert (downward M) as Hd.
  { eapply resolved_downward; [|done]. by eapply scanned_downward. }
  rewrite Hit' in Hit. exists M. split; [done|].
  by case_bool_decide; simplify_eq.
Qed.

Lemma main_more fuel fuel' cfg sys stdin o :
  main order fuel cfg sys stdin = Some o → (fuel ≤ fuel')%nat →
  main order fuel' cfg sys stdin = Some o.
Proof.
  unfold main. intros Ho Hle.
  destruct (setup cfg sys) as [?|[mapped e]]; [done|].
  destruct (buffers (n1 cfg) mapped) as [a1 a2].
  destruct (read_graph a1 a2 stdin (n1 cfg)) as [[[[b1 b2] e'] c]|i]; [|done].
  case_bool_decide; [done|].
  destruct (main_loop order fuel _ _) as [r|] eqn:Hr; [|done].
  by rewrite (main_loop_more order _ fuel fuel' _ r Hr Hle).
Qed.

(** The loop leaves at [k == 0] with [j = 0], and the program then writes
    the error line and no table, and returns 0. *)
Lemma loop_error_exit urm : ∀ fuel st st',
  main_loop order fuel urm st = Some (ERROR, st') →
  finish order st' = Exit 0 [] (err st' ++ [ProcessingError]).
Proof.
  induction fuel as [|fuel IH]; intros st st' Hrun; [done|]. simpl in Hrun.
  destruct (iteration order urm st) as [[[] st1]|] eqn:Hit; try done.
  { by eapply IH. }
  simplify_eq. unfold iteration in Hit.
  case_bool_decide; [done|].
  destruct (resolve _ _) as [m|]; [|done]. simpl in Hit.
  destruct (if bool_decide (length (sccs2 st) = 0%nat) then _ else _)
    as [[[[s s2] k'] e]|]; [|done].
  simpl in Hit. case_bool_decide; by simplify_eq.
Qed.
(** *** The loop never leaves at [k == 0]

    With [uint32_t] users the table has at most [2^32] entries, so the
    64-bit counter [k] cannot wrap, and a merge set that is not empty hits
    at least one entry. *)

Lemma nodup_bounded_length (b : N) : ∀ l : list N,
  NoDup l → Forall (λ x, x < b) l → N.of_nat (length l) ≤ b.
Proof.
  induction b as [|b IH] using N.peano_ind; intros l Hnd Hall.
  { destruct l as [|x l]; [done|]. apply Forall_cons in Hall as [Hx _]. lia. }
  destruct (decide (b ∈ l)) as [Hin|Hnin].
  - apply elem_of_Permutation in Hin as [l' Hl'].
    rewrite Hl' in Hnd, Hall |- *. apply NoDup_cons in Hnd as [Hb Hnd].
    apply Forall_cons in Hall as [_ Hall].
    assert (N.of_nat (length l') ≤ b); [|simpl; lia].
    apply IH; [done|]. apply Forall_forall. intros x Hx.
    rewrite Forall_forall in Hall. specialize (Hall x Hx).
    assert (x ≠ b) by (by intros ->). lia.
  - assert (N.of_nat (length l) ≤ b); [|lia].
    apply IH; [done|]. apply Forall_forall. intros x Hx.
    rewrite Forall_forall in Hall. specialize (Hall x Hx).
    assert (x ≠ b) by (by intros ->). lia.
Qed.

Lemma table_size (s : gmap N N) :
  users_in_range s → N.of_nat (length (map_to_list s)) ≤ 2 ^ 32.
Proof.
  intros Hr. rewrite <- (length_fmap fst).
  apply nodup_bounded_length; [apply NoDup_fst_map_to_list|].
  apply Forall_forall. intros x ([x' l] & -> & Hx)%list_elem_of_fmap.
  apply Hr. apply elem_of_map_to_list in Hx. by eexists.
Qed.

Lemma iter_incr64 (c : nat) : Nat.iter c incr64 0 = N.of_nat c mod 2 ^ 64.
Proof.
  induction c as [|c IH]; [done|]. simpl Nat.iter. rewrite IH. unfold incr64.
  rewrite N.Div0.add_mod_idemp_l. f_equal. lia.
Qed.

Lemma users_in_range_fmap f (s : gmap N N) :
  users_in_range s → users_in_range (f <$> s).
Proof. intros Hr x. rewrite lookup_fmap, fmap_is_Some. apply Hr. Qed.

Lemma iteration_no_error urm st s st' :
  head st → users_in_range (sccs (edges st)) →
  iteration order urm st = Some (s, st') →
  s ≠ ERROR ∧ users_in_range (sccs (edges st')).
Proof.
  intros (Hready & Hidx & Hk) Hrange Hit.
  destruct (scan_edges_spec _ Hready) as ((_ & _ & Hcl & _) & Hsccs & _ & _ & _ & _ & Hsc).
  simpl in Hcl. rewrite Hsccs in Hcl.
  destruct (decide (merge (scan_edges (edges st)) = ∅)) as [HM|HM].
  { rewrite iteration_converged in Hit by done. simplify_eq. simpl.
    by rewrite Hsccs. }
  destruct (iteration_running order order_perm urm st Hready Hidx HM)
    as (M & s2' & _ & Hdom & _ & Hit' & _).
  rewrite Hit' in Hit. clear Hit'.
  assert (Nat.iter (hits M (map_to_list (sccs (edges st)))) incr64 (k st) ≠ 0) as Hk'.
  { rewrite Hk, iter_incr64.
    assert (hits M (map_to_list (sccs (edges st))) ≠ 0%nat) as Hhits.
    { apply map_choose in HM as (c & t & Hct).
      destruct (scanned_member _ _ _ _ _ c t Hsc Hcl Hct) as [x Hx].
      assert ((x, c) ∈ filter (λ e : N * N, is_Some (M !! e.2))
                         (map_to_list (sccs (edges st)))) as Hin.
      { apply list_elem_of_filter. split; [|by apply elem_of_map_to_list].
        simpl. apply not_eq_None_Some. rewrite Hdom. by rewrite Hct. }
      unfold hits. destruct (filter _ _); [by apply elem_of_nil in Hin | done]. }
    pose proof (table_size _ Hrange) as Hsize.
    assert (hits M (map_to_list (sccs (edges st))) ≤
            length (map_to_list (sccs (edges st))))%nat as Hle
      by apply length_filter.
    rewrite N.mod_small; lia. }
  rewrite bool_decide_eq_false_2 in Hit by done. simplify_eq. simpl.
  split; [done | by apply users_in_range_fmap].
Qed.

(** From the head of the loop with [uint32_t] users the loop ends at
    [merge.size() == 0]. *)
Lemma loop_converges urm : ∀ fuel st,
  head st → users_in_range (sccs (edges st)) →
  (label_sum (sccs (edges st)) < fuel)%nat →
  ∃ st', main_loop order fuel urm st = Some (CONVERGED, st').
Proof.
  intros fuel st Hhead Hrange Hfuel.
  destruct (loop_ends order order_perm urm fuel st Hhead Hfuel) as (s & st' & Hrun & Hs).
  exists st'. rewrite Hrun. f_equal. f_equal.
  destruct s; [done | done | exfalso].
  clear Hs Hfuel. revert st Hhead Hrange Hrun.
  induction fuel as [|fuel IH]; intros st Hhead Hrange Hrun; [done|].
  simpl in Hrun.
  destruct (iteration order urm st) as [[s1 st1]|] eqn:Hit; [|done].
  destruct (iteration_no_error urm st s1 st1 Hhead Hrange Hit) as [Hs1 Hr1].
  destruct s1; [|done..].
  apply (IH st1); [by eapply head_step | done | done].
Qed.

Lemma initial_in_range (a1 a2 : list N) m err :
  (∀ p, (p < m)%nat → a1 !!! p < 2 ^ 32 ∧ a2 !!! p < 2 ^ 32) →
  users_in_range (sccs (edges (initial a1 a2 m err))).
Proof.
  intros Ha x [l Hx]. simpl in Hx.
  destruct (get_users_spec a1 a2 m) as [_ Hl].
  destruct (Hl x l Hx) as (_ & p & Hp & [->| ->]); by apply Ha.
Qed.
Lemma read_in_range l a b : read l = inl (a, b) → a < 2 ^ 32 ∧ b < 2 ^ 32.
Proof.
  destruct l as [x y|]; simpl; [|done].
  case_bool_decide as Hr; [|done]. intros [= <- <-].
  unfold uint32_max in Hr. lia.
Qed.

(** The edges counted by the reading loop are [uint32_t] values. *)
Lemma read_rows_range : ∀ ls ce (i1 i2 : list N) i (b1 b2 : list N) c e,
  read_rows ls ce i1 i2 i = Done (b1, b2, c, e) →
  (∀ p, (p < i)%nat → i1 !!! p < 2 ^ 32 ∧ i2 !!! p < 2 ^ 32) →
  ∀ p, (p < c)%nat → b1 !!! p < 2 ^ 32 ∧ b2 !!! p < 2 ^ 32.
Proof.
  induction ls as [|l ls IH]; intros ce i1 i2 i b1 b2 c e Hr Hi; simpl in Hr.
  { by simplify_eq. }
  destruct (read l) as [[a b]|[]] eqn:Hl; simplify_eq; try done.
  - case_bool_decide as Hlen; [|done].
    apply read_in_range in Hl as [Ha Hb].
    eapply IH; [done|]. intros p Hp.
    destruct (decide (p = i)) as [->|Hne].
    + by rewrite !list_lookup_total_insert_eq by lia.
    + rewrite !list_lookup_total_insert_ne by done. apply Hi. lia.
  - by eapply IH.
Qed.

(** The program ends, whatever the settings, the answers of the system
    calls and the input. *)
Lemma main_terminates cfg sys stdin :
  ∃ fuel o, ∀ fuel', (fuel ≤ fuel')%nat → main order fuel' cfg sys stdin = Some o.
Proof.
  unfold main.
  destruct (setup cfg sys) as [o|[mapped e]]; [by exists 0%nat, o|].
  destruct (buffers (n1 cfg) mapped) as [a1 a2].
  destruct (read_graph a1 a2 stdin (n1 cfg)) as [[[[b1 b2] e'] c]|i] eqn:Hr;
    [|by eexists 0%nat, _].
  case_bool_decide as Hc; [by eexists 0%nat, _|].
  pose proof (read_graph_bound _ _ _ _ _ _ _ _ Hr) as [Hb1 Hb2].
  assert (users_in_range (sccs (edges (initial b1 b2 c (e ++ e'))))) as Hrange.
  { apply initial_in_range. unfold read_graph in Hr.
    destruct (read_rows _ _ _ _ _) as [[[[x1 x2] i] err']|] eqn:Hrows; [|done].
    case_bool_decide; simplify_eq.
    eapply read_rows_range; [done|]. intros p Hp. lia. }
  destruct (loop_converges (use_reverse_map cfg)
              (S (label_sum (sccs (edges (initial b1 b2 c (e ++ e'))))))
              (initial b1 b2 c (e ++ e'))) as [st' Hrun];
    [by apply initial_head | done | lia |].
  exists (S (label_sum (sccs (edges (initial b1 b2 c (e ++ e')))))), (finish order st').
  intros fuel' Hle. by rewrite (main_loop_more order _ _ fuel' _ _ Hrun Hle).
Qed.
End Properties.

(** C5: after the chain-resolution pass of an iteration, run in any order over
    the merge set the scan has built, every source of the merge set is still
    a source, its target is no source, and the target is the end of the
    chain that started at the source before the pass. *)
Theorem resolved_chains (order : gmap N N → list (N * N)) (e : scan_state) :
  (∀ m, order m ≡ₚ map_to_list m) → ready e →
  ∃ m, resolve (order (merge (scan_edges e))).*1 (merge (scan_edges e)) = Some m ∧
    (∀ s, is_Some (m !! s) ↔ is_Some (merge (scan_edges e) !! s)) ∧
    (∀ s t, m !! s = Some t →
       m !! t = None ∧ reaches (merge (scan_edges e)) s t).
Proof.
  intros Hperm Hready.
  destruct (scan_edges_spec _ Hready) as (_ & _ & _ & _ & _ & _ & Hsc).
  destruct (resolve_correct (merge (scan_edges e)) (order (merge (scan_edges e))).*1)
    as (m & Hres & Hdom & Hm).
  - by eapply scanned_downward.
  - by apply order_keys.
  - exists m. split_and!; [done| |done].
    intros s. by rewrite <- !not_eq_None_Some, Hdom.
Qed.

(** C6: at the head of the loop after any number of rounds, the merge set
    that the scan builds has only entries whose target is smaller than the
    source, and the round relabels the table through a merge set with that
    property: a label that is replaced is replaced by a smaller one, and no
    label of the table grows. *)
Theorem labels_only_decrease (order : gmap N N → list (N * N)) (urm : bool)
    (a1 a2 : list N) (m : nat) (err : list diag) (c : nat) (st : loop_state) :
  (∀ m, order m ≡ₚ map_to_list m) →
  (m ≤ length a1)%nat → (m ≤ length a2)%nat →
  rounds order c urm (initial a1 a2 m err) = Some st →
  downward (merge (scan_edges (edges st))) ∧
  ∀ s st', iteration order urm st = Some (s, st') →
    (∃ M, downward M ∧ sccs (edges st') = relabel M <$> sccs (edges st)) ∧
    (∀ x l, sccs (edges st) !! x = Some l →
       ∃ l', sccs (edges st') !! x = Some l' ∧ l' ≤ l).
Proof.
  intros Hperm H1 H2 Hr.
  assert (head st) as Hhead.
  { eapply rounds_head; [done| |done]. by apply initial_head. }
  split.
  - destruct Hhead as (Hready & _).
    destruct (scan_edges_spec _ Hready) as (_ & _ & _ & _ & _ & _ & Hsc).
    by eapply scanned_downward.
  - intros s st' Hit.
    destruct (iteration_relabels order Hperm urm st s st' Hhead Hit) as (M & Hd & HM).
    split; [by exists M|]. intros x l Hx. exists (relabel M l).
    rewrite HM, lookup_fmap, Hx. split; [done | by apply relabel_le].
Qed.

(** C3: from the state in which the loop is entered, for any live edges
    inside the arrays, the loop ends after finitely many rounds, at
    [merge.size() == 0] or at [k == 0]; more fuel changes nothing. *)
Theorem iteration_loop_terminates (order : gmap N N → list (N * N)) (urm : bool)
    (a1 a2 : list N) (m : nat) (err : list diag) :
  (∀ m, order m ≡ₚ map_to_list m) →
  (m ≤ length a1)%nat → (m ≤ length a2)%nat →
  ∃ fuel s st, (s = CONVERGED ∨ s = ERROR) ∧
    ∀ fuel', (fuel ≤ fuel')%nat →
      main_loop order fuel' urm (initial a1 a2 m err) = Some (s, st).
Proof.
  intros Hperm H1 H2.
  destruct (loop_ends order Hperm urm
              (S (label_sum (sccs (edges (initial a1 a2 m err)))))
              (initial a1 a2 m err)) as (s & st & Hrun & Hs);
    [by apply initial_head | lia |].
  eexists _, s, st. split; [by destruct s; auto|].
  intros fuel' Hle. by eapply main_loop_more.
Qed.

(** C1: when the loop leaves at [merge.size() == 0], the label table maps
    every endpoint of an input edge to the smallest id that is connected to
    it in the input graph; two endpoints have the same label exactly when
    they are connected. *)
Theorem converged_labels_minimal (order : gmap N N → list (N * N)) (urm : bool)
    (a1 a2 : list N) (m : nat) (err : list diag) (fuel : nat) (st : loop_state) :
  (∀ m, order m ≡ₚ map_to_list m) →
  (m ≤ length a1)%nat → (m ≤ length a2)%nat →
  main_loop order fuel urm (initial a1 a2 m err) = Some (CONVERGED, st) →
  (∀ x, endpoint a1 a2 m x →
     ∃ l, sccs (edges st) !! x = Some l ∧ connected a1 a2 m x l ∧
          ∀ y, connected a1 a2 m x y → l ≤ y) ∧
  (∀ x y, endpoint a1 a2 m x → endpoint a1 a2 m y →
     (sccs (edges st) !! x = sccs (edges st) !! y ↔ connected a1 a2 m x y)).
Proof.
  intros Hperm H1 H2 Hrun.
  destruct (main_loop_converged order Hperm a1 a2 m urm fuel _ st
              (initial_head a1 a2 m err H1 H2) (graph_inv_initial a1 a2 m err) Hrun)
    as (st0 & Hhead & Hg & HM & ->).
  pose proof (converged_minimal a1 a2 m st0 Hhead Hg HM) as Hmin. simpl.
  split; [done|]. intros x y Hx Hy.
  destruct (Hmin x Hx) as (lx & Hlx & Hcx & Hminx).
  destruct (Hmin y Hy) as (ly & Hly & Hcy & Hminy).
  rewrite Hlx, Hly. split.
  - intros [= ->]. eapply connected_trans; [done | by apply connected_sym].
  - intros Hxy. f_equal.
    assert (lx ≤ ly).
    { apply Hminx. eapply connected_trans; done. }
    assert (ly ≤ lx).
    { apply Hminy. eapply connected_trans; [by apply connected_sym | done]. }
    lia.
Qed.

(** C7: with and without the reverse map, and whatever the iteration order
    of the maps in either run, the program ends in the same way and writes
    the same (node, label) lines up to their order. *)
Theorem reverse_map_same_result (order1 order2 : gmap N N → list (N * N))
    (fuel : nat) (cap : N) (tmp : option string) (sys : os) (stdin : table) :
  (∀ m, order1 m ≡ₚ map_to_list m) → (∀ m, order2 m ≡ₚ map_to_list m) →
  same_outcome (main order1 fuel (Config cap tmp true) sys stdin)
               (main order2 fuel (Config cap tmp false) sys stdin).
Proof. intros Hp1 Hp2. by apply main_sim. Qed.

(** ** Graph population and the program around the loop *)

Lemma read_rows_skipped ls ce (i1 i2 : list N) i :
  Forall (λ l, read l = inr T_OVERFLOW) ls →
  read_rows ls ce i1 i2 i = Done (i1, i2, i, end_error ce).
Proof.
  induction 1 as [|l ls Hl _ IH]; [done|]. simpl. by rewrite Hl.
Qed.

(** The failures of [open] and [ftruncate] on the temporary file, and of
    the anonymous [mmap], end the run before anything is read. *)
Lemma backing_errors_fatal order fuel cap fn urm sys stdin :
  cap ≠ 0 →
  (open_ok sys = false →
     main order fuel (Config cap (Some fn) urm) sys stdin =
       Some (Exit 2 [] [OpenFailed])) ∧
  (open_ok sys = true → ftruncate_ok sys = false →
     main order fuel (Config cap (Some fn) urm) sys stdin =
       Some (Exit 3 [] [TruncateFailed])) ∧
  (mmap_ok sys = false →
     main order fuel (Config cap None urm) sys stdin =
       Some (Exit 11 [] [AllocFailed])).
Proof.
  intros Hcap. unfold main, setup. simpl.
  rewrite bool_decide_eq_false_2 by done.
  split_and!.
  - by intros ->.
  - by intros -> ->.
  - by intros ->.
Qed.

(** Reading more rows than the arrays hold: the row after the last slot is
    stored past the end. *)
Lemma read_rows_overrun ce : ∀ ls (i1 i2 : list N) i,
  Forall (λ l, ∃ ab, read l = inl ab) ls →
  length i1 = length i2 → (i ≤ length i1)%nat →
  (length i1 < i + length ls)%nat →
  read_rows ls ce i1 i2 i = Fault (length i1).
Proof.
  induction ls as [|l ls IH]; intros i1 i2 i Hall Hlen Hi Hover; simpl in *; [lia|].
  apply Forall_cons in Hall as [[[a b] ->] Hall].
  case_bool_decide as Hin.
  - rewrite IH; rewrite ?length_insert; try done; lia.
  - f_equal. lia.
Qed.

(** An input of self-loops only converges in the first round, with
    [j == 0]: the program writes the error line and no table. *)
Lemma self_loops_reported order fuel urm :
  main order (S fuel) (Config 1 None urm) (Os true true true) (Table [Row 5 5] true) =
    Some (Exit 0 [] [ProcessingError]).
Proof. by destruct urm. Qed.

(** C2: with capacity 1 and two edges on the input, [read_graph] stores the
    second edge at index 1 of arrays of length 1, and the run ends there. *)
Theorem read_graph_past_capacity :
  read_graph [0] [0] (Table [Row 1 2; Row 3 4] true) 1 = Fault 1 ∧
  ∀ order fuel urm,
    main order fuel (Config 1 None urm) (Os true true true)
      (Table [Row 1 2; Row 3 4] true) = Some (Crash [] 1).
Proof. split; [done|]. intros order fuel urm. done. Qed.

(** C8: when [mmap] of the temporary file fails, the diagnostic is written
    and the run goes on to [read_graph], whose first store finds no valid
    slot. *)
Theorem failed_file_mapping_goes_on :
  ∀ order fuel urm,
    main order fuel (Config 1 (Some "sccstmp"%string) urm) (Os true true false)
      (Table [Row 1 2] true) = Some (Crash [MapFileFailed] 0).
Proof. intros order fuel urm. done. Qed.

(** The branch for [k == 0] taken by itself: from a reverse map that files
    no user under the merge source 2, which is a state of the loop that
    [main] never builds, the loop leaves at [k == 0] after the diagnostic;
    the error line and no table are written, and 0 is returned as after a
    run that converged. *)
Lemma error_run_exits_zero :
  ∃ st',
    main_loop map_to_list 1 true
      (LoopState
         (ScanState [1] [2] 1 (list_to_map [(1, 1); (2, 2); (7, 7)]) ∅)
         [(7, 7)] 0 0 []) = Some (ERROR, st') ∧
    finish map_to_list st' = Exit 0 [] [Inconsistent 2; ProcessingError] ∧
    main map_to_list 2 (Config 1 None true) (Os true true true)
      (Table [Row 1 2] true) = Some (Exit 0 [(2, 1); (1, 1)] []).
Proof. eexists. split; [vm_compute; reflexivity|]. split; vm_compute; reflexivity. Qed.


(** C10: when the setup reaches [read_graph] and every line of the input is
    skipped as out of range (no line at all included), the program returns
    1 and writes no (node, label) line, whether or not the stream ends
    cleanly. *)
Theorem no_edges_exit_one (order : gmap N N → list (N * N)) (fuel : nat)
    (cfg : config) (sys : os) (stdin : table) (mapped : bool) (e0 : list diag) :
  setup cfg sys = inr (mapped, e0) →
  Forall (λ l, read l = inr T_OVERFLOW) (lines stdin) →
  main order fuel cfg sys stdin =
    Some (Exit 1 [] (e0 ++ if clean_end stdin then [] else [ReadFailed])).
Proof.
  intros Hs Hl. unfold main. rewrite Hs.
  destruct (buffers (n1 cfg) mapped) as [a1 a2].
  unfold read_graph. rewrite (read_rows_skipped _ _ _ _ _ Hl).
  by destruct (clean_end stdin).
Qed.

(** C9: a line with a field outside [uint32_t], negative fields included,
    is skipped: [read_graph] gives what it gives without that line.  A
    malformed line, or a stream that fails before its end, makes it report
    the failure and return 0, and [main] then returns 1 without output.
    For the edge (5,9) and a line with a negative field the output is
    (5,5), (9,5), in some order. *)
Theorem overflow_row_skipped :
  (∀ a b, (a < 0 ∨ b < 0 ∨ uint32_max < a ∨ uint32_max < b)%Z →
     read (Row a b) = inr T_OVERFLOW) ∧
  (∀ pre l post ce (i1 i2 : list N) cap, read l = inr T_OVERFLOW →
     read_graph i1 i2 (Table (pre ++ l :: post) ce) cap =
     read_graph i1 i2 (Table (pre ++ post) ce) cap) ∧
  (∀ pre post ce (i1 i2 : list N) cap,
     read_graph i1 i2 (Table (pre ++ Malformed :: post) ce) cap =
     match read_rows pre true i1 i2 0 with
     | Done (b1, b2, _, _) => Done (b1, b2, [ReadFailed], 0%nat)
     | Fault i => Fault i
     end) ∧
  (∀ ls (i1 i2 : list N) cap,
     read_graph i1 i2 (Table ls false) cap =
     match read_rows ls false i1 i2 0 with
     | Done (b1, b2, _, _) => Done (b1, b2, [ReadFailed], 0%nat)
     | Fault i => Fault i
     end) ∧
  (∀ order fuel cfg sys stdin mapped e0 (b1 b2 : list N),
     setup cfg sys = inr (mapped, e0) →
     read_graph (buffers (n1 cfg) mapped).1 (buffers (n1 cfg) mapped).2 stdin (n1 cfg) =
       Done (b1, b2, [ReadFailed], 0%nat) →
     main order fuel cfg sys stdin = Some (Exit 1 [] (e0 ++ [ReadFailed]))) ∧
  (∀ order urm fuel, (∀ m, order m ≡ₚ map_to_list m) → (2 ≤ fuel)%nat →
     ∃ out,
       main order fuel (Config 2 None urm) (Os true true true)
         (Table [Row 5 9; Row 7 (-1)] true) = Some (Exit 0 out []) ∧
       out ≡ₚ [(5, 5); (9, 5)]).
Proof.
  split_and!.
  - intros a b H. simpl. rewrite bool_decide_eq_false_2; [done | lia].
  - intros pre l post ce i1 i2 cap Hl. unfold read_graph. simpl.
    rewrite !read_rows_app. simpl. rewrite Hl.
    by destruct (read_rows pre true i1 i2 0) as [[[[b1 b2] c] []]|].
  - intros pre post ce i1 i2 cap. unfold read_graph. simpl.
    rewrite read_rows_app. simpl.
    by destruct (read_rows pre true i1 i2 0) as [[[[b1 b2] c] []]|].
  - intros ls i1 i2 cap. unfold read_graph. simpl.
    destruct (read_rows ls false i1 i2 0) as [[[[b1 b2] c] e]|] eqn:Hr; [|done].
    case_bool_decide as He; [done|]. exfalso. subst e.
    revert i1 i2 Hr. generalize 0%nat.
    induction ls as [|l ls IH]; intros i i1 i2 Hr; simpl in Hr; [done|].
    pose proof (read_not_eof l) as Hl.
    destruct (read l) as [[a b]|[]]; try done.
    + case_bool_decide; [by eapply IH | done].
    + by eapply IH.
  - intros order fuel cfg sys stdin mapped e0 b1 b2 Hs Hr. unfold main. rewrite Hs.
    destruct (buffers (n1 cfg) mapped) as [a1 a2]. simpl in Hr. by rewrite Hr.
  - intros order urm fuel Hperm Hfuel.
    pose proof (main_sim order map_to_list Hperm (λ m, reflexivity _)
                  fuel 2 None urm urm (Os true true true)
                  (Table [Row 5 9; Row 7 (-1)] true)) as Hsim.
    rewrite (main_more map_to_list 2 fuel _ _ _ (Exit 0 [(9, 5); (5, 5)] [])) in Hsim;
      [|by destruct urm; vm_compute|done].
    destruct (main order fuel _ _ _) as [[c out e|e i]|]; try done.
    destruct Hsim as (-> & Hout & ->). exists out. split; [done|].
    rewrite Hout. apply Permutation_swap.
Qed.

(** ** The properties at a concrete input

    The graph with the edges (4,5), (3,4), (2,3), (6,2) and (8,9): a chain
    that needs the chain resolution, a branch and a second component. *)

Lemma chain_ready : ready (edges (initial [4; 3; 2; 6; 8] [5; 4; 3; 2; 9] 5 [])).
Proof.
  unfold ready. simpl. split_and!; [lia | lia | | reflexivity].
  intros p Hp. do 5 (destruct p as [|p]; [vm_compute; by eauto|]). lia.
Defined.

Lemma resolved_chains_witness :
  ∃ m,
    resolve
      (map_to_list
         (merge (scan_edges (edges (initial [4; 3; 2; 6; 8] [5; 4; 3; 2; 9] 5 []))))).*1
      (merge (scan_edges (edges (initial [4; 3; 2; 6; 8] [5; 4; 3; 2; 9] 5 [])))) =
      Some m ∧
    (∀ s, is_Some (m !! s) ↔
          is_Some (merge (scan_edges (edges (initial [4; 3; 2; 6; 8] [5; 4; 3; 2; 9] 5 [])))
                     !! s)) ∧
    (∀ s t, m !! s = Some t →
       m !! t = None ∧
       reaches (merge (scan_edges (edges (initial [4; 3; 2; 6; 8] [5; 4; 3; 2; 9] 5 []))))
         s t).
Proof.
  apply (resolved_chains map_to_list
           (edges (initial [4; 3; 2; 6; 8] [5; 4; 3; 2; 9] 5 []))).
  - intros m. reflexivity.
  - exact chain_ready.
Defined.

Lemma labels_only_decrease_witness :
  ∃ st,
    rounds map_to_list 1 true (initial [4; 3; 2; 6; 8] [5; 4; 3; 2; 9] 5 []) = Some st ∧
    downward (merge (scan_edges (edges st))) ∧
    ∀ s st', iteration map_to_list true st = Some (s, st') →
      (∃ M, downward M ∧ sccs (edges st') = relabel M <$> sccs (edges st)) ∧
      (∀ x l, sccs (edges st) !! x = Some l →
         ∃ l', sccs (edges st') !! x = Some l' ∧ l' ≤ l).
Proof.
  eexists. split; [vm_compute; reflexivity|].
  apply (labels_only_decrease map_to_list true [4; 3; 2; 6; 8] [5; 4; 3; 2; 9] 5 [] 1).
  - intros m. reflexivity.
  - simpl. lia.
  - simpl. lia.
  - vm_compute. reflexivity.
Defined.

Lemma iteration_loop_terminates_witness :
  ∃ fuel s st, (s = CONVERGED ∨ s = ERROR) ∧
    ∀ fuel', (fuel ≤ fuel')%nat →
      main_loop map_to_list fuel' true (initial [4; 3; 2; 6; 8] [5; 4; 3; 2; 9] 5 []) =
        Some (s, st).
Proof.
  apply (iteration_loop_terminates map_to_list true [4; 3; 2; 6; 8] [5; 4; 3; 2; 9] 5 []).
  - intros m. reflexivity.
  - simpl. lia.
  - simpl. lia.
Defined.

Lemma converged_labels_minimal_witness :
  ∃ st,
    main_loop map_to_list 2 true (initial [4; 3; 2; 6; 8] [5; 4; 3; 2; 9] 5 []) =
      Some (CONVERGED, st) ∧
    (∀ x, endpoint [4; 3; 2; 6; 8] [5; 4; 3; 2; 9] 5 x →
       ∃ l, sccs (edges st) !! x = Some l ∧
            connected [4; 3; 2; 6; 8] [5; 4; 3; 2; 9] 5 x l ∧
            ∀ y, connected [4; 3; 2; 6; 8] [5; 4; 3; 2; 9] 5 x y → l ≤ y) ∧
    (∀ x y, endpoint [4; 3; 2; 6; 8] [5; 4; 3; 2; 9] 5 x →
       endpoint [4; 3; 2; 6; 8] [5; 4; 3; 2; 9] 5 y →
       (sccs (edges st) !! x = sccs (edges st) !! y ↔
        connected [4; 3; 2; 6; 8] [5; 4; 3; 2; 9] 5 x y)).
Proof.
  eexists. split; [vm_compute; reflexivity|].
  apply (converged_labels_minimal map_to_list true
           [4; 3; 2; 6; 8] [5; 4; 3; 2; 9] 5 [] 2).
  - intros m. reflexivity.
  - simpl. lia.
  - simpl. lia.
  - vm_compute. reflexivity.
Defined.

Lemma reverse_map_same_result_witness :
  same_outcome
    (main map_to_list 2 (Config 5 None true) (Os true true true)
       (Table [Row 4 5; Row 3 4; Row 2 3; Row 6 2; Row 8 9] true))
    (main map_to_list 2 (Config 5 None false) (Os true true true)
       (Table [Row 4 5; Row 3 4; Row 2 3; Row 6 2; Row 8 9] true)).
Proof.
  apply (reverse_map_same_result map_to_list map_to_list 2 5 None (Os true true true)
           (Table [Row 4 5; Row 3 4; Row 2 3; Row 6 2; Row 8 9] true)).
  - intros m. reflexivity.
  - intros m. reflexivity.
Defined.

Lemma no_edges_exit_one_witness :
  main map_to_list 0 (Config 2 None false) (Os true true true)
    (Table [Row 7 (-1); Row 4294967296 1] true) = Some (Exit 1 [] ([] ++ [])).
Proof.
  apply (no_edges_exit_one map_to_list 0 (Config 2 None false) (Os true true true)
           (Table [Row 7 (-1); Row 4294967296 1] true) true []).
  - reflexivity.
  - simpl. repeat constructor.
Defined.

Lemma overflow_row_skipped_witness :
  read (Row 7 (-1)) = inr T_OVERFLOW ∧
  read_graph [0; 0] [0; 0] (Table ([Row 5 9] ++ Row 7 (-1) :: []) true) 2 =
    read_graph [0; 0] [0; 0] (Table ([Row 5 9] ++ []) true) 2 ∧
  ∃ out,
    main map_to_list 2 (Config 2 None true) (Os true true true)
      (Table [Row 5 9; Row 7 (-1)] true) = Some (Exit 0 out []) ∧
    out ≡ₚ [(5, 5); (9, 5)].
Proof.
  destruct overflow_row_skipped as (Hneg & Hskip & _ & _ & _ & Hscenario).
  split_and!.
  - apply Hneg. lia.
  - apply Hskip. reflexivity.
  - apply Hscenario; [intros m; reflexivity | lia].
Defined.



(** ** Further properties of the code

    Properties of the single stages of [main], of [read_graph] and of the
    comparison program, read off the source. *)

Section Stages.
Variable order : gmap N N → list (N * N).
Hypothesis order_perm : ∀ m, order m ≡ₚ map_to_list m.

(** A resolved merge set, whose targets are no sources, is left as it is by
    another pass. *)
Lemma resolve_settled (m : gmap N N) :
  (∀ s t, m !! s = Some t → m !! t = None) → ∀ ks, resolve ks m = Some m.
Proof.
  intros Hm. induction ks as [|s ks IH]; [done|]. simpl.
  assert (resolve_entry m s = Some m) as ->; [|done].
  unfold resolve_entry. destruct (m !! s) as [v|] eqn:Hs; [|done].
  destruct (size m) as [|f] eqn:Hsize.
  { apply map_size_empty_iff in Hsize. by rewrite Hsize, lookup_empty in Hs. }
  simpl. by rewrite (Hm _ _ Hs).
Qed.

Lemma chase_cyclic (m : gmap N N) :
  (∀ c t, m !! c = Some t → is_Some (m !! t)) →
  ∀ fuel it us, is_Some (m !! it.2) → chase fuel m it us = None.
Proof.
  intros Hm. induction fuel as [|fuel IH]; intros it us [v Hv]; [done|].
  simpl. rewrite Hv. apply IH. simpl. by eapply Hm.
Qed.

(** The diagnostics stay as they are while the loop runs. *)
Lemma main_loop_err urm : ∀ fuel st st',
  head st → main_loop order fuel urm st = Some (CONVERGED, st') → err st' = err st.
Proof.
  induction fuel as [|fuel IH]; intros st st' Hhead Hrun; [done|].
  simpl in Hrun. pose proof Hhead as (Hready & Hidx & Hk).
  destruct (decide (merge (scan_edges (edges st)) = ∅)) as [HM|HM].
  { rewrite iteration_converged in Hrun by done. by simplify_eq. }
  pose proof (head_step order order_perm urm st) as Hstep.
  destruct (iteration_running order order_perm urm st Hready Hidx HM)
    as (M & s2' & _ & _ & _ & Hit & _).
  rewrite Hit in Hrun, Hstep. case_bool_decide; [done|].
  apply IH in Hrun; [done | by apply Hstep].
Qed.
End Stages.

(** X1: after "1. just get all users" the label table holds exactly the
    endpoints of the edges read, each one as its own label. *)
Theorem users_are_endpoints (a1 a2 : list N) (m : nat) (x l : N) :
  get_users a1 a2 m !! x = Some l ↔
  l = x ∧ ∃ p, (p < m)%nat ∧ (x = a1 !!! p ∨ x = a2 !!! p).
Proof.
  destruct (get_users_spec a1 a2 m) as [Hc Hl]. split; [apply Hl|].
  intros (-> & p & Hp & Hx). destruct (Hc p Hp) as [[l1 H1] [l2 H2]].
  destruct Hx as [->| ->].
  - by destruct (Hl _ _ H1) as [-> _].
  - by destruct (Hl _ _ H2) as [-> _].
Qed.

(** X2: the scan of one round only drops edges whose two endpoints carry the
    same label: every edge live afterwards was live before, every edge live
    before is still live or joins two equal labels; the number of live edges
    does not grow, the arrays keep their lengths and the label table is as
    before. *)
Theorem scan_drops_redundant_edges (e : scan_state) :
  ready e →
  (n (scan_edges e) ≤ n e)%nat ∧
  length (u1 (scan_edges e)) = length (u1 e) ∧
  length (u2 (scan_edges e)) = length (u2 e) ∧
  sccs (scan_edges e) = sccs e ∧
  (∀ p, (p < n (scan_edges e))%nat →
     ∃ q, (q < n e)%nat ∧
       edge_at (u1 (scan_edges e)) (u2 (scan_edges e)) p = edge_at (u1 e) (u2 e) q) ∧
  (∀ q, (q < n e)%nat →
     (∃ p, (p < n (scan_edges e))%nat ∧
        edge_at (u1 e) (u2 e) q = edge_at (u1 (scan_edges e)) (u2 (scan_edges e)) p) ∨
     lab (sccs e) (u1 e !!! q) = lab (sccs e) (u2 e !!! q)).
Proof.
  intros Hready.
  destruct (scan_edges_spec e Hready) as (_ & Hs & Hn & H1 & H2 & [Ha Hb] & _).
  by split_and!.
Qed.

(** X3: after the scan every live edge joins two different labels, and the
    merge set maps a label [s] to [t] exactly when [t] is the least label
    that a live edge joins with the larger label [s]. *)
Theorem merge_is_minimum (e : scan_state) :
  ready e →
  (∀ p, (p < n (scan_edges e))%nat →
     lab (sccs e) (u1 (scan_edges e) !!! p) ≠ lab (sccs e) (u2 (scan_edges e) !!! p)) ∧
  ∀ s t, merge (scan_edges e) !! s = Some t ↔
    (∃ p, (p < n (scan_edges e))%nat ∧
       lab (sccs e) (u1 (scan_edges e) !!! p) `max`
         lab (sccs e) (u2 (scan_edges e) !!! p) = s ∧
       lab (sccs e) (u1 (scan_edges e) !!! p) `min`
         lab (sccs e) (u2 (scan_edges e) !!! p) = t) ∧
    (∀ p, (p < n (scan_edges e))%nat →
       lab (sccs e) (u1 (scan_edges e) !!! p) `max`
         lab (sccs e) (u2 (scan_edges e) !!! p) = s →
       t ≤ lab (sccs e) (u1 (scan_edges e) !!! p) `min`
             lab (sccs e) (u2 (scan_edges e) !!! p)).
Proof.
  intros Hready.
  destruct (scan_edges_spec e Hready) as (_ & _ & _ & _ & _ & _ & [Ha Hb]).
  split; [intros p Hp; by apply Ha|].
  intros s t. split.
  - intros Hs. destruct (Hb s t Hs) as (Hlt & p & Hp & Hor). split.
    + exists p. split; [done|]. lia.
    + intros q Hq Hmax. destruct (Ha q Hq) as (_ & t' & Ht' & Hle).
      rewrite Hmax in Ht'. by simplify_eq.
  - intros [(p & Hp & Hmax & Hmin) Hleast].
    destruct (Ha p Hp) as (Hne & t' & Ht' & Hle). rewrite Hmax, Hmin in *.
    destruct (Hb s t' Ht') as (Hlt & q & Hq & Hor).
    assert (t ≤ t'); [|assert (t' = t) as -> by lia; done].
    specialize (Hleast q Hq). lia.
Qed.

(** X4: the chain resolution gives the same resolved merge set in whatever
    order the entries are met, and it ends. *)
Theorem resolve_any_order (M : gmap N N) (ks ks' : list N) :
  downward M →
  (∀ s, is_Some (M !! s) → s ∈ ks) → (∀ s, is_Some (M !! s) → s ∈ ks') →
  is_Some (resolve ks M) ∧ resolve ks M = resolve ks' M.
Proof.
  intros Hd Hks Hks'.
  destruct (resolve_correct M ks Hd Hks) as (m & Hr & Hdom & Hm).
  destruct (resolve_correct M ks' Hd Hks') as (m' & Hr' & Hdom' & Hm').
  rewrite Hr, Hr'. split; [by eexists|]. f_equal.
  by eapply resolved_unique.
Qed.

(** X5: a second chain-resolution pass, in any order, changes nothing. *)
Theorem resolve_twice (M m : gmap N N) (ks ks' : list N) :
  downward M → (∀ s, is_Some (M !! s) → s ∈ ks) →
  resolve ks M = Some m → resolve ks' m = Some m.
Proof.
  intros Hd Hks Hr.
  destruct (resolve_correct M ks Hd Hks) as (m' & Hr' & _ & Hm).
  assert (m' = m) as -> by congruence.
  apply resolve_settled. intros s t Hs. by destruct (Hm s t Hs).
Qed.

(** X6: on a merge set in which every target is again a source, the chain
    loop of a pass that meets a source never finds the end of the chain. *)
Theorem resolve_cyclic_never_ends (m : gmap N N) (ks : list N) (s : N) :
  (∀ c t, m !! c = Some t → is_Some (m !! t)) →
  is_Some (m !! s) → s ∈ ks → resolve ks m = None.
Proof.
  intros Hm Hs. induction ks as [|c ks IH]; intros Hin.
  { by apply elem_of_nil in Hin. }
  simpl. unfold resolve_entry at 1.
  destruct (m !! c) as [v|] eqn:Hc.
  - rewrite chase_cyclic; [done | done |]. simpl. by eapply Hm.
  - simpl. apply IH. apply elem_of_cons in Hin as [->|?]; [|done].
    rewrite Hc in Hs. by destruct Hs.
Qed.

(** X7: the [do]-[while] loop of the improved version never ends for a
    merge entry whose two labels are the same: the refiled user is found
    again under the same label. *)
Theorem rehome_same_label_never_ends (fuel : nat) (s : N) (it : nat * (N * N))
    (sccs : gmap N N) (sccs2 : list (N * N)) (k : N) :
  rehome fuel s s it sccs sccs2 k = None.
Proof.
  revert it sccs sccs2 k. induction fuel as [|fuel IH]; intros it sccs sccs2 k; [done|].
  rewrite rehome_unfold.
  assert (mm_find s ((s, it.2.2) :: delete it.1 sccs2) = Some (0%nat, (s, it.2.2))) as ->.
  { unfold mm_find. simpl. by rewrite decide_True. }
  apply IH.
Qed.

(** X8: the first version relabels the whole table through the merge set,
    whatever the order of the loop over the table, counts in [k] the entries
    whose label was a source, and with [use_reverse_map] builds a reverse map
    that files every user once under its new label; without it the reverse
    map stays empty. *)
Theorem first_version_relabels (urm : bool) (M : gmap N N) (es : list (N * N))
    (sccs : gmap N N) (k : N) :
  es ≡ₚ map_to_list sccs →
  ∃ s2',
    relabel_all urm M es sccs [] k =
      (relabel M <$> sccs, s2', Nat.iter (hits M (map_to_list sccs)) incr64 k) ∧
    (if urm then indexed (relabel M <$> sccs) s2' else s2' = []).
Proof. apply relabel_all_table. Qed.

Section Rounds.
Variable order : gmap N N → list (N * N).
Hypothesis order_perm : ∀ m, order m ≡ₚ map_to_list m.

Lemma reaches_target (M : gmap N N) s r : reaches M s r → ∃ c, M !! c = Some r.
Proof. induction 1; eauto. Qed.

(** The loop keeps the users of the table. *)
Lemma main_loop_users urm : ∀ fuel st s st',
  head st → main_loop order fuel urm st = Some (s, st') →
  ∀ x, is_Some (sccs (edges st') !! x) ↔ is_Some (sccs (edges st) !! x).
Proof.
  induction fuel as [|fuel IH]; intros st s st' Hhead Hrun x; [done|].
  simpl in Hrun.
  destruct (iteration order urm st) as [[s1 st1]|] eqn:Hit; [|done].
  destruct (iteration_relabels order order_perm urm st s1 st1 Hhead Hit) as (M & _ & HM).
  assert (is_Some (sccs (edges st1) !! x) ↔ is_Some (sccs (edges st) !! x)) as H1.
  { by rewrite HM, lookup_fmap, fmap_is_Some. }
  destruct s1; simplify_eq; [|done..].
  rewrite <- H1. eapply IH; [|done]. by eapply head_step.
Qed.

(** A round that goes on leaves fewer different labels in the table. *)
Lemma iteration_fewer_labels urm st st' :
  head st → iteration order urm st = Some (RUNNING, st') →
  (size (map_img (SA:=gset N) (sccs (edges st'))) <
   size (map_img (SA:=gset N) (sccs (edges st))))%nat.
Proof.
  intros (Hready & Hidx & Hk) Hit.
  destruct (decide (merge (scan_edges (edges st)) = ∅)) as [HM|HM].
  { rewrite iteration_converged in Hit by done. by simplify_eq. }
  destruct (iteration_running order order_perm urm st Hready Hidx HM)
    as (M & s2' & _ & Hdom & HMres & Hit' & _).
  rewrite Hit' in Hit. case_bool_decide; simplify_eq. simpl.
  destruct (scan_edges_spec _ Hready) as ((_ & _ & Hcl & _) & Hsccs & _ & _ & _ & _ & Hsc).
  simpl in Hcl. rewrite Hsccs in Hcl.
  apply subset_size. split.
  - intros l'. rewrite !elem_of_map_img. intros [x Hx].
    rewrite lookup_fmap in Hx.
    destruct (sccs (edges st) !! x) as [l|] eqn:Hl; [|done]. injection Hx as <-.
    unfold relabel. destruct (M !! l) as [t|] eqn:Ht; simpl; [|by eauto].
    destruct (HMres _ _ Ht) as [_ (c & Hc)%reaches_target].
    destruct Hsc as [_ Hb]. destruct (Hb c t Hc) as (_ & p & Hp & Hor).
    destruct (Hcl p Hp) as [H1%known_lab H2%known_lab].
    destruct Hor as [[<- _]|[_ <-]]; eauto.
  - intros Hsub. apply map_choose in HM as (s & t0 & Hs).
    destruct (scanned_member _ _ _ _ _ s t0 Hsc Hcl Hs) as [x Hx].
    assert (s ∈ map_img (SA:=gset N) (relabel M <$> sccs (edges st))) as Hin.
    { apply Hsub. apply elem_of_map_img. by eauto. }
    apply elem_of_map_img in Hin as [y Hy]. rewrite lookup_fmap in Hy.
    destruct (sccs (edges st) !! y) as [l|] eqn:Hl; [|done]. injection Hy as Hy.
    assert (is_Some (M !! s)) as [ts Hts].
    { apply not_eq_None_Some. rewrite Hdom. by rewrite Hs. }
    unfold relabel in Hy. destruct (M !! l) as [t|] eqn:Ht; simpl in Hy; subst.
    + destruct (HMres _ _ Ht) as [Hnone _]. congruence.
    + congruence.
Qed.

Lemma label_set_size (s : gmap N N) :
  (size (map_img (SA:=gset N) s) ≤ length (map_to_list s))%nat.
Proof.
  rewrite <- (length_fmap snd). unfold size, set_size. simpl.
  apply submseteq_length, NoDup_submseteq; [apply NoDup_elements|].
  intros l Hl. apply elem_of_elements, elem_of_map_img in Hl as [x Hx].
  apply list_elem_of_fmap. exists (x, l). split; [done|].
  by apply elem_of_map_to_list.
Qed.

(** The counter [j] at the end of the loop is the number of rounds that
    went on, and each of them took a label out of the table. *)
Lemma main_loop_rounds urm : ∀ fuel st st',
  head st → j st < 2 ^ 32 →
  main_loop order fuel urm st = Some (CONVERGED, st') →
  ∃ c : nat, j st' = (j st + N.of_nat c) mod 2 ^ 32 ∧
    (c + size (map_img (SA:=gset N) (sccs (edges st'))) ≤
     size (map_img (SA:=gset N) (sccs (edges st))))%nat ∧
    (merge (scan_edges (edges st)) ≠ ∅ → (1 ≤ c)%nat).
Proof.
  induction fuel as [|fuel IH]; intros st st' Hhead Hj Hrun; [done|].
  simpl in Hrun. pose proof Hhead as (Hready & Hidx & Hk).
  destruct (decide (merge (scan_edges (edges st)) = ∅)) as [HM|HM].
  { rewrite iteration_converged in Hrun by done. simplify_eq. simpl.
    destruct (scan_edges_spec _ Hready) as (_ & -> & _).
    exists 0%nat. rewrite N.add_0_r, N.mod_small by done. split_and!; [done..|].
    by intros. }
  pose proof (head_step order order_perm urm st) as Hstep.
  pose proof (iteration_fewer_labels urm st) as Hfewer.
  destruct (iteration_running order order_perm urm st Hready Hidx HM)
    as (M & s2' & _ & _ & _ & Hit & _).
  rewrite Hit in Hrun, Hstep, Hfewer. case_bool_decide; [done|].
  specialize (Hstep _ Hhead eq_refl). specialize (Hfewer _ Hhead eq_refl).
  apply IH in Hrun as (c & Hc & Hsize & _); [|done|].
  2:{ simpl. unfold incr32. apply N.mod_lt. done. }
  simpl in *. exists (S c). split_and!; [|lia|lia].
  rewrite Hc. unfold incr32. rewrite N.Div0.add_mod_idemp_l. f_equal. lia.
Qed.
End Rounds.

(** X9: from edges of [uint32_t] node ids inside the arrays the loop always
    leaves at [merge.size() == 0], never at [k == 0]: the inconsistency
    branch is not reached. *)
Theorem loop_always_converges (order : gmap N N → list (N * N)) (urm : bool)
    (a1 a2 : list N) (m : nat) (err : list diag) :
  (∀ m, order m ≡ₚ map_to_list m) →
  (m ≤ length a1)%nat → (m ≤ length a2)%nat →
  (∀ p, (p < m)%nat → a1 !!! p < 2 ^ 32 ∧ a2 !!! p < 2 ^ 32) →
  ∃ fuel st, ∀ fuel', (fuel ≤ fuel')%nat →
    main_loop order fuel' urm (initial a1 a2 m err) = Some (CONVERGED, st).
Proof.
  intros Hperm H1 H2 Hrange.
  destruct (loop_converges order Hperm urm
              (S (label_sum (sccs (edges (initial a1 a2 m err)))))
              (initial a1 a2 m err)) as [st Hrun];
    [by apply initial_head | by apply initial_in_range | lia |].
  eexists _, st. intros fuel' Hle. by eapply main_loop_more.
Qed.

Ltac by_cases :=
  repeat first [apply Forall_nil_2 | apply Forall_cons_2; [done|]].

Lemma no_inconsistent (l : list diag) :
  Forall (λ d, ∀ c, d ≠ Inconsistent c) l → ∀ c, Inconsistent c ∉ l.
Proof.
  intros Hl c Hin. eapply Forall_forall in Hl; [|exact Hin]. by apply (Hl c).
Qed.

(** X10: the program ends for every setting, every answer of the system
    calls and every input, and it never writes the diagnostic of the
    inconsistency branch. *)
Theorem program_terminates (order : gmap N N → list (N * N))
    (cfg : config) (sys : os) (stdin : table) :
  (∀ m, order m ≡ₚ map_to_list m) →
  ∃ fuel o,
    (∀ fuel', (fuel ≤ fuel')%nat → main order fuel' cfg sys stdin = Some o) ∧
    ∀ c, Inconsistent c ∉ match o with Exit _ _ e => e | Crash e _ => e end.
Proof.
  intros Hperm. unfold main.
  destruct (setup cfg sys) as [o|[mapped e]] eqn:Hsetup.
  { exists 0%nat, o. split; [done|]. apply no_inconsistent.
    unfold setup in Hsetup. case_bool_decide.
    { injection Hsetup as <-. simpl; by_cases. }
    destruct (tmpfn cfg), (open_ok sys), (ftruncate_ok sys), (mmap_ok sys);
      try done; injection Hsetup as <-; simpl; by_cases. }
  assert (Forall (λ d, ∀ c, d ≠ Inconsistent c) e) as He.
  { unfold setup in Hsetup. case_bool_decide; [done|].
    destruct (tmpfn cfg), (open_ok sys), (ftruncate_ok sys), (mmap_ok sys);
      try done; injection Hsetup as <- <-; simpl; by_cases. }
  destruct (buffers (n1 cfg) mapped) as [a1 a2].
  destruct (read_graph a1 a2 stdin (n1 cfg)) as [[[[b1 b2] e'] c]|i] eqn:Hr;
    [|eexists 0%nat, _; split; [done|]; by apply no_inconsistent].
  assert (Forall (λ d, ∀ c, d ≠ Inconsistent c) e') as He'.
  { unfold read_graph in Hr.
    destruct (read_rows _ _ _ _ _) as [[[[x1 x2] i] err']|]; [|done].
    case_bool_decide; injection Hr as <- <- <- <-; simpl; by_cases. }
  case_bool_decide as Hc.
  { eexists 0%nat, _. split; [done|]. apply no_inconsistent.
    simpl. by rewrite Forall_app. }
  pose proof (read_graph_bound _ _ _ _ _ _ _ _ Hr) as [Hb1 Hb2].
  assert (users_in_range (sccs (edges (initial b1 b2 c (e ++ e'))))) as Hrange.
  { apply initial_in_range. unfold read_graph in Hr.
    destruct (read_rows _ _ _ _ _) as [[[[x1 x2] i] err']|] eqn:Hrows; [|done].
    case_bool_decide; simplify_eq.
    eapply read_rows_range; [done|]. intros p Hp. lia. }
  destruct (loop_converges order Hperm (use_reverse_map cfg)
              (S (label_sum (sccs (edges (initial b1 b2 c (e ++ e'))))))
              (initial b1 b2 c (e ++ e'))) as [st' Hrun];
    [by apply initial_head | done | lia |].
  exists (S (label_sum (sccs (edges (initial b1 b2 c (e ++ e')))))), (finish order st').
  split.
  - intros fuel' Hle. by rewrite (main_loop_more order _ _ fuel' _ _ Hrun Hle).
  - apply main_loop_err in Hrun; [|done|by apply initial_head].
    simpl in Hrun. apply no_inconsistent.
    unfold finish. case_bool_decide; rewrite Hrun; rewrite ?Forall_app;
      split_and?; try done; by_cases.
Qed.

(** When every edge read is a self-loop, the first scan leaves the merge
    set empty and the loop is left with [j == 0]. *)
Lemma self_loops_converge (order : gmap N N → list (N * N)) (urm : bool)
    (a1 a2 : list N) (m : nat) (err : list diag) (fuel : nat) :
  (m ≤ length a1)%nat → (m ≤ length a2)%nat →
  (∀ p, (p < m)%nat → a1 !!! p = a2 !!! p) →
  ∃ st, main_loop order (S fuel) urm (initial a1 a2 m err) = Some (CONVERGED, st) ∧
        finish order st = Exit 0 [] (err ++ [ProcessingError]).
Proof.
  intros H1 H2 Hloops.
  destruct (initial_head a1 a2 m err H1 H2) as (Hready & _).
  destruct (scan_edges_spec _ Hready) as (_ & _ & _ & _ & _ & [Ha _] & [_ Hb]).
  assert (merge (scan_edges (edges (initial a1 a2 m err))) = ∅) as HM.
  { apply map_empty. intros s. apply eq_None_not_Some. intros [t Hs].
    destruct (Hb s t Hs) as (Hlt & p & Hp & Hor).
    destruct (Ha p Hp) as (q & Hq & Heq). unfold edge_at in Heq.
    injection Heq as Hq1 Hq2. simpl in Hq, Hq1, Hq2, Hor.
    rewrite Hq1, Hq2, (Hloops q Hq) in Hor. lia. }
  eexists. simpl main_loop. rewrite iteration_converged by done.
  split; [done|]. by unfold finish.
Qed.


Section Input.
Variable order : gmap N N → list (N * N).

(** The reading loop in closed form: the stored rows overwrite the arrays
    from [i] on, whatever ends the loop; a row that finds no slot ends the
    run at the first index outside one of the arrays. *)
Lemma read_rows_stored : ∀ ls ce (i1 i2 : list N) i,
  (i ≤ length i1 `min` length i2)%nat →
  read_rows ls ce i1 i2 i =
    let v := stored_rows ls in
    if bool_decide (i + length v ≤ length i1 `min` length i2)%nat then
      Done (take i i1 ++ v.*1 ++ drop (i + length v) i1,
            take i i2 ++ v.*2 ++ drop (i + length v) i2,
            (i + length v)%nat, last_error ls ce)
    else Fault (length i1 `min` length i2).
Proof.
  induction ls as [|l ls IH]; intros ce i1 i2 i Hi; simpl.
  { rewrite bool_decide_eq_true_2 by lia. rewrite Nat.add_0_r.
    by rewrite !take_drop. }
  destruct (read l) as [[a b]|e] eqn:Hl.
  - simpl. case_bool_decide as Hin.
    + rewrite IH by (rewrite !length_insert; lia).
      rewrite !length_insert. cbn [length fmap list_fmap plus].
      rewrite Nat.add_succ_r. case_bool_decide; [|done].
      rewrite !drop_insert_lt by lia.
      rewrite (take_S_r _ _ a), (take_S_r _ _ b)
        by (apply list_lookup_insert_eq; lia).
      rewrite !take_insert_ge by lia. by rewrite <- !app_assoc.
    + rewrite bool_decide_eq_false_2 by lia. f_equal. lia.
  - destruct e; simpl; try apply IH; try done.
    all: rewrite bool_decide_eq_true_2 by lia.
    all: by rewrite Nat.add_0_r, !take_drop.
Qed.


(** For [n1] below 2^61 the size [s] does not wrap, and [u1], [u2] have
    [n1] words each. *)
Lemma buffers_length cap :
  cap < 2 ^ 61 →
  buffers cap true = (replicate (N.to_nat cap) 0, replicate (N.to_nat cap) 0).
Proof.
  intros Hcap. unfold buffers.
  rewrite N.mod_small by lia.
  replace (N.to_nat (cap * 2 * 4 / 4)) with (N.to_nat cap + N.to_nat cap)%nat.
  - rewrite take_replicate, drop_replicate. f_equal; f_equal; lia.
  - replace (cap * 2 * 4) with ((cap * 2) * 4) by lia.
    rewrite N.div_mul by done. lia.
Qed.

Lemma rows_edge_at (v : list (N * N)) (r1 r2 : list N) p ab :
  v !! p = Some ab → edge_at (v.*1 ++ r1) (v.*2 ++ r2) p = ab.
Proof.
  intros Hp. unfold edge_at. destruct ab as [a b].
  f_equal; apply list_lookup_total_correct; rewrite lookup_app_l
    by (rewrite length_fmap; by eapply lookup_lt_Some);
    by rewrite list_lookup_fmap, Hp.
Qed.




(** With the buffers in place and room for every stored row, [main] enters
    the loop with the stored rows as its edges. *)
Lemma main_reads fuel cfg sys stdin :
  setup cfg sys = inr (true, []) → n1 cfg < 2 ^ 61 →
  last_error (lines stdin) (clean_end stdin) = T_EOF →
  (0 < length (stored_rows (lines stdin)) ≤ N.to_nat (n1 cfg))%nat →
  main order fuel cfg sys stdin =
    '(_, st) ← main_loop order fuel (use_reverse_map cfg)
                  (initial
                     ((stored_rows (lines stdin)).*1 ++
                      drop (length (stored_rows (lines stdin)))
                        (replicate (N.to_nat (n1 cfg)) 0))
                     ((stored_rows (lines stdin)).*2 ++
                      drop (length (stored_rows (lines stdin)))
                        (replicate (N.to_nat (n1 cfg)) 0))
                     (length (stored_rows (lines stdin))) []);
    Some (finish order st).
Proof.
  intros Hsetup Hcap Heof Hlen. unfold main. rewrite Hsetup.
  rewrite buffers_length by done. unfold read_graph.
  rewrite read_rows_stored by (simpl; lia). simpl.
  rewrite !length_replicate, bool_decide_eq_true_2 by lia.
  rewrite Heof, bool_decide_eq_false_2 by (by intros []).
  by rewrite bool_decide_eq_false_2 by lia.
Qed.
End Input.

(** X11: [read_graph] in closed form.  The rows in range, up to the first
    line that is neither a row nor out of range, are stored in input order
    from index 0 on, and the slots behind them are left as they were; a
    reading error returns 0 and leaves the rows stored; a row that finds no
    slot is stored outside the arrays. *)
Theorem read_graph_stores (i1 i2 : list N) (f : table) (cap : N) :
  read_graph i1 i2 f cap =
    let v := stored_rows (lines f) in
    let ok := bool_decide (last_error (lines f) (clean_end f) = T_EOF) in
    if bool_decide (length v ≤ length i1 `min` length i2)%nat then
      Done (v.*1 ++ drop (length v) i1, v.*2 ++ drop (length v) i2,
            if ok then [] else [ReadFailed],
            if ok then length v else 0%nat)
    else Fault (length i1 `min` length i2).
Proof.
  unfold read_graph. rewrite read_rows_stored by lia. simpl.
  case_bool_decide; [|done].
  destruct (last_error (lines f) (clean_end f)); by simpl.
Qed.


(** X13: on an input that is read to its end, fits the buffers and holds
    self-loops only (and at least one), the loop is left in its first round
    with [j == 0]: the program writes the error line and no table, and
    returns 0. *)
Theorem only_self_loops (order : gmap N N → list (N * N)) (fuel : nat)
    (cfg : config) (sys : os) (stdin : table) :
  setup cfg sys = inr (true, []) → n1 cfg < 2 ^ 61 →
  last_error (lines stdin) (clean_end stdin) = T_EOF →
  (0 < length (stored_rows (lines stdin)) ≤ N.to_nat (n1 cfg))%nat →
  (∀ x y, (x, y) ∈ stored_rows (lines stdin) → x = y) →
  main order (S fuel) cfg sys stdin = Some (Exit 0 [] [ProcessingError]).
Proof.
  intros Hsetup Hcap Heof Hlen Hloops.
  rewrite (main_reads order (S fuel) cfg sys stdin Hsetup Hcap Heof Hlen).
  set (v := stored_rows (lines stdin)) in *.
  set (r := drop (length v) (replicate (N.to_nat (n1 cfg)) 0)) in *.
  destruct (self_loops_converge order (use_reverse_map cfg) (v.*1 ++ r) (v.*2 ++ r)
              (length v) [] fuel) as (st & -> & Hfin).
  - rewrite length_app, length_fmap. lia.
  - rewrite length_app, length_fmap. lia.
  - intros p Hp. destruct (lookup_lt_is_Some_2 v p Hp) as [[a b] Hab].
    pose proof (rows_edge_at v r r p _ Hab) as [= -> ->].
    eapply Hloops, list_elem_of_lookup_2, Hab.
  - simpl. by rewrite Hfin.
Qed.

(** X14: with the buffers in place, an input with more rows in range than
    [-N] announces is not cut off and not refused: the row after the last
    slot of [u1] is stored behind the array, whatever follows it. *)
Theorem rows_past_capacity (order : gmap N N → list (N * N)) (fuel : nat)
    (cfg : config) (sys : os) (stdin : table) :
  setup cfg sys = inr (true, []) → n1 cfg < 2 ^ 61 →
  (N.to_nat (n1 cfg) < length (stored_rows (lines stdin)))%nat →
  main order fuel cfg sys stdin = Some (Crash [] (N.to_nat (n1 cfg))).
Proof.
  intros Hsetup Hcap Hlen. unfold main. rewrite Hsetup.
  rewrite buffers_length by done. unfold read_graph.
  rewrite read_rows_stored by (simpl; lia). simpl.
  rewrite !length_replicate, bool_decide_eq_false_2 by lia.
  do 2 f_equal. lia.
Qed.

(** X15: after a failed [mmap] of the temporary file the run goes on without
    buffers: the first row in range is stored through the invalid pointer,
    and only an input without such a row reaches [return 1]. *)
Theorem failed_mapping_run (order : gmap N N → list (N * N)) (fuel : nat)
    (cfg : config) (sys : os) (stdin : table) :
  setup cfg sys = inr (false, [MapFileFailed]) →
  main order fuel cfg sys stdin =
    if bool_decide (stored_rows (lines stdin) = [])
    then Some (Exit 1 []
                 (MapFileFailed ::
                  if bool_decide (last_error (lines stdin) (clean_end stdin) = T_EOF)
                  then [] else [ReadFailed]))
    else Some (Crash [MapFileFailed] 0).
Proof.
  intros Hsetup. unfold main. rewrite Hsetup. unfold buffers, read_graph.
  rewrite read_rows_stored by (simpl; lia). simpl.
  destruct (stored_rows (lines stdin)) as [|ab v]; simpl; [|done].
  destruct (last_error (lines stdin) (clean_end stdin)); by simpl.
Qed.

Section ReverseMap.
Variable order : gmap N N → list (N * N).
Hypothesis order_perm : ∀ m, order m ≡ₚ map_to_list m.

(** A round that goes on builds the reverse map with [use_reverse_map], or
    keeps it in step with the table; without it the map stays empty. *)
Lemma iteration_reverse_map urm st st' :
  head st → (urm = false → sccs2 st = []) →
  iteration order urm st = Some (RUNNING, st') →
  (if urm return Prop
   then indexed (sccs (edges st')) (sccs2 st') else sccs2 st' = []) ∧
  (sccs2 st ≠ [] → length (sccs2 st') = length (sccs2 st)).
Proof.
  intros (Hready & Hidx & Hk) Hurm Hit.
  destruct (decide (merge (scan_edges (edges st)) = ∅)) as [HM|HM].
  { rewrite iteration_converged in Hit by done. by simplify_eq. }
  destruct (scan_edges_spec _ Hready) as (Hready' & Hsccs & _ & _ & _ & Hkept & Hsc).
  pose proof (scanned_downward _ _ _ _ _ Hsc) as Hdown.
  destruct (resolve_correct _ (order (merge (scan_edges (edges st)))).*1 Hdown)
    as (m & Hres & Hdom & Hm); [by apply order_keys|].
  unfold iteration in Hit.
  rewrite bool_decide_eq_false_2 in Hit by by rewrite map_size_empty_iff.
  rewrite Hres, Hsccs in Hit. simpl in Hit.
  case_bool_decide as Hlen.
  - apply nil_length_inv in Hlen.
    destruct (relabel_all_table urm m (order (sccs (edges st))) (sccs (edges st)) (k st))
      as (s2' & Hr & Hs2'); [apply order_perm|].
    rewrite Hlen, Hr in Hit. simpl in Hit.
    case_bool_decide; simplify_eq. simpl. by split.
  - destruct Hidx as [Hnil|Hidx]; [by rewrite Hnil in Hlen|].
    destruct urm; [|by rewrite Hurm in Hlen].
    destruct (relabel_indexed_table m (order m) (sccs (edges st)) (sccs2 st) (k st) (err st))
      as (s2' & Hr & Hidx' & Hlen'); [apply order_perm| |done|].
    { intros s t Hst. destruct (Hm s t Hst) as [Ht Hreach].
      split_and!; [|done|].
      - apply (reaches_lt _ _ _ Hdown) in Hreach. lia.
      - destruct (merge (scan_edges (edges st)) !! s) as [t0|] eqn:Hs.
        2:{ apply Hdom in Hs. congruence. }
        destruct Hready' as (_ & _ & Hcl & _). simpl in Hcl. rewrite Hsccs in Hcl.
        by eapply scanned_member. }
    rewrite Hr in Hit. simpl in Hit.
    case_bool_decide; simplify_eq. simpl. by split.
Qed.

Lemma rounds_reverse_map (urm : bool) : ∀ c st st',
  head st → (if urm return Prop then index_ok st else sccs2 st = []) →
  rounds order (S c) urm st = Some st' →
  if urm return Prop then indexed (sccs (edges st')) (sccs2 st') else sccs2 st' = [].
Proof.
  induction c as [|c IH]; intros st st' Hhead Hs2 Hr; simpl in Hr.
  - destruct (iteration order urm st) as [[[] st1]|] eqn:Hit; try done.
    simplify_eq. eapply iteration_reverse_map; [done| |done].
    intros ->. done.
  - destruct (iteration order urm st) as [[[] st1]|] eqn:Hit; try done.
    apply (IH st1); [by eapply head_step| |done].
    destruct (iteration_reverse_map urm st st1) as [Hst1 _]; [done| |done|].
    { intros ->. done. }
    destruct urm; [by right | done].
Qed.
End ReverseMap.

(** X16: with [-r], from the end of the first round on the reverse map
    files every user of the table exactly once, under its current label;
    without [-r] it stays empty, so that every round takes the first
    version. *)
Theorem reverse_map_in_step (order : gmap N N → list (N * N)) (urm : bool)
    (a1 a2 : list N) (m : nat) (err : list diag) (c : nat) (st : loop_state) :
  (∀ m, order m ≡ₚ map_to_list m) →
  (m ≤ length a1)%nat → (m ≤ length a2)%nat →
  rounds order (S c) urm (initial a1 a2 m err) = Some st →
  if urm return Prop
  then NoDup (sccs2 st) ∧ ∀ l x, (l, x) ∈ sccs2 st ↔ sccs (edges st) !! x = Some l
  else sccs2 st = [].
Proof.
  intros Hperm H1 H2 Hr.
  pose proof (rounds_reverse_map order Hperm urm c _ st
                (initial_head a1 a2 m err H1 H2)) as Hmap.
  destruct urm; apply Hmap; try done. by left.
Qed.

(** ** The hash *)

Section Hash.
(** [(x >> 16) ^ x] can be undone from the top bits downwards. *)
Lemma xorshift_inj (x y : N) :
  N.lxor (N.shiftr x 16) x = N.lxor (N.shiftr y 16) y → x = y.
Proof.
  intros Heq. apply N.bits_inj. intros i.
  set (B := N.max (N.log2 x) (N.log2 y) + 1).
  assert (∀ c : nat, ∀ i, B ≤ i + 16 * N.of_nat c → N.testbit x i = N.testbit y i) as Hbits.
  { intros c. induction c as [|c IH]; intros i' Hi.
    - rewrite !N.bits_above_log2; [done|unfold B in Hi; lia..].
    - assert (N.testbit x (i' + 16) = N.testbit y (i' + 16)) as Hhigh by (apply IH; lia).
      apply (f_equal (λ z, N.testbit z i')) in Heq.
      rewrite !N.lxor_spec, !N.shiftr_spec', Hhigh in Heq.
      by destruct (N.testbit y (i' + 16)), (N.testbit x i'), (N.testbit y i'). }
  apply (Hbits (N.to_nat B)). lia.
Qed.

(** The multiplier is odd; 0xf9e122f8119de1f3 is its inverse modulo 2^64. *)
Lemma multiply_inj (x y : N) :
  x < 2 ^ 64 → y < 2 ^ 64 →
  (x * 0x45d9f3b) mod 2 ^ 64 = (y * 0x45d9f3b) mod 2 ^ 64 → x = y.
Proof.
  intros Hx Hy Heq.
  assert (∀ z, z < 2 ^ 64 →
            ((z * 0x45d9f3b) mod 2 ^ 64 * 0xf9e122f8119de1f3) mod 2 ^ 64 = z) as Hinv.
  { intros z Hz. rewrite N.Div0.mul_mod_idemp_l, <- N.mul_assoc.
    rewrite <- N.Div0.mul_mod_idemp_r.
    change ((0x45d9f3b * 0xf9e122f8119de1f3) mod 2 ^ 64) with 1.
    rewrite N.mul_1_r. by apply N.mod_small. }
  by rewrite <- (Hinv x Hx), <- (Hinv y Hy), Heq.
Qed.

Lemma xorshift_lt (x : N) c : x < 2 ^ c → N.lxor (N.shiftr x 16) x < 2 ^ c.
Proof.
  intros Hx.
  destruct (decide (N.lxor (N.shiftr x 16) x = 0)) as [->|Hne]; [lia|].
  apply N.log2_lt_pow2; [lia|].
  eapply N.le_lt_trans; [apply N.log2_lxor|].
  destruct (decide (x = 0)) as [->|Hx0]; [done|].
  apply N.log2_lt_pow2 in Hx; [|lia].
  assert (N.log2 (N.shiftr x 16) ≤ N.log2 x); [|lia].
  rewrite N.log2_shiftr. lia.
Qed.
End Hash.

(** X17: the hash of the maps sends different node ids to different values
    of [size_t]. *)
Theorem ch32_no_collision (x y : N) :
  x < 2 ^ 32 → y < 2 ^ 32 → x ≠ y → ch32 x < 2 ^ 64 ∧ ch32 x ≠ ch32 y.
Proof.
  intros Hx Hy Hne. unfold ch32. split.
  - apply xorshift_lt, N.mod_lt. lia.
  - intros Heq. apply Hne.
    apply xorshift_inj in Heq.
    apply multiply_inj in Heq; [|apply xorshift_lt, N.mod_lt; lia..].
    apply xorshift_inj in Heq.
    apply multiply_inj in Heq; [|apply xorshift_lt; lia..].
    by apply xorshift_inj in Heq.
Qed.

(** ** The command line: proofs *)

Section CommandLine.
Variable strtoul : string → N.

Lemma parse_args_None : ∀ args cfg u,
  parse_args strtoul args cfg u = None ↔
  ∃ a, last args = Some a ∧ flag a = Some "N"%char.
Proof.
  induction args as [|a args IH]; intros cfg u.
  { simpl. split; [done | by intros (a & ? & _)]. }
  assert ((∃ b, last (a :: args) = Some b ∧ flag b = Some "N"%char) ↔
          (args = [] ∧ flag a = Some "N"%char) ∨
          (∃ b, last args = Some b ∧ flag b = Some "N"%char)) as ->.
  { destruct args as [|v args]; simpl.
    - split; [intros (b & [= <-] & Hb); by left|].
      intros [[_ Ha]|(b & ? & _)]; [by exists a | done].
    - split; [intros (b & Hb); right; by exists b|].
      intros [[? _]|Hb]; [done | exact Hb]. }
  simpl. destruct (flag a) as [c|] eqn:Hf.
  2:{ rewrite IH. split; [by right | by intros [[_ ?]|?]]. }
  repeat case_decide; subst.
  - destruct args as [|v args]; [split; [by left | done]|].
    rewrite IH. split; [by right | by intros [[? _]|?]].
  - rewrite IH. split; [by right | intros [[_ [=]]|?]; done].
  - rewrite IH. split; [by right | intros [[_ [=]]|?]; done].
  - rewrite IH. split; [by right | intros [[_ [=]]|?]; done].
Qed.

(** What the loop does to [use_reverse_map] and to the list of unknown
    parameters. *)
Lemma parse_args_flags : ∀ args cfg u cfg' u',
  parse_args strtoul args cfg u = Some (cfg', u') →
  (use_reverse_map cfg' = true ↔
   use_reverse_map cfg = true ∨ ∃ a, a ∈ args ∧ flag a = Some "r"%char) ∧
  u' = u ++ filter unknown_parameter args.
Proof.
  induction args as [|a args IH]; intros cfg u cfg' u' Hp; simpl in Hp.
  { simplify_eq. rewrite app_nil_r. split; [|done].
    split; [by left | intros [?|(a & ?%elem_of_nil & _)]; done]. }
  assert (∀ P : Prop, (P ∨ ∃ b, b ∈ a :: args ∧ flag b = Some "r"%char) ↔
            ((P ∨ flag a = Some "r"%char) ∨ ∃ b, b ∈ args ∧ flag b = Some "r"%char))
    as Hex.
  { intros P. split.
    - intros [?|(b & [->|Hb]%elem_of_cons & Hf)]; eauto.
    - intros [[?|?]|(b & Hb & Hf)]; eauto.
      + right. exists a. split; [left | done].
      + right. exists b. split; [by right | done]. }
  rewrite Hex, filter_cons.
  destruct (flag a) as [c|] eqn:Hf.
  2:{ rewrite decide_False by (unfold unknown_parameter; rewrite Hf; tauto).
      apply IH in Hp as [-> ->]. split; [|done].
      split; [intros [?|?]; auto | intros [[?|?]|?]; auto; done]. }
  destruct (decide (c = "N"%char)) as [->|HN].
  { rewrite decide_False by (unfold unknown_parameter; rewrite Hf; by intros (? & ? & ?)).
    destruct args as [|v args]; [done|]. apply IH in Hp as [-> ->]. simpl.
    split; [|done].
    split; [intros [?|?]; auto | intros [[?|?]|?]; auto; done]. }
  destruct (decide (c = "t"%char)) as [->|Ht].
  { rewrite decide_False by (unfold unknown_parameter; rewrite Hf; by intros (? & ? & ?)).
    apply IH in Hp as [-> ->]. simpl. split; [|done].
    split; [intros [?|?]; auto | intros [[?|?]|?]; auto; done]. }
  destruct (decide (c = "r"%char)) as [->|Hr].
  { rewrite decide_False by (unfold unknown_parameter; rewrite Hf; by intros (? & ? & ?)).
    apply IH in Hp as [-> ->]. simpl. split; [|done].
    split; [intros [?|?]; auto | intros [[?|?]|?]; auto]. }
  rewrite decide_True by (unfold unknown_parameter; by rewrite Hf).
  apply IH in Hp as [-> ->]. rewrite <- app_assoc. simpl. split; [|done].
  split; [intros [?|?]; auto | intros [[?|?]|?]; auto; congruence].
Qed.

(** Without an argument for [-N] the buffer size stays as it was, without
    one for [-t] the file name. *)
Lemma parse_args_keeps : ∀ args cfg u cfg' u',
  parse_args strtoul args cfg u = Some (cfg', u') →
  (Forall (λ a, flag a ≠ Some "N"%char) args → n1 cfg' = n1 cfg) ∧
  (Forall (λ a, flag a ≠ Some "t"%char) args → tmpfn cfg' = tmpfn cfg).
Proof.
  induction args as [|a args IH]; intros cfg u cfg' u' Hp; simpl in Hp.
  { by simplify_eq. }
  rewrite !Forall_cons.
  destruct (flag a) as [c|] eqn:Hf.
  2:{ apply IH in Hp as [HN Ht]. split; intros [_ ?]; auto. }
  repeat case_decide; subst.
  - destruct args as [|v args]; [done|]. apply IH in Hp as [HN Ht].
    split; intros [? ?]; [done | by rewrite Ht].
  - apply IH in Hp as [HN Ht]. split; intros [? ?]; [by rewrite HN | done].
  - apply IH in Hp as [HN Ht]. split; intros [? ?]; [by rewrite HN | by rewrite Ht].
  - apply IH in Hp as [HN Ht]. split; intros [? ?]; auto.
Qed.

(** The last [-N] and the last [-t] give the value, which is the argument
    that follows, whatever that is. *)
Lemma parse_args_last : ∀ args cfg u cfg' u' pre a post,
  parse_args strtoul args cfg u = Some (cfg', u') →
  args = pre ++ a :: post →
  (flag a = Some "N"%char → Forall (λ b, flag b ≠ Some "N"%char) post →
   ∃ v, list.head post = Some v ∧ n1 cfg' = strtoul v) ∧
  (flag a = Some "t"%char → Forall (λ b, flag b ≠ Some "t"%char) post →
   tmpfn cfg' = list.head post).
Proof.
  induction args as [|a0 args IH]; intros cfg u cfg' u' pre a post Hp Hargs.
  { by destruct pre. }
  destruct pre as [|p pre]; simplify_eq/=.
  - (* the option is the first argument *)
    split; intros Hf Hpost; rewrite Hf in Hp.
    + rewrite decide_True in Hp by done.
      destruct post as [|v post]; [done|].
      apply parse_args_keeps in Hp as [HN _]. exists v. split; [done|].
      by rewrite HN.
    + rewrite decide_False, decide_True in Hp by done.
      apply parse_args_keeps in Hp as [_ Ht]. by rewrite Ht.
  - (* it comes later *)
    destruct (flag p) as [c|] eqn:Hf; [|by eapply IH].
    repeat case_decide; subst; try by eapply IH.
    destruct (pre ++ a :: post) as [|v rest] eqn:Hrest; [done|].
    rewrite <- Hrest in *. by eapply IH.
Qed.
End CommandLine.

(** X18: the loop over the arguments has a defined result unless the last
    argument is a [-N] option: then [strtoul] is called on the null pointer
    [argv[argc]]. *)
Theorem last_argument_capacity (strtoul : string → N) (args : list string) :
  is_Some (parse_args strtoul args defaults []) ↔
  ∀ a, last args = Some a → flag a ≠ Some "N"%char.
Proof.
  rewrite <- not_eq_None_Some, parse_args_None. split.
  - intros Hno a Ha Hf. apply Hno. by exists a.
  - intros Hall (a & Ha & Hf). by apply (Hall a).
Qed.

(** X19: every argument is looked at as an option, the value of a [-N] or
    [-t] before it included: [use_reverse_map] is set exactly when some
    argument begins with "-r", and the arguments reported as unknown are,
    in their order, those that begin with '-' and go on with another
    character than N, t and r. *)
Theorem options_anywhere (strtoul : string → N) (args : list string)
    (cfg : config) (u : list string) :
  parse_args strtoul args defaults [] = Some (cfg, u) →
  (use_reverse_map cfg = true ↔ ∃ a, a ∈ args ∧ flag a = Some "r"%char) ∧
  u = filter unknown_parameter args.
Proof.
  intros Hp. apply parse_args_flags in Hp as [Hr ->]. split; [|done].
  rewrite Hr. simpl. split; [by intros [?|?] | by right].
Qed.

(** X20: of several [-N] or [-t] options the last one counts, and its value
    is the argument behind it, whatever that is; for a last [-t] at the end
    of the command line [tmpfn] is 0.  Without [-N] the size stays 0, and
    without [-t] there is no file name. *)
Theorem last_option_counts (strtoul : string → N) (args : list string)
    (cfg : config) (u : list string) :
  parse_args strtoul args defaults [] = Some (cfg, u) →
  (∀ pre a post, args = pre ++ a :: post →
     (flag a = Some "N"%char → Forall (λ b, flag b ≠ Some "N"%char) post →
      ∃ v, list.head post = Some v ∧ n1 cfg = strtoul v) ∧
     (flag a = Some "t"%char → Forall (λ b, flag b ≠ Some "t"%char) post →
      tmpfn cfg = list.head post)) ∧
  (Forall (λ a, flag a ≠ Some "N"%char) args → n1 cfg = 0) ∧
  (Forall (λ a, flag a ≠ Some "t"%char) args → tmpfn cfg = None).
Proof.
  intros Hp. split.
  - intros pre a post Hargs. by eapply parse_args_last.
  - by apply parse_args_keeps in Hp.
Qed.

(** X21: a command line without a [-N] option is read to its end, and the
    program then returns 1 after "no buffer size specified", whatever the
    other options, the system and the input are. *)
Theorem no_buffer_size (strtoul : string → N) (args : list string) :
  Forall (λ a, flag a ≠ Some "N"%char) args →
  ∃ cfg u, parse_args strtoul args defaults [] = Some (cfg, u) ∧
    ∀ order fuel sys stdin,
      main order fuel cfg sys stdin = Some (Exit 1 [] [NoBufferSize]).
Proof.
  intros Hno.
  destruct (parse_args strtoul args defaults []) as [[cfg u]|] eqn:Hp.
  - exists cfg, u. split; [done|]. intros order fuel sys stdin.
    apply parse_args_keeps in Hp as [HN _]. specialize (HN Hno).
    unfold main, setup. by rewrite HN.
  - apply parse_args_None in Hp as (a & Ha & Hf).
    apply last_Some in Ha as [pre ->].
    apply Forall_app in Hno as [_ Hno]. apply Forall_inv in Hno. done.
Qed.

(** ** sccs_compare: proofs *)

Section Comparison.
Variable files : string → option table.
Variable stdin : table.
Variable sort : (N * N → N * N → bool) → list (N * N) → list (N * N).

(** The reading loop in closed form: the rows up to the first line that is
    not a row in range. *)
Lemma read_pairs_spec : ∀ ls ce acc l e,
  sccs_compare.read_pairs ls ce acc = (l, e) →
  ∃ rows, l = acc ++ rows ∧
    Forall (λ xy, xy.1 < 2 ^ 32 ∧ xy.2 < 2 ^ 32) rows ∧
    (e = T_EOF ↔ ce = true ∧ Forall2 (λ l xy, read l = inl xy) ls rows).
Proof.
  induction ls as [|a ls IH]; intros ce acc l e Hr; simpl in Hr.
  { simplify_eq. exists []. rewrite app_nil_r. split_and!; [done..|].
    destruct ce; simpl; split; try done; by intros [? _]. }
  destruct (read a) as [[x y]|e'] eqn:Ha.
  - apply IH in Hr as (rows & -> & Hrange & He). exists ((x, y) :: rows).
    rewrite <- app_assoc. split_and!; [done| |].
    + apply Forall_cons. split; [by eapply read_in_range | done].
    + rewrite He. split; intros [? HF]; split; try done.
      * by apply Forall2_cons.
      * apply Forall2_cons in HF as [_ ?]. done.
  - simplify_eq. exists []. rewrite app_nil_r. split_and!; [done..|].
    split.
    + intros ->. by destruct (read_not_eof a).
    + intros [_ HF]. inversion HF.
Qed.

Lemma lower_bound_in (s1 : list (N * N)) x y :
  sccs_compare.lower_bound s1 x (λ a b, bool_decide (a.1 < b)) = Some y →
  y ∈ s1 ∧ x ≤ y.1.
Proof.
  unfold sccs_compare.lower_bound. intros Hy.
  apply fmap_Some in Hy as ([i y'] & Hfind & ->).
  apply list_find_Some in Hfind as (Hi & Hy & _). simpl. split.
  - by eapply list_elem_of_lookup_2.
  - apply bool_decide_eq_false in Hy. lia.
Qed.

(** On a vector sorted by its ids, each of them once, the search finds the
    entry of an id that is there. *)
Lemma lower_bound_found (s1 : list (N * N)) x k :
  StronglySorted (λ a b, a.1 ≤ b.1) s1 → NoDup s1.*1 → (x, k) ∈ s1 →
  sccs_compare.lower_bound s1 x (λ a b, bool_decide (a.1 < b)) = Some (x, k).
Proof.
  intros Hsorted Hnd Hin. unfold sccs_compare.lower_bound.
  induction Hsorted as [|a s1 Hsorted IH Hall]; [by apply elem_of_nil in Hin|].
  rewrite fmap_cons in Hnd. apply NoDup_cons in Hnd as [Ha Hnd].
  cbn [list_find]. apply elem_of_cons in Hin as [<-|Hin].
  - simpl. rewrite decide_True; [done|]. apply bool_decide_eq_false. lia.
  - assert (a.1 ≤ x) as Hle.
    { eapply Forall_forall in Hall; [|done]. done. }
    assert (a.1 ≠ x) as Hne.
    { intros <-. apply Ha. apply list_elem_of_fmap. by exists (a.1, k). }
    rewrite decide_False.
    2:{ rewrite bool_decide_eq_false. lia. }
    specialize (IH Hnd Hin).
    destruct (list_find _ s1) as [[i y]|]; simplify_eq/=. done.
Qed.

Lemma compare_short (s1 : list (N * N)) : ∀ rest k l,
  (length (sccs_compare.compare s1 rest k l) ≤ 1)%nat.
Proof.
  induction rest as [|x rest IH]; intros k l; simpl; [lia|].
  destruct (sccs_compare.lower_bound _ _ _); [|simpl; lia].
  repeat case_bool_decide; simpl; try lia; apply IH.
Qed.

(** The loop over the entries left of the second vector, which is sorted by
    its labels: [sccid2] is the label met last and [sccid1] the label that
    the first vector has for the entries of it. *)
Lemma compare_spec (s1 : list (N * N)) :
  StronglySorted (λ a b, a.1 ≤ b.1) s1 → NoDup s1.*1 →
  ∀ rest k l,
    StronglySorted (λ a b, a.2 ≤ b.2) rest → Forall (λ e, l ≤ e.2) rest →
    sccs_compare.compare s1 rest k l = [] ↔
    (∀ x l', (x, l') ∈ rest → ∃ k', (x, k') ∈ s1 ∧ (l' = l → k' = k)) ∧
    (∀ x x' l' k1 k2, (x, l') ∈ rest → (x', l') ∈ rest →
       (x, k1) ∈ s1 → (x', k2) ∈ s1 → k1 = k2).
Proof.
  intros Hs1 Hnd.
  assert (∀ x k1 k2, (x, k1) ∈ s1 → (x, k2) ∈ s1 → k1 = k2) as Hfun.
  { intros x k1 k2 H1 H2.
    apply (lower_bound_found _ _ _ Hs1 Hnd) in H1, H2. congruence. }
  induction rest as [|[x lx] rest IH]; intros k l Hsorted Hall; simpl.
  { split; [|done]. intros _.
    split; [intros ? ? ?%elem_of_nil | intros ? ? ? ? ? ?%elem_of_nil]; done. }
  apply StronglySorted_inv in Hsorted as [Hsorted Hx].
  apply Forall_cons in Hall as [Hlx Hall]. simpl in Hlx, Hx.
  destruct (sccs_compare.lower_bound s1 x _) as [[y ky]|] eqn:Hy; simpl.
  2:{ split; [done|]. intros [Hfound _].
      destruct (Hfound x lx) as (k' & Hk' & _); [left|].
      apply (lower_bound_found _ _ _ Hs1 Hnd) in Hk'. congruence. }
  case_bool_decide as Hyx.
  { split; [done|]. intros [Hfound _].
    destruct (Hfound x lx) as (k' & Hk' & _); [left|].
    apply (lower_bound_found _ _ _ Hs1 Hnd) in Hk'. congruence. }
  subst y. apply lower_bound_in in Hy as [Hy _].
  case_bool_decide as Hl.
  - (* a new label *)
    rewrite IH by done.
    split.
    + intros [Hfound Hsame]. split.
      * intros x' l' [[= -> ->]|Hin]%elem_of_cons; [by exists ky|].
        destruct (Hfound x' l' Hin) as (k' & Hk' & _). exists k'. split; [done|].
        intros ->. eapply Forall_forall in Hall; [|done]. simpl in *.
        eapply Forall_forall in Hx; [|done]. simpl in *. lia.
      * intros x1 x2 l' k1 k2 H1%elem_of_cons H2%elem_of_cons Hk1 Hk2.
        destruct H1 as [E1|H1], H2 as [E2|H2]; simplify_eq.
        -- by eapply Hfun.
        -- destruct (Hfound x2 lx H2) as (k' & Hk' & Heq).
           rewrite (Hfun _ _ _ Hk1 Hy), (Hfun _ _ _ Hk2 Hk'). by rewrite Heq.
        -- destruct (Hfound x1 lx H1) as (k' & Hk' & Heq).
           rewrite (Hfun _ _ _ Hk2 Hy), (Hfun _ _ _ Hk1 Hk'). by rewrite Heq.
        -- exact (Hsame x1 x2 l' k1 k2 H1 H2 Hk1 Hk2).
    + intros [Hfound Hsame]. split.
      * intros x' l' Hin. destruct (Hfound x' l') as (k' & Hk' & _); [by right|].
        exists k'. split; [done|]. intros ->.
        eapply (Hsame x' x lx); [by right | left | done..].
      * intros x1 x2 l' k1 k2 H1 H2. apply (Hsame x1 x2 l'); by right.
  - (* the label met last *)
    subst lx.
    case_bool_decide as Hk.
    { split; [done|]. intros [Hfound _].
      destruct (Hfound x l) as (k' & Hk' & Heq); [left|].
      specialize (Heq eq_refl). subst k'.
      destruct Hk. by eapply Hfun. }
    subst ky.
    rewrite IH; [|done..].
    split.
    + intros [Hfound Hsame]. split.
      * intros x' l' [[= -> ->]|Hin]%elem_of_cons; [by exists k | by apply Hfound].
      * intros x1 x2 l' k1 k2 H1%elem_of_cons H2%elem_of_cons Hk1 Hk2.
        destruct H1 as [E1|H1], H2 as [E2|H2]; simplify_eq.
        -- by eapply Hfun.
        -- destruct (Hfound x2 l H2) as (k' & Hk' & Heq).
           rewrite (Hfun _ _ _ Hk1 Hy), (Hfun _ _ _ Hk2 Hk'). by rewrite Heq.
        -- destruct (Hfound x1 l H1) as (k' & Hk' & Heq).
           rewrite (Hfun _ _ _ Hk2 Hy), (Hfun _ _ _ Hk1 Hk'). by rewrite Heq.
        -- exact (Hsame x1 x2 l' k1 k2 H1 H2 Hk1 Hk2).
    + intros [Hfound Hsame]. split.
      * intros x' l' Hin. apply Hfound. by right.
      * intros x1 x2 l' k1 k2 H1 H2. apply (Hsame x1 x2 l'); by right.
Qed.

(** The loop from its start, where [sccid2] differs from the label of the
    first entry: it ends without a message when every id of the second
    vector is in the first one, and ids with one label in the second have
    one label in the first. *)
Lemma compare_first (s1 : list (N * N)) x rest k l :
  StronglySorted (λ a b, a.1 ≤ b.1) s1 → NoDup s1.*1 →
  StronglySorted (λ a b, a.2 ≤ b.2) (x :: rest) → x.2 ≠ l →
  sccs_compare.compare s1 (x :: rest) k l = [] ↔
  (∀ e, e ∈ x :: rest → e.1 ∈ s1.*1) ∧
  (∀ x1 x2 l' k1 k2, (x1, l') ∈ x :: rest → (x2, l') ∈ x :: rest →
     (x1, k1) ∈ s1 → (x2, k2) ∈ s1 → k1 = k2).
Proof.
  intros Hs1 Hnd Hsorted Hl. destruct x as [x lx]. simpl in Hl.
  assert (∀ x k1 k2, (x, k1) ∈ s1 → (x, k2) ∈ s1 → k1 = k2) as Hfun.
  { intros x' k1 k2 H1 H2.
    apply (lower_bound_found _ _ _ Hs1 Hnd) in H1, H2. congruence. }
  assert (∀ y, y ∈ s1.*1 ↔ ∃ k', (y, k') ∈ s1) as Hids.
  { intros y. rewrite list_elem_of_fmap. split.
    - intros ([y' k'] & -> & Hin). by exists k'.
    - intros (k' & Hin). by exists (y, k'). }
  apply StronglySorted_inv in Hsorted as [Hsorted Hx]. simpl.
  destruct (sccs_compare.lower_bound s1 x _) as [[y ky]|] eqn:Hy; simpl.
  2:{ split; [done|]. intros [Hfound _].
      destruct (proj1 (Hids x)) as [k' Hk']; [apply (Hfound (x, lx)); left|].
      apply (lower_bound_found _ _ _ Hs1 Hnd) in Hk'. congruence. }
  case_bool_decide as Hyx.
  { split; [done|]. intros [Hfound _].
    destruct (proj1 (Hids x)) as [k' Hk']; [apply (Hfound (x, lx)); left|].
    apply (lower_bound_found _ _ _ Hs1 Hnd) in Hk'. congruence. }
  subst y. apply lower_bound_in in Hy as [Hy _].
  rewrite bool_decide_eq_true_2 by done.
  rewrite (compare_spec s1 Hs1 Hnd rest ky lx Hsorted Hx).
  split.
  - intros [Hfound Hsame]. split.
    + intros [x' l'] [[= -> ->]|Hin]%elem_of_cons; apply Hids; [by exists ky|].
      destruct (Hfound x' l' Hin) as (k' & Hk' & _). by exists k'.
    + intros x1 x2 l' k1 k2 H1%elem_of_cons H2%elem_of_cons Hk1 Hk2.
      destruct H1 as [E1|H1], H2 as [E2|H2]; simplify_eq.
      * by eapply Hfun.
      * destruct (Hfound x2 lx H2) as (k' & Hk' & Heq).
        rewrite (Hfun _ _ _ Hk1 Hy), (Hfun _ _ _ Hk2 Hk'). by rewrite Heq.
      * destruct (Hfound x1 lx H1) as (k' & Hk' & Heq).
        rewrite (Hfun _ _ _ Hk2 Hy), (Hfun _ _ _ Hk1 Hk'). by rewrite Heq.
      * exact (Hsame x1 x2 l' k1 k2 H1 H2 Hk1 Hk2).
  - intros [Hfound Hsame]. split.
    + intros x' l' Hin.
      destruct (proj1 (Hids x')) as [k' Hk']; [apply (Hfound (x', l')); by right|].
      exists k'. split; [done|]. intros ->.
      eapply (Hsame x' x lx); [by right | left | done..].
    + intros x1 x2 l' k1 k2 H1 H2. apply (Hsame x1 x2 l'); by right.
Qed.

Lemma read_pairs_all ce : ∀ ls rows acc,
  Forall2 (λ l xy, read l = inl xy) ls rows →
  sccs_compare.read_pairs ls ce acc = (acc ++ rows, end_error ce).
Proof.
  intros ls rows acc H. revert acc.
  induction H as [|l xy ls rows Hl _ IH]; intros acc; simpl.
  - by rewrite app_nil_r.
  - by rewrite Hl, IH, <- app_assoc.
Qed.

Lemma read_sccs_ok fn acc l e :
  sccs_compare.read_sccs files stdin fn acc = (0%Z, l, e) ↔
  e = [] ∧
  ∃ f rows, match fn with Some name => files name | None => Some stdin end = Some f ∧
    clean_end f = true ∧ Forall2 (λ ln xy, read ln = inl xy) (lines f) rows ∧
    l = acc ++ rows.
Proof.
  assert (∀ f,
    (let '(sccs, e) := sccs_compare.read_pairs (lines f) (clean_end f) acc in
     if bool_decide (e ≠ T_EOF) then (1%Z, sccs, [sccs_compare.ReadError])
     else (0%Z, sccs, [])) = (0%Z, l, e) ↔
    e = [] ∧ ∃ rows, clean_end f = true ∧
      Forall2 (λ ln xy, read ln = inl xy) (lines f) rows ∧ l = acc ++ rows) as Hf.
  { intros f. split.
    - destruct (sccs_compare.read_pairs _ _ _) as [l' e'] eqn:Hr.
      case_bool_decide as He; [done|]. intros [= <- <-]. split; [done|].
      apply read_pairs_spec in Hr as (rows & -> & _ & Heof).
      apply Heof in He as [? ?]. by exists rows.
    - intros (-> & rows & Hce & Hrows & ->).
      by rewrite (read_pairs_all _ _ _ _ Hrows), Hce. }
  unfold sccs_compare.read_sccs. destruct fn as [name|].
  - destruct (files name) as [f|].
    + rewrite Hf. split.
      * intros (-> & rows & ? & ? & ?). split; [done|]. by exists f, rows.
      * intros (-> & f' & rows & [= <-] & ? & ? & ?). split; [done|]. by exists rows.
    + split; [done|]. by intros (_ & f & rows & ? & _).
  - rewrite Hf. split.
    + intros (-> & rows & ? & ? & ?). split; [done|]. by exists stdin, rows.
    + intros (-> & f' & rows & [= <-] & ? & ? & ?). split; [done|]. by exists rows.
Qed.

Lemma read_sccs_range fn l e :
  sccs_compare.read_sccs files stdin fn [] = (0%Z, l, e) →
  Forall (λ xy, xy.1 < 2 ^ 32 ∧ xy.2 < 2 ^ 32) l.
Proof.
  intros (_ & f & rows & _ & _ & Hrows & ->)%read_sccs_ok. simpl.
  clear -Hrows. induction Hrows as [|ln [x y] ls rows Hl _ IH]; [done|].
  apply Forall_cons. split; [by eapply read_in_range | done].
Qed.
End Comparison.

(** X22: [read_sccs] returns 0 exactly when the input can be opened, every
    line of it is a row of two fields in range and the stream ends cleanly;
    the vector has then received all the rows, in their order.  A field out
    of range is an error here, not a skipped row. *)
Theorem read_sccs_strict (files : string → option table) (stdin : table)
    (fn : option string) (acc l : list (N * N)) (e : list sccs_compare.diag) :
  sccs_compare.read_sccs files stdin fn acc = (0%Z, l, e) ↔
  e = [] ∧
  ∃ f rows, match fn with Some name => files name | None => Some stdin end = Some f ∧
    clean_end f = true ∧ Forall2 (λ ln xy, read ln = inl xy) (lines f) rows ∧
    l = acc ++ rows.
Proof. apply read_sccs_ok. Qed.

(** X23: when both labelings are read, ids are not repeated in the first
    one and the second one is not empty, [sccs_compare] returns 0 after at
    most one message, and it writes no message exactly when every id of the
    second labeling is in the first one and ids with the same label in the
    second have the same label in the first.  Nothing is said when ids with
    different labels in the second share a label in the first.  [std::sort]
    is taken to return the vectors sorted, in any order of equal keys. *)
Theorem compare_reports (files : string → option table) (stdin : table)
    (sort : (N * N → N * N → bool) → list (N * N) → list (N * N))
    (i1 i2 : option string) (l1 l2 : list (N * N)) :
  ¬ (i1 = None ∧ i2 = None) →
  sccs_compare.read_sccs files stdin i1 [] = (0%Z, l1, []) →
  sccs_compare.read_sccs files stdin i2 [] = (0%Z, l2, []) →
  sort (λ a b, bool_decide (a.1 < b.1)) l1 ≡ₚ l1 →
  StronglySorted (λ a b, a.1 ≤ b.1) (sort (λ a b, bool_decide (a.1 < b.1)) l1) →
  sort (λ a b, bool_decide (a.2 < b.2)) l2 ≡ₚ l2 →
  StronglySorted (λ a b, a.2 ≤ b.2) (sort (λ a b, bool_decide (a.2 < b.2)) l2) →
  NoDup l1.*1 → l2 ≠ [] →
  ∃ msgs,
    sccs_compare.main files stdin sort i1 i2 = Done (0%Z, msgs) ∧
    (length msgs ≤ 1)%nat ∧
    (msgs = [] ↔
     (∀ x l, (x, l) ∈ l2 → x ∈ l1.*1) ∧
     (∀ x x' l k k', (x, l) ∈ l2 → (x', l) ∈ l2 →
        (x, k) ∈ l1 → (x', k') ∈ l1 → k = k')).
Proof.
  intros Hnames Hr1 Hr2 Hp1 Hs1 Hp2 Hs2 Hnd Hne.
  pose proof (read_sccs_range _ _ _ _ _ Hr2) as Hrange.
  unfold sccs_compare.main.
  rewrite bool_decide_eq_false_2 by done. rewrite Hr1. simpl. rewrite Hr2. simpl.
  set (s1 := sort (λ a b, bool_decide (a.1 < b.1)) l1) in *.
  set (s2 := sort (λ a b, bool_decide (a.2 < b.2)) l2) in *.
  destruct s2 as [|x0 rest] eqn:Hs2eq.
  { by apply Permutation_nil in Hp2. }
  eexists. split; [done|]. split; [apply compare_short|].
  assert (x0.2 ≠ (x0.2 + 1) mod 2 ^ 32) as Hx0.
  { assert (x0.2 < 2 ^ 32) as Hlt.
    { rewrite <- Hp2 in Hrange. by apply Forall_inv in Hrange as [_ ?]. }
    destruct (decide (x0.2 + 1 = 2 ^ 32)) as [Hw|Hw].
    - rewrite Hw, N.Div0.mod_same. lia.
    - rewrite N.mod_small; lia. }
  rewrite compare_first; [|done| |done|done].
  2:{ by rewrite Hp1. }
  split; intros [Hfound Hsame]; split.
  - intros x l Hin. rewrite <- Hp1. apply (Hfound (x, l)). by rewrite Hp2.
  - intros x x' l k k' H1 H2 Hk Hk'. rewrite <- Hp2 in H1, H2.
    rewrite <- Hp1 in Hk, Hk'. exact (Hsame x x' l k k' H1 H2 Hk Hk').
  - intros [x l] Hin. rewrite Hp1. apply (Hfound x l). by rewrite <- Hp2.
  - intros x x' l k k' H1 H2 Hk Hk'. rewrite Hp2 in H1, H2.
    rewrite Hp1 in Hk, Hk'. exact (Hsame x x' l k k' H1 H2 Hk Hk').
Qed.

(** X24: an empty second labeling is not reported: after both inputs are
    read, [sccs2[0]] is read from the empty vector. *)
Theorem compare_empty_second (files : string → option table) (stdin : table)
    (sort : (N * N → N * N → bool) → list (N * N) → list (N * N))
    (i1 i2 : option string) (l1 : list (N * N)) :
  sort (λ a b, bool_decide (a.2 < b.2)) [] ≡ₚ [] →
  ¬ (i1 = None ∧ i2 = None) →
  sccs_compare.read_sccs files stdin i1 [] = (0%Z, l1, []) →
  sccs_compare.read_sccs files stdin i2 [] = (0%Z, [], []) →
  sccs_compare.main files stdin sort i1 i2 = Fault 0.
Proof.
  intros Hp Hnames Hr1 Hr2. unfold sccs_compare.main.
  rewrite bool_decide_eq_false_2 by done. rewrite Hr1. simpl. rewrite Hr2. simpl.
  symmetry in Hp. apply Permutation_nil in Hp. by rewrite Hp.
Qed.

(** X25: the loop is left after at most as many rounds as there are nodes
    beyond the labels that remain: the counter [j] of the rounds plus the
    number of different labels of the final table is at most the number of
    users, and [j] has not wrapped. *)
Theorem rounds_bounded (order : gmap N N → list (N * N)) (urm : bool)
    (a1 a2 : list N) (m : nat) (err : list diag) (fuel : nat) (st : loop_state) :
  (∀ m, order m ≡ₚ map_to_list m) →
  (m ≤ length a1)%nat → (m ≤ length a2)%nat →
  (∀ p, (p < m)%nat → a1 !!! p < 2 ^ 32 ∧ a2 !!! p < 2 ^ 32) →
  main_loop order fuel urm (initial a1 a2 m err) = Some (CONVERGED, st) →
  (N.to_nat (j st) + size (map_img (SA:=gset N) (sccs (edges st))) ≤
   size (get_users a1 a2 m))%nat.
Proof.
  intros Hperm H1 H2 Hrange Hrun.
  pose proof (initial_head a1 a2 m err H1 H2) as Hhead.
  pose proof (initial_in_range a1 a2 m err Hrange) as Hin_range.
  assert (j (initial a1 a2 m err) < 2 ^ 32) as Hj0 by (simpl; lia).
  destruct (main_loop_rounds order Hperm urm _ _ st Hhead Hj0 Hrun)
    as (c & Hc & Hsize & _).
  pose proof (label_set_size (sccs (edges (initial a1 a2 m err)))) as Hls.
  pose proof (table_size _ Hin_range) as Hts.
  simpl in Hc, Hls, Hts, Hsize. rewrite length_map_to_list in Hls, Hts.
  destruct (decide (c = 0%nat)) as [->|Hpos].
  { rewrite Hc. simpl. lia. }
  assert (0 < size (map_img (SA:=gset N) (sccs (edges st))))%nat as Hnonempty.
  { destruct (size (map_img (SA:=gset N) (get_users a1 a2 m))) as [|k'] eqn:Hk; [lia|].
    destruct (map_choose (get_users a1 a2 m)) as (x & l & Hx).
    { intros Hempty. rewrite Hempty, map_img_empty_L, size_empty in Hk. done. }
    destruct (proj2 (main_loop_users order Hperm urm _ _ _ _ Hhead Hrun x)) as [l' Hl'].
    { by exists l. }
    apply (elem_of_map_img_2 (SA:=gset N)) in Hl'.
    destruct (size (map_img (sccs (edges st)))) eqn:Hsz; [|lia].
    apply size_empty_iff in Hsz. rewrite Hsz in Hl'. by apply elem_of_empty in Hl'. }
  rewrite Hc, N.mod_small by lia. lia.
Qed.

(** An argument beginning with "-" and the character [c], followed by an
    argument other than "-". *)
Lemma parse_inputs_names : ∀ args i1 i2 u i1' i2' u',
  sccs_compare.parse_inputs args i1 i2 u = (i1', i2', u') →
  (is_Some i1' ↔
   is_Some i1 ∨ ∃ pre a v post, args = pre ++ a :: v :: post ∧
                  flag a = Some "1"%char ∧ v ≠ "-"%string) ∧
  (is_Some i2' ↔
   is_Some i2 ∨ ∃ pre a v post, args = pre ++ a :: v :: post ∧
                  flag a = Some "2"%char ∧ v ≠ "-"%string).
Proof.
  induction args as [|a0 args IH]; intros i1 i2 u i1' i2' u' Hp; simpl in Hp.
  { simplify_eq. split; (split; [by left|]).
    - intros [?|(pre & a & v & post & Heq & _)]; [done | by destruct pre].
    - intros [?|(pre & a & v & post & Heq & _)]; [done | by destruct pre]. }
  assert (∀ c (P : Prop),
    (P ∨ ∃ pre a v post, a0 :: args = pre ++ a :: v :: post ∧
           flag a = Some c ∧ v ≠ "-"%string) ↔
    ((P ∨ ∃ v post, args = v :: post ∧ flag a0 = Some c ∧ v ≠ "-"%string) ∨
     ∃ pre a v post, args = pre ++ a :: v :: post ∧
       flag a = Some c ∧ v ≠ "-"%string)) as Hex.
  { intros c P. split.
    - intros [?|(pre & a & v & post & Heq & Hf & Hv)]; [by left; left|].
      destruct pre as [|p pre]; simplify_eq/=.
      + left. right. by exists v, post.
      + right. by exists pre, a, v, post.
    - intros [[?|(v & post & -> & Hf & Hv)]|(pre & a & v & post & -> & Hf & Hv)].
      + by left.
      + right. by exists [], a0, v, post.
      + right. by exists (a0 :: pre), a, v, post. }
  rewrite !Hex.
  destruct (flag a0) as [c|] eqn:Hf.
  2:{ apply IH in Hp as [-> ->].
      split; (split; [intros [?|?]; [by left; left | by right]|]);
        (intros [[?|(? & ? & _ & [=] & _)]|?]; [by left | by right]). }
  destruct (decide (c = "1"%char)) as [->|H1].
  { destruct args as [|v args].
    - apply IH in Hp as [-> ->].
      split; (split; [intros [?|?]; [by left; left | by right]|]);
        (intros [[?|(? & ? & [=] & _)]|?]; [by left | by right]).
    - destruct (decide (v = "-"%string)) as [->|Hv]; apply IH in Hp as [-> ->].
      + split; (split; [intros [?|?]; [by left; left | by right]|]).
        * intros [[?|(? & ? & [= <- <-] & _ & ?)]|?]; [by left | done | by right].
        * intros [[?|(? & ? & _ & [=] & _)]|?]; [by left | by right].
      + split; (split; [intros [?|?]|]).
        * left. right. by exists v, args.
        * by right.
        * intros _. by left.
        * by left; left.
        * by right.
        * intros [[?|(? & ? & _ & [=] & _)]|?]; [by left | by right]. }
  destruct (decide (c = "2"%char)) as [->|H2].
  { destruct args as [|v args].
    - apply IH in Hp as [-> ->].
      split; (split; [intros [?|?]; [by left; left | by right]|]);
        (intros [[?|(? & ? & [=] & _)]|?]; [by left | by right]).
    - destruct (decide (v = "-"%string)) as [->|Hv]; apply IH in Hp as [-> ->].
      + split; (split; [intros [?|?]; [by left; left | by right]|]).
        * intros [[?|(? & ? & _ & [=] & _)]|?]; [by left | by right].
        * intros [[?|(? & ? & [= <- <-] & _ & ?)]|?]; [by left | done | by right].
      + split; (split; [intros [?|?]|]).
        * by left; left.
        * by right.
        * intros [[?|(? & ? & _ & [=] & _)]|?]; [by left | by right].
        * left. right. by exists v, args.
        * by right.
        * intros _. by left. }
  apply IH in Hp as [-> ->].
  split; (split; [intros [?|?]; [by left; left | by right]|]);
    (intros [[?|(? & ? & _ & [= ->] & _)]|?]; [by left | done | by right]).
Qed.

(** X26: [sccs_compare] takes a file name from the argument behind an
    argument beginning with "-1" (or "-2") unless that argument is "-" or
    missing; when no argument gives a name to either, it returns 1 after
    "No input files given!", so both labelings cannot come from the
    standard input. *)
Theorem compare_needs_file (args : list string) (i1 i2 : option string)
    (u : list string) :
  sccs_compare.parse_inputs args None None [] = (i1, i2, u) →
  (is_Some i1 ↔ ∃ pre a v post, args = pre ++ a :: v :: post ∧
                  flag a = Some "1"%char ∧ v ≠ "-"%string) ∧
  (is_Some i2 ↔ ∃ pre a v post, args = pre ++ a :: v :: post ∧
                  flag a = Some "2"%char ∧ v ≠ "-"%string) ∧
  ((∀ pre a v post, args = pre ++ a :: v :: post →
      flag a = Some "1"%char ∨ flag a = Some "2"%char → v = "-"%string) →
   ∀ files stdin sort,
     sccs_compare.main files stdin sort i1 i2 =
       Done (1%Z, [sccs_compare.NoInputFiles])).
Proof.
  intros Hp. apply parse_inputs_names in Hp as [H1 H2].
  assert (∀ P : Prop, is_Some (@None string) ∨ P ↔ P) as Hnone.
  { intros P. split; [by intros [[? [=]]|?] | by right]. }
  rewrite Hnone in H1, H2. split_and!; [done..|].
  intros Hall files stdin sort.
  assert (i1 = None) as ->.
  { apply eq_None_not_Some. rewrite H1.
    intros (pre & a & v & post & Heq & Hf & Hv). apply Hv. eapply Hall; eauto. }
  assert (i2 = None) as ->.
  { apply eq_None_not_Some. rewrite H2.
    intros (pre & a & v & post & Heq & Hf & Hv). apply Hv. eapply Hall; eauto. }
  done.
Qed.

(** ** The further properties at work

    On the graph of the examples above, on small merge sets, command lines
    and labelings. *)

Lemma scan_drops_redundant_edges_witness :
  (n (scan_edges (edges (initial [4; 3; 2; 6; 8]%N [5; 4; 3; 2; 9]%N 5 []))) ≤ 5)%nat ∧
  sccs (scan_edges (edges (initial [4; 3; 2; 6; 8] [5; 4; 3; 2; 9] 5 []))) =
    get_users [4; 3; 2; 6; 8] [5; 4; 3; 2; 9] 5.
Proof.
  destruct (scan_drops_redundant_edges
              (edges (initial [4; 3; 2; 6; 8] [5; 4; 3; 2; 9] 5 [])) chain_ready)
    as (Hn & _ & _ & Hs & _).
  split; [exact Hn | exact Hs].
Defined.

Lemma merge_is_minimum_witness :
  (∀ p, (p < n (scan_edges (edges (initial [4; 3; 2; 6; 8]%N [5; 4; 3; 2; 9]%N 5 []))))%nat →
     lab (sccs (edges (initial [4; 3; 2; 6; 8]%N [5; 4; 3; 2; 9]%N 5 []))) (u1 (scan_edges (edges (initial [4; 3; 2; 6; 8]%N [5; 4; 3; 2; 9]%N 5 []))) !!! p) ≠ lab (sccs (edges (initial [4; 3; 2; 6; 8]%N [5; 4; 3; 2; 9]%N 5 []))) (u2 (scan_edges (edges (initial [4; 3; 2; 6; 8]%N [5; 4; 3; 2; 9]%N 5 []))) !!! p)) ∧
  ∀ s t, merge (scan_edges (edges (initial [4; 3; 2; 6; 8]%N [5; 4; 3; 2; 9]%N 5 []))) !! s = Some t ↔
    (∃ p, (p < n (scan_edges (edges (initial [4; 3; 2; 6; 8]%N [5; 4; 3; 2; 9]%N 5 []))))%nat ∧
       lab (sccs (edges (initial [4; 3; 2; 6; 8]%N [5; 4; 3; 2; 9]%N 5 []))) (u1 (scan_edges (edges (initial [4; 3; 2; 6; 8]%N [5; 4; 3; 2; 9]%N 5 []))) !!! p) `max`
         lab (sccs (edges (initial [4; 3; 2; 6; 8]%N [5; 4; 3; 2; 9]%N 5 []))) (u2 (scan_edges (edges (initial [4; 3; 2; 6; 8]%N [5; 4; 3; 2; 9]%N 5 []))) !!! p) = s ∧
       lab (sccs (edges (initial [4; 3; 2; 6; 8]%N [5; 4; 3; 2; 9]%N 5 []))) (u1 (scan_edges (edges (initial [4; 3; 2; 6; 8]%N [5; 4; 3; 2; 9]%N 5 []))) !!! p) `min`
         lab (sccs (edges (initial [4; 3; 2; 6; 8]%N [5; 4; 3; 2; 9]%N 5 []))) (u2 (scan_edges (edges (initial [4; 3; 2; 6; 8]%N [5; 4; 3; 2; 9]%N 5 []))) !!! p) = t) ∧
    (∀ p, (p < n (scan_edges (edges (initial [4; 3; 2; 6; 8]%N [5; 4; 3; 2; 9]%N 5 []))))%nat →
       lab (sccs (edges (initial [4; 3; 2; 6; 8]%N [5; 4; 3; 2; 9]%N 5 []))) (u1 (scan_edges (edges (initial [4; 3; 2; 6; 8]%N [5; 4; 3; 2; 9]%N 5 []))) !!! p) `max`
         lab (sccs (edges (initial [4; 3; 2; 6; 8]%N [5; 4; 3; 2; 9]%N 5 []))) (u2 (scan_edges (edges (initial [4; 3; 2; 6; 8]%N [5; 4; 3; 2; 9]%N 5 []))) !!! p) = s →
       t ≤ lab (sccs (edges (initial [4; 3; 2; 6; 8]%N [5; 4; 3; 2; 9]%N 5 []))) (u1 (scan_edges (edges (initial [4; 3; 2; 6; 8]%N [5; 4; 3; 2; 9]%N 5 []))) !!! p) `min`
             lab (sccs (edges (initial [4; 3; 2; 6; 8]%N [5; 4; 3; 2; 9]%N 5 []))) (u2 (scan_edges (edges (initial [4; 3; 2; 6; 8]%N [5; 4; 3; 2; 9]%N 5 []))) !!! p)).
Proof.
  exact (merge_is_minimum (edges (initial [4; 3; 2; 6; 8]%N [5; 4; 3; 2; 9]%N 5 [])) chain_ready).
Defined.

Lemma chain_downward : downward (list_to_map [(5, 4); (4, 3); (3, 2)] : gmap N N).
Proof.
  intros s t Hs. apply elem_of_list_to_map_2 in Hs.
  repeat (apply elem_of_cons in Hs as [[= -> ->]|Hs]; [lia|]).
  by apply elem_of_nil in Hs.
Defined.

Lemma chain_keys (ks : list N) :
  5 ∈ ks → 4 ∈ ks → 3 ∈ ks →
  ∀ s, is_Some ((list_to_map [(5, 4); (4, 3); (3, 2)] : gmap N N) !! s) → s ∈ ks.
Proof.
  intros H5 H4 H3 s [t Hs]. apply elem_of_list_to_map_2 in Hs.
  repeat (apply elem_of_cons in Hs as [[= -> ->]|Hs]; [done|]).
  by apply elem_of_nil in Hs.
Defined.

Lemma resolve_any_order_witness :
  is_Some (resolve [5; 4; 3] (list_to_map [(5, 4); (4, 3); (3, 2)])) ∧
  resolve [5; 4; 3] (list_to_map [(5, 4); (4, 3); (3, 2)]) =
  resolve [3; 5; 4] (list_to_map [(5, 4); (4, 3); (3, 2)]).
Proof.
  apply (resolve_any_order (list_to_map [(5, 4); (4, 3); (3, 2)]) [5; 4; 3] [3; 5; 4]).
  - exact chain_downward.
  - apply chain_keys; repeat constructor.
  - apply chain_keys; repeat constructor.
Defined.

Lemma resolve_twice_witness :
  ∃ m, resolve [5; 4; 3] (list_to_map [(5, 4); (4, 3); (3, 2)]) = Some m ∧
       resolve [3; 5; 4] m = Some m.
Proof.
  eexists. split; [vm_compute; reflexivity|].
  apply (resolve_twice (list_to_map [(5, 4); (4, 3); (3, 2)]) _ [5; 4; 3] [3; 5; 4]).
  - exact chain_downward.
  - apply chain_keys; repeat constructor.
  - vm_compute. reflexivity.
Defined.

Lemma resolve_cyclic_never_ends_witness :
  resolve [1; 2] (list_to_map [(1, 2); (2, 1)]) = None.
Proof.
  apply (resolve_cyclic_never_ends (list_to_map [(1, 2); (2, 1)]) [1; 2] 1).
  - intros c t Hc. apply elem_of_list_to_map_2 in Hc.
    repeat (apply elem_of_cons in Hc as [[= -> ->]|Hc]; [vm_compute; by eexists|]).
    by apply elem_of_nil in Hc.
  - vm_compute. by eexists.
  - repeat constructor.
Defined.

Lemma first_version_relabels_witness :
  ∃ s2',
    relabel_all true (list_to_map [(5, 4)])
      (map_to_list (list_to_map [(4, 4); (5, 5); (9, 5)])) (list_to_map [(4, 4); (5, 5); (9, 5)])
      [] 0 =
      (relabel (list_to_map [(5, 4)]) <$> list_to_map [(4, 4); (5, 5); (9, 5)], s2',
       Nat.iter (hits (list_to_map [(5, 4)])
                   (map_to_list (list_to_map [(4, 4); (5, 5); (9, 5)]))) incr64 0) ∧
    indexed (relabel (list_to_map [(5, 4)]) <$> list_to_map [(4, 4); (5, 5); (9, 5)]) s2'.
Proof.
  apply (first_version_relabels true (list_to_map [(5, 4)])
           (map_to_list (list_to_map [(4, 4); (5, 5); (9, 5)]))
           (list_to_map [(4, 4); (5, 5); (9, 5)]) 0).
  reflexivity.
Defined.

Lemma chain_in_range :
  ∀ p, (p < 5)%nat →
    [4; 3; 2; 6; 8] !!! p < 2 ^ 32 ∧ [5; 4; 3; 2; 9] !!! p < 2 ^ 32.
Proof.
  intros p Hp. do 5 (destruct p as [|p]; [by vm_compute|]). lia.
Defined.

Lemma loop_always_converges_witness :
  ∃ fuel st, ∀ fuel', (fuel ≤ fuel')%nat →
    main_loop map_to_list fuel' true (initial [4; 3; 2; 6; 8] [5; 4; 3; 2; 9] 5 []) =
      Some (CONVERGED, st).
Proof.
  apply (loop_always_converges map_to_list true [4; 3; 2; 6; 8] [5; 4; 3; 2; 9] 5 []).
  - intros m. reflexivity.
  - simpl. lia.
  - simpl. lia.
  - exact chain_in_range.
Defined.

Lemma program_terminates_witness :
  ∃ fuel o,
    (∀ fuel', (fuel ≤ fuel')%nat →
       main map_to_list fuel' (Config 5 None true) (Os true true true)
         (Table [Row 4 5; Row 3 4; Row 2 3; Row 6 2; Row 8 9] true) = Some o) ∧
    ∀ c, Inconsistent c ∉ match o with Exit _ _ e => e | Crash e _ => e end.
Proof.
  apply (program_terminates map_to_list (Config 5 None true) (Os true true true)
           (Table [Row 4 5; Row 3 4; Row 2 3; Row 6 2; Row 8 9] true)).
  intros m. reflexivity.
Defined.


Lemma only_self_loops_witness :
  main map_to_list 1 (Config 2 None false) (Os true true true)
    (Table [Row 5 5; Row 7 7] true) = Some (Exit 0 [] [ProcessingError]).
Proof.
  apply (only_self_loops map_to_list 0 (Config 2 None false) (Os true true true)
           (Table [Row 5 5; Row 7 7] true)).
  - reflexivity.
  - simpl. lia.
  - reflexivity.
  - vm_compute. lia.
  - intros x y Hxy. change (stored_rows _) with [(5, 5); (7, 7)] in Hxy.
    repeat (apply elem_of_cons in Hxy as [[= -> ->]|Hxy]; [reflexivity|]).
    by apply elem_of_nil in Hxy.
Defined.

Lemma rows_past_capacity_witness :
  main map_to_list 0 (Config 2 None false) (Os true true true)
    (Table [Row 1 2; Row 3 4; Row 5 6; Malformed] true) = Some (Crash [] 2).
Proof.
  apply (rows_past_capacity map_to_list 0 (Config 2 None false) (Os true true true)
           (Table [Row 1 2; Row 3 4; Row 5 6; Malformed] true)).
  - reflexivity.
  - simpl. lia.
  - vm_compute. lia.
Defined.

Lemma failed_mapping_run_witness :
  main map_to_list 0 (Config 2 (Some "sccstmp"%string) false) (Os true true false)
    (Table [Row 7 (-1); Malformed] true) =
    Some (Exit 1 [] [MapFileFailed; ReadFailed]).
Proof.
  apply (failed_mapping_run map_to_list 0 (Config 2 (Some "sccstmp"%string) false)
           (Os true true false) (Table [Row 7 (-1); Malformed] true)).
  reflexivity.
Defined.

Lemma reverse_map_in_step_witness :
  ∃ st,
    rounds map_to_list 1 true (initial [4; 3; 2; 6; 8] [5; 4; 3; 2; 9] 5 []) = Some st ∧
    NoDup (sccs2 st) ∧ ∀ l x, (l, x) ∈ sccs2 st ↔ sccs (edges st) !! x = Some l.
Proof.
  eexists. split; [vm_compute; reflexivity|].
  apply (reverse_map_in_step map_to_list true [4; 3; 2; 6; 8] [5; 4; 3; 2; 9] 5 [] 0).
  - intros m. reflexivity.
  - simpl. lia.
  - simpl. lia.
  - vm_compute. reflexivity.
Defined.

Lemma ch32_no_collision_witness : ch32 1 < 2 ^ 64 ∧ ch32 1 ≠ ch32 65537.
Proof. apply (ch32_no_collision 1 65537); lia. Defined.

Lemma options_anywhere_witness :
  ∃ cfg u,
    parse_args (λ _, 7) ["-t"; "-r"; "-x"; "in"; "-"]%string defaults [] = Some (cfg, u) ∧
    (use_reverse_map cfg = true ↔
     ∃ a, a ∈ ["-t"; "-r"; "-x"; "in"; "-"]%string ∧ flag a = Some "r"%char) ∧
    u = filter unknown_parameter ["-t"; "-r"; "-x"; "in"; "-"]%string.
Proof.
  eexists _, _. split; [vm_compute; reflexivity|].
  apply (options_anywhere (λ _, 7)). vm_compute. reflexivity.
Defined.

Lemma last_option_counts_witness :
  ∃ cfg u,
    parse_args (λ s, if decide (s = "3"%string) then 3 else 7)
      ["-N"; "3"; "-t"; "a"; "-N"; "7"; "-t"]%string defaults [] = Some (cfg, u) ∧
    n1 cfg = 7 ∧ tmpfn cfg = None.
Proof.
  eexists _, _. split; [vm_compute; reflexivity|].
  destruct (last_option_counts (λ s, if decide (s = "3"%string) then 3 else 7)
              ["-N"; "3"; "-t"; "a"; "-N"; "7"; "-t"]%string
              (Config 7 None false) []) as [Hlast _]; [vm_compute; reflexivity|].
  split.
  - destruct (Hlast ["-N"; "3"; "-t"; "a"]%string "-N"%string ["7"; "-t"]%string eq_refl)
      as [HN _].
    destruct HN as (v & [= <-] & Hv); [reflexivity | repeat constructor; by vm_compute|].
    exact Hv.
  - destruct (Hlast ["-N"; "3"; "-t"; "a"; "-N"; "7"]%string "-t"%string [] eq_refl)
      as [_ Ht].
    apply Ht; [reflexivity | constructor].
Defined.

Lemma no_buffer_size_witness :
  ∃ cfg u, parse_args (λ _, 7) ["-r"; "-t"; "file"]%string defaults [] = Some (cfg, u) ∧
    ∀ order fuel sys stdin,
      main order fuel cfg sys stdin = Some (Exit 1 [] [NoBufferSize]).
Proof.
  apply (no_buffer_size (λ _, 7) ["-r"; "-t"; "file"]%string).
  repeat constructor; by vm_compute.
Defined.

Lemma compare_reports_witness :
  ∃ msgs,
    sccs_compare.main
      (λ name, if decide (name = "one"%string)
               then Some (Table [Row 2 10; Row 1 10; Row 3 30] true)
               else Some (Table [Row 3 7; Row 1 5; Row 2 5] true))
      (Table [] true)
      (λ comp, @merge_sort _ (λ a b, comp b a = false) (λ a b, decide (comp b a = false)))
      (Some "one"%string) (Some "two"%string) = Done (0%Z, msgs) ∧
    (length msgs ≤ 1)%nat ∧
    (msgs = [] ↔
     (∀ x l, (x, l) ∈ [(3, 7); (1, 5); (2, 5)] → x ∈ [(2, 10); (1, 10); (3, 30)].*1) ∧
     (∀ x x' l k k', (x, l) ∈ [(3, 7); (1, 5); (2, 5)] → (x', l) ∈ [(3, 7); (1, 5); (2, 5)] →
        (x, k) ∈ [(2, 10); (1, 10); (3, 30)] → (x', k') ∈ [(2, 10); (1, 10); (3, 30)] →
        k = k')).
Proof.
  apply (compare_reports
           (λ name, if decide (name = "one"%string)
                    then Some (Table [Row 2 10; Row 1 10; Row 3 30] true)
                    else Some (Table [Row 3 7; Row 1 5; Row 2 5] true))
           (Table [] true)
           (λ comp, @merge_sort _ (λ a b, comp b a = false) (λ a b, decide (comp b a = false)))
           (Some "one"%string) (Some "two"%string)
           [(2, 10); (1, 10); (3, 30)] [(3, 7); (1, 5); (2, 5)]).
  - intros [[=] _].
  - vm_compute. reflexivity.
  - vm_compute. reflexivity.
  - apply merge_sort_Permutation.
  - change (merge_sort _ _) with [(1, 10); (2, 10); (3, 30)].
    repeat constructor; simpl; lia.
  - apply merge_sort_Permutation.
  - change (merge_sort _ _) with [(2, 5); (1, 5); (3, 7)].
    repeat constructor; simpl; lia.
  - apply (bool_decide_unpack _). by vm_compute.
  - done.
Defined.

Lemma compare_empty_second_witness :
  sccs_compare.main
    (λ name, if decide (name = "one"%string)
             then Some (Table [Row 2 10; Row 1 10] true)
             else Some (Table [] true))
    (Table [] true)
    (λ comp, @merge_sort _ (λ a b, comp b a = false) (λ a b, decide (comp b a = false)))
    (Some "one"%string) (Some "two"%string) = Fault 0.
Proof.
  apply (compare_empty_second
           (λ name, if decide (name = "one"%string)
                    then Some (Table [Row 2 10; Row 1 10] true)
                    else Some (Table [] true))
           (Table [] true)
           (λ comp, @merge_sort _ (λ a b, comp b a = false) (λ a b, decide (comp b a = false)))
           (Some "one"%string) (Some "two"%string) [(2, 10); (1, 10)]).
  - reflexivity.
  - intros [[=] _].
  - vm_compute. reflexivity.
  - vm_compute. reflexivity.
Defined.

Lemma rounds_bounded_witness :
  ∃ st,
    main_loop map_to_list 2 true (initial [4; 3; 2; 6; 8] [5; 4; 3; 2; 9] 5 []) =
      Some (CONVERGED, st) ∧
    (N.to_nat (j st) + size (map_img (SA:=gset N) (sccs (edges st))) ≤
     size (get_users [4; 3; 2; 6; 8]%N [5; 4; 3; 2; 9]%N 5))%nat.
Proof.
  eexists. split; [vm_compute; reflexivity|].
  apply (rounds_bounded map_to_list true [4; 3; 2; 6; 8] [5; 4; 3; 2; 9] 5 [] 2).
  - intros m. reflexivity.
  - simpl. lia.
  - simpl. lia.
  - exact chain_in_range.
  - vm_compute. reflexivity.
Defined.

Lemma compare_needs_file_witness :
  ∃ i1 i2 u,
    sccs_compare.parse_inputs ["-1"; "-"; "-2"; "two"; "-2"]%string None None [] =
      (i1, i2, u) ∧
    (is_Some i2 ↔ ∃ pre a v post,
       ["-1"; "-"; "-2"; "two"; "-2"]%string = pre ++ a :: v :: post ∧
       flag a = Some "2"%char ∧ v ≠ "-"%string).
Proof.
  eexists _, _, _. split; [vm_compute; reflexivity|].
  apply (compare_needs_file ["-1"; "-"; "-2"; "two"; "-2"]%string None (Some "two"%string)
           ["-"%string]).
  vm_compute. reflexivity.
Defined.
